(** * BenWeather comparison view: a shallow embedding of the client-side
    comparison code (src/static/js/comparison.js, src/static/js/api.js,
    src/static/js/settings.js, and the legacy monolithic src/static/app.js),
    together with the server-side Month Scorer, which is not part of the
    client sources and is modelled from the specification.

    Conventions.
    - JavaScript numbers are modelled as [Z] (day counts as [N]); every value
      the claims talk about is an integer (sunset minutes, counts, scores).
    - [String(n)] / template interpolation of a number is [num_str].
    - [Array.prototype.sort()] without comparator on strings compares code
      units lexicographically; we model it by stdpp's [merge_sort] on
      [String.le].  Any correct sort gives the same output for a total order
      whose equal elements are identical, so the choice of algorithm is
      immaterial (see [js_sort_perm]).
    - [Array.prototype.join(sep)] is [String.concat sep]. *)

From Stdlib Require Import ZArith String Ascii List Lia Sorting.Permutation.
From Stdlib Require Import DecimalString DecimalZ.
From stdpp Require Import base list strings sorting gmap.

Local Open Scope string_scope.
Local Open Scope list_scope.
Local Open Scope Z_scope.

Notation "s1 +++ s2" := (String.append s1 s2)
  (at level 60, right associativity) : string_scope.

(* ------------------------------------------------------------------ *)
(** ** JavaScript primitives used by the client code *)

(** [String(z)] for an integral number. *)
Definition num_str (z : Z) : string :=
  NilZero.string_of_int (Z.to_int z).

(** [s.padStart(n, "0")]. *)
Fixpoint zeros (k : nat) : string :=
  match k with
  | O => ""
  | S k' => "0" +++ zeros k'
  end.

Definition padStart (s : string) (n : nat) : string :=
  zeros (n - String.length s)%nat +++ s.

(** [arr.sort()] on an array of strings. *)
Definition js_sort (l : list string) : list string := merge_sort String.le l.

(** [arr.join(sep)]. *)
Definition join (sep : string) (l : list string) : string := String.concat sep l.

(** JavaScript truthiness of a string. *)
Definition truthy_str (s : string) : bool :=
  match s with "" => false | _ => true end.

(** [xs || []] for an optional array field. *)
Definition or_nil (o : option (list string)) : list string :=
  match o with Some l => l | None => [] end.

(* ------------------------------------------------------------------ *)
(** ** Saved comparisons (state.comparisons[i]) *)

Record Loc := mkLoc { lat : Z; lon : Z }.

Record Comp := mkComp {
  loc1 : Loc;
  loc2 : Loc;
  hidden_metrics : option (list string);
  display_metrics : option (list string)
}.

(** api.js [comparisonKey] (identical to app.js [_comparisonKey]). *)
Definition comparisonKey (comp : Comp) : string :=
  let k1 := num_str (lat (loc1 comp)) +++ "," +++ num_str (lon (loc1 comp)) in
  let k2 := num_str (lat (loc2 comp)) +++ "," +++ num_str (lon (loc2 comp)) in
  join "|" (js_sort [k1; k2]).

(** The spread [[...(comp.hidden_metrics || []), ...(comp.display_metrics || [])]]. *)
Definition notScoredList (comp : Comp) : list string :=
  or_nil (hidden_metrics comp) ++ or_nil (display_metrics comp).

(** comparison.js [compCacheKey]. *)
Definition compCacheKey (comp : Comp) : string :=
  let base := comparisonKey comp in
  let notScored := join "," (js_sort (notScoredList comp)) in
  if truthy_str notScored then base +++ "#" +++ notScored else base.

(** comparison.js [hiddenParam]. *)
Definition hiddenParam (comp : Comp) : string :=
  let h := notScoredList comp in
  match h with
  | [] => ""
  | _ => "&hidden=" +++ join "," h
  end.

(** api.js [getComparisonLocsForIdx] keeps the coordinates of the saved
    comparison (only the emoji is overlaid), so the request is built from
    [comp.loc1] / [comp.loc2]. *)
Definition comparisonUrl (comp : Comp) : string :=
  "/api/comparison?lat1=" +++ num_str (lat (loc1 comp)) +++
  "&lon1=" +++ num_str (lon (loc1 comp)) +++
  "&lat2=" +++ num_str (lat (loc2 comp)) +++
  "&lon2=" +++ num_str (lon (loc2 comp)) +++ hiddenParam comp.

(** app.js [_loadComparisonSummaryForIdx] / [_renderComparisonView] request. *)
Definition legacyComparisonUrl (comp : Comp) : string :=
  "/api/comparison?lat1=" +++ num_str (lat (loc1 comp)) +++
  "&lon1=" +++ num_str (lon (loc1 comp)) +++
  "&lat2=" +++ num_str (lat (loc2 comp)) +++
  "&lon2=" +++ num_str (lon (loc2 comp)).

(* ------------------------------------------------------------------ *)
(** ** comparison.js [minutesToTime] (identical to app.js [_minutesToTime]) *)

Definition minutesToTime (mins : Z) : string :=
  let h := mins / 60 in                       (* Math.floor(mins / 60) *)
  let m := Z.rem mins 60 in                    (* mins % 60 *)
  let ap := if 12 <=? h then "PM" else "AM" in
  let h := let r := Z.rem h 12 in if r =? 0 then 12 else r in   (* h % 12 || 12 *)
  if m =? 0 then num_str h +++ ap
  else num_str h +++ ":" +++ padStart (num_str m) 2 +++ ap.

(* ------------------------------------------------------------------ *)
(** ** MonthlyMetrics and MonthResult (the JSON the server returns) *)

Record MonthlyMetrics := mkMetrics {
  sunshine_hours : Z;
  rainy_days : N;
  overcast_days : N;
  cozy_overcast_days : N;
  snow_days : N;
  freezing_days : N;
  hot_days : N;
  sticky_days : N;
  avg_daylight_hours : option Z;
  avg_sunset_min : option Z;
  avg_high : option Z;
  avg_low : option Z
}.

Inductive Winner := WLoc1 | WLoc2 | WTie.

Definition winner_eqb (a b : Winner) : bool :=
  match a, b with
  | WLoc1, WLoc1 | WLoc2, WLoc2 | WTie, WTie => true
  | _, _ => false
  end.

Record MonthResult := mkMonth {
  month : string;
  mr_loc1 : MonthlyMetrics;
  mr_loc2 : MonthlyMetrics;
  winner : Winner;
  loc1_score : Z;
  loc2_score : Z;
  metric_ties : Z;
  sunset_diff : option Z
}.

(* ------------------------------------------------------------------ *)
(** ** comparison.js [renderCompRows]

    The table is the concatenation of [<tr>] rows; we keep the rows as a
    list of records and render each with [render_row], so that the HTML
    string is [renderCompRows] while statements can speak of [compRows]. *)

Definition dq : string := String (ascii_of_nat 34) "".

(** The green check mark "\u2705" (UTF-8 bytes). *)
Definition W : string := "✅".

Record Row := mkRow {
  disp1 : string;
  mark1 : string;
  label : string;
  mark2 : string;
  disp2 : string
}.

Definition render_row (r : Row) : string :=
  "<tr><td>" +++ disp1 r +++ "</td><td class=" +++ dq +++ "comp-label" +++ dq +++ ">"
  +++ mark1 r +++ label r +++ mark2 r +++ "</td><td>" +++ disp2 r +++ "</td></tr>".

(** The local [row] closure. *)
Definition row (d1 lbl d2 : string) (higherWins : bool) (n1 n2 : Z)
    (noMarks : bool) : Row :=
  let '(m1, m2) :=
    if negb noMarks && negb (n1 =? n2) then
      if higherWins then (if n2 <? n1 then (W +++ " ", "") else ("", " " +++ W))
      else (if n1 <? n2 then (W +++ " ", "") else ("", " " +++ W))
    else ("", "") in
  mkRow d1 m1 lbl m2 d2.

(** [Set.prototype.has] on the hidden / display-only sets. *)
Definition has (s : list string) (k : string) : bool :=
  existsb (String.eqb k) s.

Definition cnt (n : N) : Z := Z.of_N n.

(** [fmtHL]: [Math.round] is the identity on integral values. *)
Definition fmtHL (m : MonthlyMetrics) : string :=
  match avg_high m with Some v => num_str v +++ "°" | None => "--" end
  +++ " / " +++
  match avg_low m with Some v => num_str v +++ "°" | None => "--" end.

Definition opt_row (b : bool) (r : Row) : list Row := if b then [r] else [].

Definition compRows (m1 m2 : MonthlyMetrics) (h d : list string) : list Row :=
  opt_row (negb (has h "sunshine_hours"))
    (row (num_str (sunshine_hours m1) +++ "h") "Sunshine" (num_str (sunshine_hours m2) +++ "h")
       true (sunshine_hours m1) (sunshine_hours m2) (has d "sunshine_hours")) ++
  (if has h "avg_daylight_hours" then [] else
   match avg_daylight_hours m1, avg_daylight_hours m2 with
   | Some a1, Some a2 =>
       [row (num_str a1 +++ "h") "Daylight" (num_str a2 +++ "h") true a1 a2
          (has d "avg_daylight_hours")]
   | _, _ => []
   end) ++
  (if has h "avg_sunset_min" then [] else
   match avg_sunset_min m1, avg_sunset_min m2 with
   | Some s1, Some s2 =>
       let sDiff := Z.abs (s1 - s2) in
       let sN1 := if 10 <? sDiff then s1 else 0 in
       let sN2 := if 10 <? sDiff then s2 else 0 in
       [row (minutesToTime s1) "Avg sunset" (minutesToTime s2) true sN1 sN2
          (has d "avg_sunset_min")]
   | _, _ => []
   end) ++
  opt_row (negb (has h "rainy_days"))
    (row (num_str (cnt (rainy_days m1))) "Rainy days" (num_str (cnt (rainy_days m2)))
       false (cnt (rainy_days m1)) (cnt (rainy_days m2)) (has d "rainy_days")) ++
  opt_row (negb (has h "overcast_days"))
    (row (num_str (cnt (overcast_days m1))) "Overcast days" (num_str (cnt (overcast_days m2)))
       true (cnt (overcast_days m1)) (cnt (overcast_days m2)) (has d "overcast_days")) ++
  opt_row (negb (has h "cozy_overcast_days") &&
           ((0 <? cnt (cozy_overcast_days m1)) || (0 <? cnt (cozy_overcast_days m2))))
    (row (num_str (cnt (cozy_overcast_days m1))) "Cozy overcast"
       (num_str (cnt (cozy_overcast_days m2))) true
       (cnt (cozy_overcast_days m1)) (cnt (cozy_overcast_days m2)) (has d "cozy_overcast_days")) ++
  opt_row (negb (has h "snow_days") &&
           ((0 <? cnt (snow_days m1)) || (0 <? cnt (snow_days m2))))
    (row (num_str (cnt (snow_days m1))) "Snow days" (num_str (cnt (snow_days m2))) false
       (cnt (snow_days m1)) (cnt (snow_days m2)) (has d "snow_days")) ++
  opt_row (negb (has h "freezing_days") &&
           ((0 <? cnt (freezing_days m1)) || (0 <? cnt (freezing_days m2))))
    (row (num_str (cnt (freezing_days m1))) "Freezing days" (num_str (cnt (freezing_days m2)))
       false (cnt (freezing_days m1)) (cnt (freezing_days m2)) (has d "freezing_days")) ++
  opt_row (negb (has h "hot_days") &&
           ((0 <? cnt (hot_days m1)) || (0 <? cnt (hot_days m2))))
    (row (num_str (cnt (hot_days m1))) "Hot days (90+)" (num_str (cnt (hot_days m2))) false
       (cnt (hot_days m1)) (cnt (hot_days m2)) (has d "hot_days")) ++
  opt_row (negb (has h "sticky_days") &&
           ((0 <? cnt (sticky_days m1)) || (0 <? cnt (sticky_days m2))))
    (row (num_str (cnt (sticky_days m1))) "Sticky days (100+)" (num_str (cnt (sticky_days m2)))
       false (cnt (sticky_days m1)) (cnt (sticky_days m2)) (has d "sticky_days")) ++
  [mkRow (fmtHL m1) "" "Avg H / L" "" (fmtHL m2)].

Definition renderCompRows (m1 m2 : MonthlyMetrics) (h d : list string) : string :=
  String.concat "" (map render_row (compRows m1 m2 h d)).

(** app.js [_renderCompRows]: no hidden / display-only sets, no cozy row,
    and the sunset threshold written [sDiff >= 10]. *)
Definition legacy_row (d1 lbl d2 : string) (higherWins : bool) (n1 n2 : Z) : Row :=
  row d1 lbl d2 higherWins n1 n2 false.

Definition legacyCompRows (m1 m2 : MonthlyMetrics) : list Row :=
  [legacy_row (num_str (sunshine_hours m1) +++ "h") "Sunshine" (num_str (sunshine_hours m2) +++ "h")
     true (sunshine_hours m1) (sunshine_hours m2)] ++
  match avg_daylight_hours m1, avg_daylight_hours m2 with
  | Some a1, Some a2 => [legacy_row (num_str a1 +++ "h") "Daylight" (num_str a2 +++ "h") true a1 a2]
  | _, _ => []
  end ++
  match avg_sunset_min m1, avg_sunset_min m2 with
  | Some s1, Some s2 =>
      let sDiff := Z.abs (s1 - s2) in
      let sN1 := if 10 <=? sDiff then s1 else 0 in
      let sN2 := if 10 <=? sDiff then s2 else 0 in
      [legacy_row (minutesToTime s1) "Avg sunset" (minutesToTime s2) true sN1 sN2]
  | _, _ => []
  end ++
  [legacy_row (num_str (cnt (rainy_days m1))) "Rainy days" (num_str (cnt (rainy_days m2)))
     false (cnt (rainy_days m1)) (cnt (rainy_days m2));
   legacy_row (num_str (cnt (overcast_days m1))) "Overcast days" (num_str (cnt (overcast_days m2)))
     true (cnt (overcast_days m1)) (cnt (overcast_days m2))] ++
  opt_row ((0 <? cnt (snow_days m1)) || (0 <? cnt (snow_days m2)))
    (legacy_row (num_str (cnt (snow_days m1))) "Snow days" (num_str (cnt (snow_days m2))) false
       (cnt (snow_days m1)) (cnt (snow_days m2))) ++
  opt_row ((0 <? cnt (freezing_days m1)) || (0 <? cnt (freezing_days m2)))
    (legacy_row (num_str (cnt (freezing_days m1))) "Freezing days" (num_str (cnt (freezing_days m2)))
       false (cnt (freezing_days m1)) (cnt (freezing_days m2))) ++
  opt_row ((0 <? cnt (hot_days m1)) || (0 <? cnt (hot_days m2)))
    (legacy_row (num_str (cnt (hot_days m1))) "Hot days (90+)" (num_str (cnt (hot_days m2))) false
       (cnt (hot_days m1)) (cnt (hot_days m2))) ++
  opt_row ((0 <? cnt (sticky_days m1)) || (0 <? cnt (sticky_days m2)))
    (legacy_row (num_str (cnt (sticky_days m1))) "Sticky days (100+)" (num_str (cnt (sticky_days m2)))
       false (cnt (sticky_days m1)) (cnt (sticky_days m2))) ++
  [mkRow (fmtHL m1) "" "Avg H / L" "" (fmtHL m2)].

(** The first rendered row carrying a given label. *)
Definition find_row (lbl : string) (rs : list Row) : option Row :=
  find (fun r => String.eqb (label r) lbl) rs.

Definition row_present (lbl : string) (rs : list Row) : bool :=
  existsb (fun r => String.eqb (label r) lbl) rs.

(* ------------------------------------------------------------------ *)
(** ** Sweeps *)

(** comparison.js [isSweep] (renderChronoMonths, line 206; the same test
    counts sweeps in renderMonthlyGroups, line 276). *)
Definition isSweep (m : MonthResult) : bool :=
  negb (winner_eqb (winner m) WTie) && (metric_ties m =? 0) &&
  ((loc1_score m =? 0) || (loc2_score m =? 0)).

(** app.js [isSweep] (line 1399). *)
Definition legacyIsSweep (m : MonthResult) : bool :=
  negb (winner_eqb (winner m) WTie) && ((loc1_score m =? 0) || (loc2_score m =? 0)).

(* ------------------------------------------------------------------ *)
(** ** A small heap of arrays

    [data.months], the copy [[...data.months]] and the twelve buckets of the
    grouped view are JavaScript arrays, i.e. shared mutable objects.  The
    heap maps an address (an index) to the contents of an array of
    MonthResult; [alloc] returns a fresh address.  Computations may fail
    (a JavaScript TypeError) and still return the heap reached so far. *)

Abbreviation heap := (list (list MonthResult)).
Abbreviation addr := nat (only parsing).

Definition HM (A : Type) := heap -> option A * heap.

Definition hret {A} (a : A) : HM A := fun h => (Some a, h).
Definition hbind {A B} (c : HM A) (k : A -> HM B) : HM B :=
  fun h => match c h with
           | (Some a, h') => k a h'
           | (None, h') => (None, h')
           end.
Definition hfail {A} : HM A := fun h => (None, h).

Notation "x <-- c ;; k" := (hbind c (fun x => k))
  (at level 100, c at next level, right associativity).

Definition alloc (xs : list MonthResult) : HM addr :=
  fun h => (Some (length h), h ++ [xs]).

Definition load (a : addr) : HM (list MonthResult) :=
  fun h => (h !! a, h).

Definition store (a : addr) (xs : list MonthResult) : HM unit :=
  fun h => (Some tt, <[a := xs]> h).

(** [arr.push(x)]. *)
Definition push (a : addr) (x : MonthResult) : HM unit :=
  xs <-- load a ;; store a (xs ++ [x]).

(** [arr.reverse()], in place. *)
Definition reverse_in_place (a : addr) : HM unit :=
  xs <-- load a ;; store a (rev xs).

(** [entries.sort((a, b) => b.month.localeCompare(a.month))], in place;
    on "YYYY-MM" strings the locale order is the code-unit order. *)
Definition month_desc (x y : MonthResult) : Prop := String.le (month y) (month x).

#[local] Instance month_desc_dec : RelDecision month_desc.
Proof. intros x y. unfold month_desc. apply _. Defined.

Definition sort_in_place_desc (a : addr) : HM unit :=
  xs <-- load a ;; store a (merge_sort month_desc xs).

Fixpoint hforM {A} (xs : list A) (f : A -> HM unit) : HM unit :=
  match xs with
  | [] => hret tt
  | x :: xs' => _ <-- f x ;; hforM xs' f
  end.

(** The ComparisonResult object: its [months] field holds an array. *)
Record CompData := mkData {
  data_months : addr;
  loc1_wins : Z;
  loc2_wins : Z;
  overall_winner : Winner;
  window_start : string;
  window_end : string
}.

(* ------------------------------------------------------------------ *)
(** ** comparison.js [renderChronoMonths]

    The HTML is produced from [groups] by pure string building; we return
    the groups, which is what the HTML is a function of. *)

Inductive Group :=
  | GSweep (sweeper : Winner) (ms : list MonthResult)
  | GSingle (m : MonthResult).

(** One iteration of [for (const m of monthsDesc)]: the state is
    [(groups, run)], with [run = null] as [None]. *)
Definition chrono_step (st : list Group * option (Winner * list MonthResult))
    (m : MonthResult) : list Group * option (Winner * list MonthResult) :=
  let '(groups, run) := st in
  match run with
  | Some (sw, ms) =>
      if isSweep m && winner_eqb sw (winner m) then (groups, Some (sw, ms ++ [m]))
      else let groups := groups ++ [GSweep sw ms] in
           if isSweep m then (groups, Some (winner m, [m]))
           else (groups ++ [GSingle m], None)
  | None =>
      if isSweep m then (groups, Some (winner m, [m]))
      else (groups ++ [GSingle m], None)
  end.

Definition chrono_groups (monthsDesc : list MonthResult) : list Group :=
  let '(groups, run) := fold_left chrono_step monthsDesc ([], None) in
  match run with
  | Some (sw, ms) => groups ++ [GSweep sw ms]
  | None => groups
  end.

Definition renderChronoMonths (data : CompData) : HM (list Group) :=
  copy <-- (xs <-- load (data_months data) ;; alloc xs) ;;   (* [...data.months] *)
  _ <-- reverse_in_place copy ;;                             (* .reverse() *)
  monthsDesc <-- load copy ;;
  hret (chrono_groups monthsDesc).

(* ------------------------------------------------------------------ *)
(** ** comparison.js [renderMonthlyGroups] *)

(** [s.split("-")[1]]: the piece after the first "-" ([undefined] if none). *)
Fixpoint upto_dash (s : string) : string :=
  match s with
  | "" => ""
  | String c s' => if Ascii.eqb c "-" then "" else String c (upto_dash s')
  end.

Fixpoint split_dash_1 (s : string) : option string :=
  match s with
  | "" => None
  | String c s' => if Ascii.eqb c "-" then Some (upto_dash s') else split_dash_1 s'
  end.

(** [parseInt(s)]: leading white space, an optional sign, then the longest
    run of decimal digits; [None] is NaN. *)
Fixpoint digits_val (s : string) (acc : Z) (seen : bool) : option Z :=
  match s with
  | String c s' =>
      match Ascii.is_nat c with
      | Some d => digits_val s' (10 * acc + Z.of_nat d) true
      | None => if seen then Some acc else None
      end
  | "" => if seen then Some acc else None
  end.

Fixpoint parseInt (s : string) : option Z :=
  match s with
  | String c s' =>
      if Ascii.is_space c then parseInt s'
      else if Ascii.eqb c "-" then option_map Z.opp (digits_val s' 0 false)
      else if Ascii.eqb c "+" then digits_val s' 0 false
      else digits_val s 0 false
  | "" => None
  end.

(** [parseInt(m.month.split("-")[1]) - 1]. *)
Definition month_index (m : MonthResult) : option Z :=
  match split_dash_1 (month m) with
  | Some piece => option_map (fun v => v - 1) (parseInt piece)
  | None => None
  end.

(** [buckets[i]]: [undefined] unless [i] is an index of the array. *)
Definition bucket_at (buckets : list addr) (i : Z) : option addr :=
  if (0 <=? i) && (i <? Z.of_nat (length buckets)) then nth_error buckets (Z.to_nat i)
  else None.

(** [Array.from({ length: n }, () => [])]: [n] fresh arrays. *)
Fixpoint alloc_buckets (n : nat) : HM (list addr) :=
  match n with
  | O => hret []
  | S n' => a <-- alloc [] ;; rest <-- alloc_buckets n' ;; hret (a :: rest)
  end.

Record MonthGroup := mkMonthGroup {
  mg_index : Z;
  mg_entries : list MonthResult;
  mg_loc1w : Z;
  mg_loc2w : Z;
  mg_tieCount : Z;
  mg_sweepCount : Z
}.

(** The counting loop over [entries]. *)
Definition tally_step (acc : Z * Z * Z * Z) (m : MonthResult) : Z * Z * Z * Z :=
  let '(l1, l2, t, sw) := acc in
  let '(l1, l2, t) :=
    match winner m with
    | WLoc1 => (l1 + 1, l2, t)
    | WLoc2 => (l1, l2 + 1, t)
    | WTie => (l1, l2, t + 1)
    end in
  (l1, l2, t, if isSweep m then sw + 1 else sw).

Definition month_group (moIdx : Z) (entries : list MonthResult) : MonthGroup :=
  let '(l1, l2, t, sw) := fold_left tally_step entries (0, 0, 0, 0) in
  mkMonthGroup moIdx entries l1 l2 t sw.

(** [for (let i = 0; i < 12; i++)] over the buckets, starting at the
    current calendar month [curMonth] ([new Date().getMonth()]). *)
Fixpoint month_groups_loop (curMonth : Z) (buckets : list addr) (is : list Z)
    : HM (list MonthGroup) :=
  match is with
  | [] => hret []
  | i :: is' =>
      let moIdx := Z.rem (curMonth + i) 12 in
      match bucket_at buckets moIdx with
      | None => hfail
      | Some a =>
          entries <-- load a ;;
          match entries with
          | [] => month_groups_loop curMonth buckets is'
          | _ =>
              _ <-- sort_in_place_desc a ;;
              entries <-- load a ;;
              rest <-- month_groups_loop curMonth buckets is' ;;
              hret (month_group moIdx entries :: rest)
          end
      end
  end.

Definition renderMonthlyGroups (curMonth : Z) (data : CompData) : HM (list MonthGroup) :=
  buckets <-- alloc_buckets 12 ;;
  ms <-- load (data_months data) ;;
  _ <-- hforM ms (fun m =>
          match month_index m with
          | Some i => match bucket_at buckets i with
                      | Some a => push a m
                      | None => hfail      (* buckets[moIdx] is undefined *)
                      end
          | None => hfail
          end) ;;
  month_groups_loop curMonth buckets (map Z.of_nat (seq 0 12)).

(* ------------------------------------------------------------------ *)
(** ** The Month Scorer *)

(** Modelled from the spec: the server-side Month Scorer (section 4.2 of
    the specification) producing each MonthResult is not among the client
    sources; the client only consumes its JSON.  The scored metrics are the
    ten keys of settings.js [METRIC_LIST]; a metric is scored when it is in
    neither [hidden_metrics] nor [display_metrics]. *)
Definition METRIC_KEYS : list string :=
  ["sunshine_hours"; "rainy_days"; "overcast_days"; "cozy_overcast_days";
   "snow_days"; "freezing_days"; "hot_days"; "sticky_days";
   "avg_daylight_hours"; "avg_sunset_min"].

(** Modelled from the spec: the value of a metric key ([None] is null). *)
Definition metric_value (mm : MonthlyMetrics) (k : string) : option Z :=
  if String.eqb k "sunshine_hours" then Some (sunshine_hours mm)
  else if String.eqb k "rainy_days" then Some (cnt (rainy_days mm))
  else if String.eqb k "overcast_days" then Some (cnt (overcast_days mm))
  else if String.eqb k "cozy_overcast_days" then Some (cnt (cozy_overcast_days mm))
  else if String.eqb k "snow_days" then Some (cnt (snow_days mm))
  else if String.eqb k "freezing_days" then Some (cnt (freezing_days mm))
  else if String.eqb k "hot_days" then Some (cnt (hot_days mm))
  else if String.eqb k "sticky_days" then Some (cnt (sticky_days mm))
  else if String.eqb k "avg_daylight_hours" then avg_daylight_hours mm
  else if String.eqb k "avg_sunset_min" then avg_sunset_min mm
  else None.

(** Modelled from the spec: rules 3 and 4 (higher / lower is better). *)
Definition higher_is_better (k : string) : bool :=
  has ["sunshine_hours"; "overcast_days"; "cozy_overcast_days";
       "avg_daylight_hours"; "avg_sunset_min"] k.

Inductive Vote := V1 | V2 | VTie.

(** Modelled from the spec: the vote of one metric, [None] when it is
    skipped because a side is null (rule 1); rule 5 for the sunset. *)
Definition metric_vote (k : string) (m1 m2 : MonthlyMetrics) : option Vote :=
  match metric_value m1 k, metric_value m2 k with
  | Some v1, Some v2 =>
      if String.eqb k "avg_sunset_min" then
        Some (if 10 <? Z.abs (v1 - v2) then (if v2 <? v1 then V1 else V2) else VTie)
      else if v1 =? v2 then Some VTie
      else if higher_is_better k then Some (if v2 <? v1 then V1 else V2)
      else Some (if v1 <? v2 then V1 else V2)
  | _, _ => None
  end.

(** Modelled from the spec: "scored set" = all metrics minus (hidden U display). *)
Definition scored_set (hidden display : list string) : list string :=
  List.filter (fun k => negb (has hidden k || has display k)) METRIC_KEYS.

Definition tally_vote (acc : Z * Z * Z) (v : option Vote) : Z * Z * Z :=
  let '(s1, s2, t) := acc in
  match v with
  | Some V1 => (s1 + 1, s2, t)
  | Some V2 => (s1, s2 + 1, t)
  | Some VTie => (s1, s2, t + 1)
  | None => (s1, s2, t)
  end.

(** Modelled from the spec: the Month Scorer with its tally and winner. *)
Definition score_month (mo : string) (m1 m2 : MonthlyMetrics)
    (hidden display : list string) : MonthResult :=
  let '(s1, s2, t) :=
    fold_left tally_vote (map (fun k => metric_vote k m1 m2) (scored_set hidden display))
      (0, 0, 0) in
  let w := if s2 <? s1 then WLoc1 else if s1 <? s2 then WLoc2 else WTie in
  let sd := match avg_sunset_min m1, avg_sunset_min m2 with
            | Some a, Some b => Some (a - b)
            | _, _ => None
            end in
  mkMonth mo m1 m2 w s1 s2 t sd.

(** Both sides non-null for a metric. *)
Definition compared (m1 m2 : MonthlyMetrics) (k : string) : bool :=
  match metric_value m1 k, metric_value m2 k with
  | Some _, Some _ => true
  | _, _ => false
  end.

(* ------------------------------------------------------------------ *)
(** ** settings.js [openCompConfig]: the metric-row click handler *)

Inductive Mode := Scored | Display | HiddenM.

(** [cur === "scored" ? "display" : cur === "display" ? "hidden" : "scored"]. *)
Definition next_mode (m : Mode) : Mode :=
  match m with Scored => Display | Display => HiddenM | HiddenM => Scored end.

(** Observable effects, in program order. *)
Inductive Event :=
  | EDelete (key : string)                (* state.comparisonDataMap.delete *)
  | EGet (key : string)                   (* state.comparisonDataMap.get *)
  | ESet (key : string)                   (* state.comparisonDataMap.set *)
  | EAssignHidden (xs : list string)      (* comp.hidden_metrics = ... *)
  | EAssignDisplay (xs : list string)     (* comp.display_metrics = ... *)
  | ESave (comps : list Comp)             (* nav.saveComparisons() POST body *)
  | EFetch (url : string)                 (* fetch(/api/comparison...) *)
  | ERender (idx : nat).                  (* renderComparisonContent *)

Record AppState := mkApp {
  comparisons : list Comp;
  comparisonDataMap : gmap string CompData;
  showingComparisonIdx : Z;
  overlay_rows : list (string * Mode);     (* data-metric / data-mode *)
  trace : list Event
}.

Definition emit (e : Event) (s : AppState) : AppState :=
  mkApp (comparisons s) (comparisonDataMap s) (showingComparisonIdx s)
        (overlay_rows s) (trace s ++ [e]).

Section Client.
(** The server's answer to a comparison request URL ([None]: [!resp.ok]). *)
Variable server : string -> option CompData.

(** comparison.js [renderComparisonView], with the fetch answered at once. *)
Definition renderComparisonView (idx : nat) (s : AppState) : AppState :=
  match comparisons s !! idx with
  | None => s
  | Some comp =>
      let cacheKey := compCacheKey comp in
      let s := emit (EGet cacheKey) s in
      match comparisonDataMap s !! cacheKey with
      | Some _ => emit (ERender idx) s
      | None =>
          let url := comparisonUrl comp in
          let s := emit (EFetch url) s in
          match server url with
          | None => s
          | Some data =>
              let s := mkApp (comparisons s) (<[cacheKey := data]> (comparisonDataMap s))
                             (showingComparisonIdx s) (overlay_rows s) (trace s) in
              let s := emit (ESet cacheKey) s in
              if Z.eqb (showingComparisonIdx s) (Z.of_nat idx) then emit (ERender idx) s else s
          end
      end
  end.

(** The body of the click handler up to and including the save. *)
Definition toggle_update (ci i : nat) (s : AppState) : AppState :=
  match comparisons s !! ci, overlay_rows s !! i with
  | Some comp, Some (metric, cur) =>
      let rows := <[i := (metric, next_mode cur)]> (overlay_rows s) in
      let oldNotScored := join "," (js_sort (or_nil (hidden_metrics comp) ++
                                             or_nil (display_metrics comp))) in
      let baseKey := comparisonKey comp in
      let oldCacheKey := if truthy_str oldNotScored
                         then baseKey +++ "#" +++ oldNotScored else baseKey in
      let s := mkApp (comparisons s) (delete oldCacheKey (comparisonDataMap s))
                     (showingComparisonIdx s) rows (trace s ++ [EDelete oldCacheKey]) in
      let newHidden := map fst (List.filter (fun r => match snd r with HiddenM => true | _ => false end) rows) in
      let newDisplay := map fst (List.filter (fun r => match snd r with Display => true | _ => false end) rows) in
      let comp' := mkComp (loc1 comp) (loc2 comp) (Some newHidden) (Some newDisplay) in
      let comps' := <[ci := comp']> (comparisons s) in
      let s := mkApp comps' (comparisonDataMap s) (showingComparisonIdx s) rows
                     (trace s ++ [EAssignHidden newHidden; EAssignDisplay newDisplay]) in
      emit (ESave (comparisons s)) s
  | _, _ => s
  end.

(** The whole handler: update, save, then re-render when the comparison is
    on screen. *)
Definition onMetricRowClick (ci i : nat) (s : AppState) : AppState :=
  match comparisons s !! ci, overlay_rows s !! i with
  | Some _, Some _ =>
      let s := toggle_update ci i s in
      if Z.eqb (showingComparisonIdx s) (Z.of_nat ci) then renderComparisonView ci s else s
  | _, _ => s
  end.
End Client.

(* ------------------------------------------------------------------ *)
(** ** Sample inputs and proof-side predicates *)

Definition sample_comp (hm dm : option (list string)) : Comp :=
  mkComp (mkLoc 40 (-74)) (mkLoc 34 (-118)) hm dm.

Definition zero_metrics : MonthlyMetrics :=
  mkMetrics 0 0 0 0 0 0 0 0 None None None None.

(** A month loc1 wins 3-0 with 7 metric ties. *)
Definition month_3_0_7 : MonthResult :=
  mkMonth "2024-03" zero_metrics zero_metrics WLoc1 3 0 7 None.

Definition group_months (g : Group) : list MonthResult :=
  match g with GSweep _ xs => xs | GSingle m => [m] end.

Definition group_ok (g : Group) : Prop :=
  match g with
  | GSweep w xs => xs <> [] /\ Forall (fun m => isSweep m = true /\ winner m = w) xs
  | GSingle m => isSweep m = false
  end.

Definition run_months (run : option (Winner * list MonthResult)) : list MonthResult :=
  match run with Some (_, xs) => xs | None => [] end.

Definition run_ok (run : option (Winner * list MonthResult)) : Prop :=
  match run with Some (w, xs) => group_ok (GSweep w xs) | None => True end.

Definition chrono_inv (st : list Group * option (Winner * list MonthResult))
    (seen : list MonthResult) : Prop :=
  concat (map group_months st.1) ++ run_months st.2 = seen /\
  Forall group_ok st.1 /\ run_ok st.2.

Definition snowy : MonthlyMetrics := mkMetrics 200 5 3 0 2 0 0 0 None None None None.

Definition sunset_metrics (s : Z) : MonthlyMetrics :=
  mkMetrics 0 0 0 0 0 0 0 0 None (Some s) None None.

(** [frame n c P]: started on a heap with at least [n] arrays, [c] keeps
    at least [n] arrays, leaves the first [n] unchanged, and its result, if
    any, satisfies [P]. *)
Definition frame {A} (n : nat) (c : HM A) (P : A -> Prop) : Prop :=
  forall h, (n <= length h)%nat ->
    (n <= length (c h).2)%nat /\
    (forall l, (l < n)%nat -> (c h).2 !! l = h !! l) /\
    (forall a, (c h).1 = Some a -> P a).

Definition sample_months : list MonthResult :=
  [mkMonth "2024-03" zero_metrics zero_metrics WLoc1 3 0 0 None;
   mkMonth "2024-04" zero_metrics zero_metrics WLoc1 2 0 0 None;
   mkMonth "2023-03" zero_metrics zero_metrics WTie 1 1 0 None].

Definition sample_data : CompData := mkData 0 0 0 WTie "2023-03" "2024-04".

Definition metric_rows : list (string * Mode) := map (fun k => (k, Scored)) METRIC_KEYS.

Definition sample_state : AppState :=
  mkApp [sample_comp None None]
        (<[comparisonKey (sample_comp None None) := sample_data]> ∅)
        0 metric_rows [].

(* ------------------------------------------------------------------ *)
(** ** Cache keys: what an equal key implies *)

Fixpoint str_all (p : ascii -> bool) (s : string) : bool :=
  match s with "" => true | String c s' => p c && str_all p s' end.

Definition num_char (c : ascii) : bool :=
  Ascii.eqb c "-" || match Ascii.is_nat c with Some _ => true | None => false end.

Fixpoint split_on (c : ascii) (s : string) : string * option string :=
  match s with
  | "" => ("", None)
  | String x s' => if Ascii.eqb x c then ("", Some s')
                   else let '(a, r) := split_on c s' in (String x a, r)
  end.

Definition lacks (c : ascii) (s : string) : bool := str_all (fun x => negb (Ascii.eqb x c)) s.

Definition loc_str (l : Loc) : string := num_str (lat l) +++ "," +++ num_str (lon l).

Definition metric_name_ok (k : string) : Prop := k <> "" /\ lacks "," k = true.

(* ------------------------------------------------------------------ *)
(** ** Settings: [loadSettings] and [rebuildCardOrderIfNeeded] (api.js) *)

Record Place := mkPlace { p_lat : Z; p_lon : Z; p_name : string; p_emoji : option string }.

(** A saved comparison object, with its two location objects. *)

Record SavedComp := mkSaved {
  sc_loc1 : Place; sc_loc2 : Place;
  sc_hidden : option (list string); sc_display : option (list string) }.

Definition place_loc (p : Place) : Loc := mkLoc (p_lat p) (p_lon p).

(** The fields of a saved comparison read by the key and request code. *)

Definition to_comp (c : SavedComp) : Comp :=
  mkComp (place_loc (sc_loc1 c)) (place_loc (sc_loc2 c)) (sc_hidden c) (sc_display c).

(** [`${l.lat},${l.lon}`]. *)

Definition loc_key (l : Place) : string := num_str (p_lat l) +++ "," +++ num_str (p_lon l).

Definition comp_key (c : SavedComp) : string := comparisonKey (to_comp c).

(** A card of [state.cardOrder]: [{type, key}]. *)

Record Card := mkCard { ctype : string; ckey : string }.

Inductive SaveEv :=
  | SaveCardOrder (cs : list Card)
  | SaveLocations (ls : list Place)
  | SaveComparisons (cs : list SavedComp).

Record Settings := mkSettings {
  locations : list Place;
  s_comparisons : list SavedComp;
  cardOrder : list Card;
  saves : list SaveEv
}.

Definition set_cards (o : list Card) (s : Settings) : Settings :=
  mkSettings (locations s) (s_comparisons s) o (saves s).

Definition set_locations (ls : list Place) (s : Settings) : Settings :=
  mkSettings ls (s_comparisons s) (cardOrder s) (saves s).

Definition set_comparisons (cs : list SavedComp) (s : Settings) : Settings :=
  mkSettings (locations s) cs (cardOrder s) (saves s).
(** [await saveX()]: the POST carries the current array. *)

Definition save_cards (s : Settings) : Settings :=
  mkSettings (locations s) (s_comparisons s) (cardOrder s) (saves s ++ [SaveCardOrder (cardOrder s)]).

Definition save_locations (s : Settings) : Settings :=
  mkSettings (locations s) (s_comparisons s) (cardOrder s) (saves s ++ [SaveLocations (locations s)]).

Definition save_comparisons (s : Settings) : Settings :=
  mkSettings (locations s) (s_comparisons s) (cardOrder s) (saves s ++ [SaveComparisons (s_comparisons s)]).

(** One of the two loops of [rebuildCardOrderIfNeeded]: [existing] is the
    Set of keys, [order] the card array being pushed to. *)

Fixpoint add_missing (ty : string) (keys : list string) (existing : list string)
    (order : list Card) (changed : bool) : list string * list Card * bool :=
  match keys with
  | [] => (existing, order, changed)
  | k :: ks =>
      if has existing k then add_missing ty ks existing order changed
      else add_missing ty ks (existing ++ [k]) (order ++ [mkCard ty k]) true
  end.

Definition card_valid (locKeys compKeys : list string) (c : Card) : bool :=
  (String.eqb (ctype c) "loc" && has locKeys (ckey c)) ||
  (String.eqb (ctype c) "comp" && has compKeys (ckey c)).

(** api.js [rebuildCardOrderIfNeeded]: the new card order and [changed]. *)

Definition rebuild_order (locs : list Place) (comps : list SavedComp) (order : list Card)
    : list Card * bool :=
  let existing := map ckey order in
  let '(existing, order, changed) := add_missing "loc" (map loc_key locs) existing order false in
  let '(_, order, changed) := add_missing "comp" (map comp_key comps) existing order changed in
  let locKeys := map loc_key locs in
  let compKeys := map comp_key comps in
  let before := length order in
  let order := List.filter (card_valid locKeys compKeys) order in
  (order, changed || negb (Nat.eqb (length order) before)).

Definition rebuildCardOrderIfNeeded (s : Settings) : Settings :=
  let '(order, changed) := rebuild_order (locations s) (s_comparisons s) (cardOrder s) in
  let s := set_cards order s in
  if changed then save_cards s else s.

(** The JSON of [GET /api/settings]: [locations], [comparisons] and
    [card_order], each possibly absent; [None] when the fetch or the JSON
    parse throws (the error is caught and logged). *)

Record SettingsData := mkSettingsData {
  d_locations : option (list Place);
  d_comparisons : option (list SavedComp);
  d_card_order : option (list Card) }.

Definition or_nil' {A} (o : option (list A)) : list A := match o with Some l => l | None => [] end.

(** api.js [loadSettings]. *)

Definition loadSettings (resp : option SettingsData) (s : Settings) : Settings :=
  match resp with
  | None => s
  | Some data =>
      let s := set_locations (or_nil' (d_locations data)) s in
      let s := set_comparisons (or_nil' (d_comparisons data)) s in
      let s :=
        match s_comparisons s, locations s with
        | [], l0 :: l1 :: _ =>
            save_comparisons (set_comparisons [mkSaved l0 l1 None None] s)
        | _, _ => s
        end in
      let s := set_cards (or_nil' (d_card_order data)) s in
      rebuildCardOrderIfNeeded s
  end.

Definition valid_card (locs : list Place) (comps : list SavedComp) (c : Card) : Prop :=
  (ctype c = "loc" /\ In (ckey c) (map loc_key locs)) \/
  (ctype c = "comp" /\ In (ckey c) (map comp_key comps)).

Definition no_wrong_type (order : list Card) (ty k : string) : Prop :=
  forall c, In c order -> ckey c = k -> ctype c = ty.

(* ------------------------------------------------------------------ *)
(** ** Card navigation and swiping (app.js, api.js) *)

Fixpoint find_index {A} (p : A -> bool) (l : list A) : Z :=
  match l with
  | [] => -1
  | x :: xs => if p x then 0 else
      let i := find_index p xs in if i <? 0 then -1 else i + 1
  end.

(** [arr[i]]: undefined for a negative index or one past the end. *)

Definition nth_z {A} (l : list A) (i : Z) : option A :=
  if i <? 0 then None else nth_error l (Z.to_nat i).

(** The module state read and written by the card navigation. *)

Record Nav := mkNav {
  n_locations : list Place;
  n_comparisons : list SavedComp;
  n_cardOrder : list Card;
  n_activeLocation : option Place;
  n_showingComparisonIdx : Z }.

Definition set_view (a : option Place) (i : Z) (st : Nav) : Nav :=
  mkNav (n_locations st) (n_comparisons st) (n_cardOrder st) a i.

(** The state changes of [navigateToDetail], [navigateToComparison] and
    [navigateToDashboard] (the rendering they trigger is not modelled). *)

Definition navigateToDetail (loc : Place) (st : Nav) : Nav := set_view (Some loc) (-1) st.

Definition navigateToComparison (idx : Z) (st : Nav) : Nav := set_view None idx st.

Definition navigateToDashboard (st : Nav) : Nav := set_view None (-1) st.

Definition is_comp_card (k : string) (c : Card) : bool :=
  String.eqb (ctype c) "comp" && String.eqb (ckey c) k.

Definition is_loc_card (k : string) (c : Card) : bool :=
  String.eqb (ctype c) "loc" && String.eqb (ckey c) k.

(** api.js [currentCardIdx]. *)

Definition currentCardIdx (st : Nav) : Z :=
  if 0 <=? n_showingComparisonIdx st then
    match nth_z (n_comparisons st) (n_showingComparisonIdx st) with
    | Some comp => find_index (is_comp_card (comp_key comp)) (n_cardOrder st)
    | None => -1
    end
  else match n_activeLocation st with
    | Some l => find_index (is_loc_card (loc_key l)) (n_cardOrder st)
    | None => -1
    end.

(** api.js [navigateToCard]. *)

Definition navigateToCard (cardIdx : Z) (st : Nav) : Nav :=
  match nth_z (n_cardOrder st) cardIdx with
  | None => st
  | Some card =>
      if String.eqb (ctype card) "loc" then
        match List.find (fun l => String.eqb (loc_key l) (ckey card)) (n_locations st) with
        | Some loc => navigateToDetail loc st
        | None => st
        end
      else if String.eqb (ctype card) "comp" then
        let ci := find_index (fun c => String.eqb (comp_key c) (ckey card)) (n_comparisons st) in
        if 0 <=? ci then navigateToComparison ci st else st
      else st
  end.

(** The swipe cycle of the app.js [touchend] handler (the pull-to-refresh
    part of the handler is not modelled). *)

Definition swipe_end (swiping : bool) (dx dy : Z) (st : Nav) : Nav :=
  if swiping && (50 <? Z.abs dx) && (Z.abs dy <? Z.abs dx) then
    let ci := currentCardIdx st in
    let n := Z.of_nat (length (n_cardOrder st)) in
    if (ci =? -1) && match n_activeLocation st with None => true | Some _ => false end && (n_showingComparisonIdx st <? 0) then
      if (dx <? 0) && negb (n =? 0) then navigateToCard 0 st
      else if (0 <? dx) && negb (n =? 0) then navigateToCard (n - 1) st
      else st
    else if 0 <=? ci then
      if dx <? 0 then
        (if ci <? n - 1 then navigateToCard (ci + 1) st else navigateToDashboard st)
      else
        (if 0 <? ci then navigateToCard (ci - 1) st else navigateToDashboard st)
    else st
  else st.

Definition same_data (st st' : Nav) : Prop :=
  n_locations st' = n_locations st /\ n_comparisons st' = n_comparisons st /\
  n_cardOrder st' = n_cardOrder st.

Fixpoint iter {A} (n : nat) (f : A -> A) (x : A) : A :=
  match n with O => x | S n => f (iter n f x) end.

Definition on_dashboard (st : Nav) : Prop :=
  n_activeLocation st = None /\ n_showingComparisonIdx st < 0.

(* ------------------------------------------------------------------ *)
(** ** Adding a location or a comparison (search.js, app.js) *)

Definition same_coords (a b : Place) : bool := (p_lat a =? p_lat b) && (p_lon a =? p_lon b).

(** search.js [addLocation] (closing the overlay, the refresh and the
    re-render are not modelled). *)

Definition addLocation (loc : Place) (s : Settings) : Settings :=
  if existsb (fun l => same_coords l loc) (locations s) then s
  else
    let s := mkSettings (locations s ++ [loc]) (s_comparisons s)
                        (cardOrder s ++ [mkCard "loc" (loc_key loc)]) (saves s) in
    save_cards (save_locations s).

(** app.js [_saveNewComparison], with the two picked slots
    [_addCompLoc1] and [_addCompLoc2]; [Promise.all] starts the two POSTs
    in this order. *)

Definition saveNewComparison (slot1 slot2 : option Place) (s : Settings) : Settings :=
  match slot1, slot2 with
  | Some a, Some b =>
      if same_coords a b then s
      else
        let newComp := mkSaved a b None None in
        let newKey := comp_key newComp in
        if existsb (fun c => String.eqb (comp_key c) newKey) (s_comparisons s) then s
        else
          let s := mkSettings (locations s) (s_comparisons s ++ [newComp])
                              (cardOrder s ++ [mkCard "comp" newKey]) (saves s) in
          save_cards (save_comparisons s)
  | _, _ => s
  end.

(** The card order is in step with the saved locations and comparisons:
    no two locations share coordinates, no two comparisons share a key, no
    card is repeated, every card names a saved location or comparison, and
    every one has its card. *)

Definition cards_in_sync (s : Settings) : Prop :=
  List.NoDup (map place_loc (locations s)) /\
  List.NoDup (map comp_key (s_comparisons s)) /\
  List.NoDup (cardOrder s) /\
  (forall c, In c (cardOrder s) -> valid_card (locations s) (s_comparisons s) c) /\
  (forall l, In l (locations s) -> In (mkCard "loc" (loc_key l)) (cardOrder s)) /\
  (forall c, In c (s_comparisons s) -> In (mkCard "comp" (comp_key c)) (cardOrder s)).

(* ------------------------------------------------------------------ *)
(** ** The comparison settings overlay (settings.js [openCompConfig]) *)

Definition METRIC_LIST : list (string * string) :=
  [("sunshine_hours", "Sunshine hours"); ("rainy_days", "Rainy days");
   ("overcast_days", "Overcast days"); ("cozy_overcast_days", "Cozy overcast days");
   ("snow_days", "Snow days"); ("freezing_days", "Freezing days");
   ("hot_days", "Hot days"); ("sticky_days", "Sticky days");
   ("avg_daylight_hours", "Daylight hours"); ("avg_sunset_min", "Avg sunset time")].

(** [hidden.has(m.key) ? "hidden" : displayOnly.has(m.key) ? "display" : "scored"]. *)

Definition mode_of (comp : Comp) (k : string) : Mode :=
  if has (or_nil (hidden_metrics comp)) k then HiddenM
  else if has (or_nil (display_metrics comp)) k then Display
  else Scored.

(** The metric rows [openCompConfig] renders: data-metric and data-mode. *)

Definition openCompConfig_rows (comp : Comp) : list (string * Mode) :=
  map (fun m => (m.1, mode_of comp m.1)) METRIC_LIST.

(** settings.js [openCompConfig], as far as the metric rows go. *)

Definition openCompConfig (ci : nat) (s : AppState) : AppState :=
  match comparisons s !! ci with
  | None => s
  | Some comp =>
      mkApp (comparisons s) (comparisonDataMap s) (showingComparisonIdx s)
            (openCompConfig_rows comp) (trace s)
  end.

Definition is_hidden_row (r : string * Mode) : bool := match r.2 with HiddenM => true | _ => false end.

Definition is_display_row (r : string * Mode) : bool := match r.2 with Display => true | _ => false end.

(* ------------------------------------------------------------------ *)
(** ** Moving and deleting cards (settings.js [openSettings]) *)

Definition moveCard (idx : nat) (dir : string) (s : Settings) : option Settings :=
  let a := cardOrder s in
  match a !! idx with
  | None => None
  | Some x =>
      let swap := if String.eqb dir "up" then Z.of_nat idx - 1 else Z.of_nat idx + 1 in
      if (swap <? 0) || (Z.of_nat (length a) <=? swap) then Some s
      else match a !! Z.to_nat swap with
           | Some y => Some (save_cards (set_cards (<[Z.to_nat swap := x]> (<[idx := y]> a)) s))
           | None => Some s
           end
  end.

(** [arr.splice(i, 1)] for an index [i >= 0]. *)

Definition splice1 {A} (l : list A) (i : nat) : list A := firstn i l ++ skipn (S i) l.

(** The click handler of a settings delete button, with the button's
    data-card-idx, data-card-type and data-card-key. *)

Definition deleteCard (cardIdx : nat) (type key : string) (s : Settings) : Settings :=
  let s := save_cards (set_cards (splice1 (cardOrder s) cardIdx) s) in
  if String.eqb type "loc" then
    let li := find_index (fun l => String.eqb (loc_key l) key) (locations s) in
    let s := if 0 <=? li then set_locations (splice1 (locations s) (Z.to_nat li)) s else s in
    save_locations s
  else if String.eqb type "comp" then
    let ci := find_index (fun c => String.eqb (comp_key c) key) (s_comparisons s) in
    let s := if 0 <=? ci then set_comparisons (splice1 (s_comparisons s) (Z.to_nat ci)) s else s in
    save_comparisons s
  else s.

(* ------------------------------------------------------------------ *)
(** ** Chronological runs and the dashboard subtitle (comparison.js) *)

Fixpoint runs_maximal (gs : list Group) : Prop :=
  match gs with
  | g1 :: ((g2 :: _) as rest) =>
      match g1, g2 with
      | GSweep w1 _, GSweep w2 _ => w1 <> w2
      | _, _ => True
      end /\ runs_maximal rest
  | _ => True
  end.

Definition last_sweeper (gs : list Group) : option Winner :=
  match last gs with Some (GSweep w _) => Some w | _ => None end.

Definition chrono_max_inv (st : list Group * option (Winner * list MonthResult)) : Prop :=
  runs_maximal st.1 /\
  match st.2 with
  | Some (sw, _) => last_sweeper st.1 <> Some sw
  | None => last_sweeper st.1 = None
  end.

Fixpoint streak_loop (sw : option Winner) (cnt : Z) (ms : list MonthResult) : option Winner * Z :=
  match ms with
  | [] => (sw, cnt)
  | m :: ms' =>
      match sw with
      | None => if negb (winner_eqb (winner m) WTie) then streak_loop (Some (winner m)) 1 ms' else (sw, cnt)
      | Some w => if winner_eqb (winner m) w then streak_loop sw (cnt + 1) ms' else (sw, cnt)
      end
  end.

Section Summary.
Variable server : string -> option CompData.
(** [esc] of utils.js. *)
Variable esc : string -> string.

(** The subtitle set by [loadComparisonSummaryForIdx], from the two display
    names and [data.months]. *)
Definition streak_subtitle (name1 name2 : string) (months : list MonthResult) : string :=
  let '(sw, cnt) := streak_loop None 0 (rev months) in
  let streakName := match sw with Some WLoc1 => Some name1 | Some WLoc2 => Some name2 | _ => None end in
  match streakName with
  | Some n =>
      if truthy_str n then
        (if 1 <? cnt then esc n +++ " " +++ num_str cnt +++ " month streak"
         else esc n +++ " won last month")
      else "Tied last month"
  | None => "Tied last month"
  end.

(** comparison.js [loadComparisonSummaryForIdx], with the fetch answered at
    once: the state reached and the subtitle set ([None]: none is set). *)
Definition loadComparisonSummaryForIdx (ci : nat) (name1 name2 : string) (h : heap)
    (s : AppState) : AppState * option string :=
  match comparisons s !! ci with
  | None => (s, None)
  | Some comp =>
      let cacheKey := compCacheKey comp in
      let s := emit (EGet cacheKey) s in
      let fetched :=
        match comparisonDataMap s !! cacheKey with
        | Some data => inr (s, data)
        | None =>
            let url := comparisonUrl comp in
            let s := emit (EFetch url) s in
            match server url with
            | None => inl s
            | Some data =>
                let s := mkApp (comparisons s) (<[cacheKey := data]> (comparisonDataMap s))
                               (showingComparisonIdx s) (overlay_rows s) (trace s) in
                inr (emit (ESet cacheKey) s, data)
            end
        end in
      match fetched with
      | inl s => (s, Some "Unable to load")
      | inr (s, data) =>
          match h !! data_months data with
          | Some months => (s, Some (streak_subtitle name1 name2 months))
          | None => (s, None)
          end
      end
  end.
End Summary.

(** Length of the run of months won by [w] at the head of the list. *)

Fixpoint lead_run (w : Winner) (ms : list MonthResult) : nat :=
  match ms with
  | m :: ms' => if winner_eqb (winner m) w then S (lead_run w ms') else O
  | [] => O
  end.

(* ------------------------------------------------------------------ *)
(** ** The grouped-by-calendar-month view, without the heap *)

Definition month_ok (m : MonthResult) : bool :=
  match month_index m with Some i => (0 <=? i) && (i <? 12) | None => false end.

(** The months of calendar month [k], in input order. *)

Definition bucket (ms : list MonthResult) (k : Z) : list MonthResult :=
  List.filter (fun m => match month_index m with Some i => i =? k | None => false end) ms.

(** The grouped view without the heap. *)

Definition monthly_groups_spec (curMonth : Z) (ms : list MonthResult) : list MonthGroup :=
  flat_map (fun i =>
    let mo := Z.rem (curMonth + i) 12 in
    match bucket ms mo with
    | [] => []
    | es => [month_group mo (merge_sort month_desc es)]
    end) (map Z.of_nat (seq 0 12)).

Definition bucket_heap (h : heap) (pre : list MonthResult) (hp : heap) : Prop :=
  length hp = (length h + 12)%nat /\ (forall l, (l < length h)%nat -> hp !! l = h !! l) /\
  (forall j, 0 <= j < 12 -> hp !! (length h + Z.to_nat j)%nat = Some (bucket pre j)).

(** The body of the push loop, on the buckets allocated over [h]. *)

Definition push_body (h : heap) (m : MonthResult) : HM unit :=
  match month_index m with
  | Some i => match bucket_at (map (Nat.add (length h)) (seq 0 12)) i with
              | Some a => push a m | None => hfail end
  | None => hfail
  end.

Definition loop_spec (ms : list MonthResult) (curMonth : Z) (is : list Z) : list MonthGroup :=
  flat_map (fun i =>
    let mo := Z.rem (curMonth + i) 12 in
    match bucket ms mo with
    | [] => []
    | es => [month_group mo (merge_sort month_desc es)]
    end) is.

(* ------------------------------------------------------------------ *)
(** ** Month tallies and table rows *)

Definition count_winner (w : Winner) (es : list MonthResult) : Z :=
  Z.of_nat (length (List.filter (fun m => winner_eqb (winner m) w) es)).

Definition compRows_keys : list (string * string) :=
  [("sunshine_hours", "Sunshine"); ("avg_daylight_hours", "Daylight");
   ("avg_sunset_min", "Avg sunset"); ("rainy_days", "Rainy days");
   ("overcast_days", "Overcast days"); ("cozy_overcast_days", "Cozy overcast");
   ("snow_days", "Snow days"); ("freezing_days", "Freezing days");
   ("hot_days", "Hot days (90+)"); ("sticky_days", "Sticky days (100+)")].

Definition row_ok (h d : list string) (r : Row) : Prop :=
  (mark1 r = "" \/ mark2 r = "") /\
  forall k, In (k, label r) compRows_keys ->
    has h k = false /\ (has d k = true -> mark1 r = "" /\ mark2 r = "").

(* ------------------------------------------------------------------ *)
(** ** The net-score chart (comparison.js [renderCompChart]) *)

Inductive jsv := JNull | JNum (v : Z) | JHole.

(** The members a plain object inherits from [Object.prototype]. *)

Definition proto_member (k : string) : bool :=
  existsb (String.eqb k)
    ["constructor"; "__defineGetter__"; "__defineSetter__"; "hasOwnProperty";
     "__lookupGetter__"; "__lookupSetter__"; "isPrototypeOf"; "propertyIsEnumerable";
     "toString"; "valueOf"; "__proto__"; "toLocaleString"].

(** [arr[i] = v]: an array index (0 .. 2^32 - 2) replaces a slot or extends
    the array with holes; any other key ([NaN], a negative number) is a
    plain property and leaves the slots alone. *)

Definition set_index (arr : list jsv) (i : option Z) (v : Z) : list jsv :=
  match i with
  | Some i =>
      if (0 <=? i) && (i <? 4294967295) then
        let k := Z.to_nat i in
        if (k <? length arr)%nat then <[k := JNum v]> arr
        else arr ++ repeat JHole (k - length arr) ++ [JNum v]
      else arr
  | None => arr
  end.

(** The own properties of [yearData], in creation order. *)

Fixpoint assoc_get (k : string) (l : list (string * list jsv)) : option (list jsv) :=
  match l with
  | [] => None
  | (k', v) :: l' => if String.eqb k k' then Some v else assoc_get k l'
  end.

Fixpoint assoc_set (k : string) (v : list jsv) (l : list (string * list jsv))
    : list (string * list jsv) :=
  match l with
  | [] => [(k, v)]
  | (k', v') :: l' => if String.eqb k k' then (k, v) :: l' else (k', v') :: assoc_set k v l'
  end.

(** One pass of the [for (const m of data.months)] loop of [renderCompChart].
    When [year] names an inherited member, [yearData[year]] is that member
    (truthy) and the assignment lands on it, not on [yearData]. *)

Definition chart_step (yd : list (string * list jsv)) (m : MonthResult) : list (string * list jsv) :=
  let year := upto_dash (month m) in
  let monthIdx := month_index m in
  let net := loc1_score m - loc2_score m in
  if proto_member year then yd
  else
    let arr := match assoc_get year yd with Some a => a | None => repeat JNull 12 end in
    assoc_set year (set_index arr monthIdx net) yd.

Definition chart_yearData (ms : list MonthResult) : list (string * list jsv) :=
  fold_left chart_step ms [].

(** [Object.keys(yearData).sort()]. *)

Definition chart_years (ms : list MonthResult) : list string :=
  js_sort (map fst (chart_yearData ms)).

(** [if (v !== null) yAbs = Math.max(yAbs, Math.abs(v))]; a hole reads as
    [undefined], whose [Math.abs] is [NaN] ([None]). *)

Definition yabs_step (y : option Z) (v : jsv) : option Z :=
  match v with
  | JNull => y
  | JNum v => option_map (fun y => Z.max y (Z.abs v)) y
  | JHole => None
  end.

(** [yAbs] after [yAbs += 1]. *)

Definition chart_yAbs (ms : list MonthResult) : option Z :=
  let yd := chart_yearData ms in
  option_map (fun y => y + 1)
    (fold_left (fun y yr => fold_left yabs_step (default [] (assoc_get yr yd)) y)
       (chart_years ms) (Some 1)).

(** The net score of the last month of year [yr] and index [i]. *)

Definition last_net (yr : string) (i : Z) (ms : list MonthResult) : option Z :=
  fold_left (fun acc m =>
    if String.eqb (upto_dash (month m)) yr &&
       match month_index m with Some j => j =? i | None => false end
    then Some (loc1_score m - loc2_score m) else acc) ms None.

Definition jsv_of (o : option Z) : jsv := match o with Some v => JNum v | None => JNull end.

(* ------------------------------------------------------------------ *)
(** ** Emoji edits and the view header *)

Definition emoji_str (o : option string) : string :=
  match o with Some e => if truthy_str e then e else "" | None => "" end.

Definition truthy_opt (o : option string) : bool :=
  match o with Some e => truthy_str e | None => false end.

(** The [enrich] closure of api.js [getComparisonLocsForIdx]. *)

Definition enrich (locs : list Place) (cl : Place) : Place :=
  match List.find (fun l => same_coords l cl) locs with
  | Some saved =>
      mkPlace (p_lat cl) (p_lon cl) (p_name cl)
              (if truthy_opt (p_emoji saved) then p_emoji saved else p_emoji cl)
  | None => cl
  end.

(** The header title set by comparison.js [renderComparisonView]
    ([None]: no comparison at [idx]). *)

Definition header_title (s : Settings) (idx : nat) : option string :=
  match s_comparisons s !! idx with
  | Some comp =>
      let e1 := emoji_str (p_emoji (enrich (locations s) (sc_loc1 comp))) in
      let e2 := emoji_str (p_emoji (enrich (locations s) (sc_loc2 comp))) in
      Some (e1 +++ " vs " +++ e2)
  | None => None
  end.

Section Emoji.
(** [String.prototype.trim]. *)
Variable trim : string -> string.

Definition set_emoji (p : Place) (e : string) : Place :=
  mkPlace (p_lat p) (p_lon p) (p_name p) (Some e).

(** [saveEmojis] of settings.js [openCompConfig], given the two input
    values, up to and including [await nav.saveComparisons()]. *)
Definition saveEmojis (ci : nat) (v1 v2 : string) (s : Settings) : Settings :=
  match s_comparisons s !! ci with
  | Some comp =>
      let e1 := let t := trim v1 in if truthy_str t then t else "" in
      let e2 := let t := trim v2 in if truthy_str t then t else "" in
      let comp' := mkSaved (set_emoji (sc_loc1 comp) e1) (set_emoji (sc_loc2 comp) e2)
                           (sc_hidden comp) (sc_display comp) in
      save_comparisons (set_comparisons (<[ci := comp']> (s_comparisons s)) s)
  | None => s
  end.
End Emoji.

(** What the header shows for one side after [saveEmojis] stored [e]. *)

Definition shown_emoji (locs : list Place) (p : Place) (e : string) : string :=
  match List.find (fun l => same_coords l p) locs with
  | Some saved => if truthy_opt (p_emoji saved) then emoji_str (p_emoji saved) else e
  | None => e
  end.

(* ------------------------------------------------------------------ *)
(** ** [minutesToTime] over a day and beyond *)

Fixpoint read_num (s : string) (acc : Z) : Z * string :=
  match s with
  | String c s' =>
      match Ascii.is_nat c with
      | Some d => read_num s' (10 * acc + Z.of_nat d)
      | None => (acc, s)
      end
  | "" => (acc, "")
  end.

(** Reads back an ["h:mmAM"] / ["hPM"] string. *)

Definition parse_time (s : string) : option Z :=
  let '(h, rest) := read_num s 0 in
  let '(m, rest) :=
    match rest with
    | String c r => if Ascii.eqb c ":" then read_num r 0 else (0, rest)
    | "" => (0, rest)
    end in
  if String.eqb rest "AM" then Some (Z.rem h 12 * 60 + m)
  else if String.eqb rest "PM" then Some ((Z.rem h 12 + 12) * 60 + m)
  else None.

Definition day_minutes : list Z := map Z.of_nat (seq 0 1440).

(* ------------------------------------------------------------------ *)
(** ** Sample settings, navigation state and heap for the further properties *)

Definition pl_nyc : Place := mkPlace 40 (-74) "New York" None.
Definition pl_la : Place := mkPlace 34 (-118) "Los Angeles" (Some "*").
Definition pl_ldn : Place := mkPlace 51 0 "London" None.
Definition saved_nyc_la : SavedComp := mkSaved pl_nyc pl_la None None.
Definition sample_cards : list Card :=
  [mkCard "loc" (loc_key pl_nyc); mkCard "comp" (comp_key saved_nyc_la); mkCard "loc" (loc_key pl_la)].
Definition sample_settings : Settings := mkSettings [pl_nyc; pl_la] [saved_nyc_la] sample_cards [].
Definition sample_nav : Nav := mkNav [pl_nyc; pl_la] [saved_nyc_la] sample_cards None (-1).

Definition empty_settings : Settings := mkSettings [] [] [] [].

Definition first_run_data : SettingsData := mkSettingsData (Some [pl_nyc; pl_la]) None None.

Definition moved_cards : list Card :=
  [mkCard "comp" (comp_key saved_nyc_la); mkCard "loc" (loc_key pl_nyc); mkCard "loc" (loc_key pl_la)].

Definition moved_settings : Settings :=
  mkSettings [pl_nyc; pl_la] [saved_nyc_la] moved_cards [SaveCardOrder moved_cards].

Definition sample_heap : heap := [sample_months].

Definition cold_state : AppState := mkApp [sample_comp None None] ∅ 0 metric_rows [].

Definition no_server : string -> option CompData := fun _ => None.

(* ================================================================== *)
(** * Properties *)

Lemma str_app_assoc (a b c : string) : (a +++ b) +++ c = a +++ b +++ c.
Proof. induction a as [|x a IH]; [reflexivity | exact (f_equal (String x) IH)]. Qed.

Lemma str_app_nil_l (a : string) : "" +++ a = a.
Proof. reflexivity. Qed.

(** Sorting a permuted list gives the same array: the output of [js_sort]
    only depends on the multiset of its input. *)
Lemma js_sort_perm (l1 l2 : list string) : l1 ≡ₚ l2 -> js_sort l1 = js_sort l2.
Proof.
  intros Hp. unfold js_sort.
  apply (Sorted_unique String.le).
  - apply (Sorted_merge_sort String.le).
  - apply (Sorted_merge_sort String.le).
  - rewrite !merge_sort_Permutation. exact Hp.
Qed.

Example minutesToTime_ex1 : minutesToTime 1095 = "6:15PM".
Proof. reflexivity. Qed.
Example minutesToTime_ex2 : minutesToTime 545 = "9:05AM".
Proof. reflexivity. Qed.
Example compCacheKey_ex :
  compCacheKey (mkComp (mkLoc 40 (-74)) (mkLoc 34 (-118))
                 (Some ["snow_days"]) (Some ["avg_high"]))
  = "34,-118|40,-74#avg_high,snow_days".
Proof. reflexivity. Qed.

(** ** C10 *)

(** C10: for every [mins] in [0, 1439], [minutesToTime mins] is a 12-hour
    clock string: an hour in 1..12, then either nothing or ":" and the two
    padded minute digits, then "AM" exactly when [mins < 720] and "PM"
    otherwise; in particular 0 gives "12AM" and 720 gives "12PM". *)
Theorem minutesToTime_twelve_hour (mins : Z) (Hrange : 0 <= mins <= 1439) :
  (exists hh rest,
      1 <= hh <= 12 /\
      (rest = "" \/ rest = ":" +++ padStart (num_str (mins mod 60)) 2) /\
      minutesToTime mins = num_str hh +++ rest +++ (if mins <? 720 then "AM" else "PM"))
  /\ minutesToTime 0 = "12AM" /\ minutesToTime 720 = "12PM".
Proof.
  split; [|split; reflexivity].
  unfold minutesToTime.
  assert (Hh0 : 0 <= mins / 60) by (apply Z.div_pos; lia).
  assert (Hh1 : mins / 60 < 24) by (apply Z.div_lt_upper_bound; lia).
  assert (Hap : (12 <=? mins / 60) = negb (mins <? 720)).
  { pose proof (Z.div_mod mins 60 ltac:(lia)).
    pose proof (Z.mod_pos_bound mins 60 ltac:(lia)).
    destruct (12 <=? mins / 60) eqn:E1, (mins <? 720) eqn:E2; simpl; try reflexivity.
    - apply Z.leb_le in E1; apply Z.ltb_lt in E2; lia.
    - apply Z.leb_gt in E1; apply Z.ltb_ge in E2; lia. }
  rewrite Hap.
  rewrite (Z.rem_mod_nonneg mins 60) by lia.
  set (r := Z.rem (mins / 60) 12).
  assert (Hr : 0 <= r < 12) by (unfold r; rewrite Z.rem_mod_nonneg by lia;
                                 apply Z.mod_pos_bound; lia).
  exists (if r =? 0 then 12 else r).
  exists (if mins mod 60 =? 0 then "" else ":" +++ padStart (num_str (mins mod 60)) 2).
  split; [destruct (r =? 0) eqn:E; [lia | apply Z.eqb_neq in E; lia] |].
  split; [destruct (mins mod 60 =? 0); auto |].
  destruct (mins mod 60 =? 0); destruct (mins <? 720); simpl;
    rewrite ?str_app_assoc; reflexivity.
Qed.

Lemma minutesToTime_twelve_hour_witness :
  (0 <= 545 <= 1439) /\
  ((exists hh rest,
      1 <= hh <= 12 /\
      (rest = "" \/ rest = ":" +++ padStart (num_str (545 mod 60)) 2) /\
      minutesToTime 545 = num_str hh +++ rest +++ (if 545 <? 720 then "AM" else "PM"))
   /\ minutesToTime 0 = "12AM" /\ minutesToTime 720 = "12PM").
Proof. split; [lia | apply (minutesToTime_twelve_hour 545); lia]. Defined.

(** ** C6 *)

(** C6: the cache key of a comparison does not change when its two
    locations are swapped (same metric configuration); neither does the
    location-pair key. *)
Theorem compCacheKey_swap (A B : Loc) (hm dm : option (list string)) :
  comparisonKey (mkComp A B hm dm) = comparisonKey (mkComp B A hm dm) /\
  compCacheKey (mkComp A B hm dm) = compCacheKey (mkComp B A hm dm).
Proof.
  assert (Hk : comparisonKey (mkComp A B hm dm) = comparisonKey (mkComp B A hm dm)).
  { unfold comparisonKey; simpl. f_equal. apply js_sort_perm. apply Permutation_swap. }
  split; [exact Hk|].
  unfold compCacheKey. rewrite Hk. reflexivity.
Qed.

(** ** C3 *)

(** C3 refuted: with nothing hidden and nothing display-only the key has
    no "#" separator; it is the bare location-pair key. *)
Lemma compCacheKey_empty_union_no_hash :
  compCacheKey (sample_comp None (Some [])) = comparisonKey (sample_comp None (Some [])) /\
  compCacheKey (sample_comp None (Some [])) <>
    comparisonKey (sample_comp None (Some [])) +++ "#" +++
      join "," (js_sort (notScoredList (sample_comp None (Some [])))).
Proof. vm_compute. split; [reflexivity | discriminate]. Qed.

(** C3 (amended): the cache key is the sorted location-pair key, followed,
    when the sorted comma-joined concatenation [hidden_metrics ++
    display_metrics] is a non-empty string, by "#" and that string; with an
    empty concatenation it is the bare pair key.  The key depends on the
    two arrays only through the multiset of their concatenation, so two
    configurations of the same locations whose concatenations are
    permutations of each other (e.g. the same disjoint union split
    differently between hidden and display-only) share the key. *)
Theorem compCacheKey_shape (c c' : Comp) :
  compCacheKey c =
    (let s := join "," (js_sort (or_nil (hidden_metrics c) ++ or_nil (display_metrics c))) in
     if truthy_str s then comparisonKey c +++ "#" +++ s else comparisonKey c) /\
  (notScoredList c = [] -> compCacheKey c = comparisonKey c) /\
  (loc1 c = loc1 c' -> loc2 c = loc2 c' ->
   notScoredList c ≡ₚ notScoredList c' -> compCacheKey c = compCacheKey c').
Proof.
  split; [reflexivity|]. split.
  - intros He. unfold compCacheKey. rewrite He. reflexivity.
  - intros H1 H2 Hp. unfold compCacheKey.
    assert (Hb : comparisonKey c = comparisonKey c') by (unfold comparisonKey; rewrite H1, H2; reflexivity).
    rewrite Hb, (js_sort_perm _ _ Hp). reflexivity.
Qed.

Lemma compCacheKey_shape_witness :
  (loc1 (sample_comp (Some ["snow_days"]) (Some ["hot_days"])) =
     loc1 (sample_comp (Some ["hot_days"; "snow_days"]) None) /\
   loc2 (sample_comp (Some ["snow_days"]) (Some ["hot_days"])) =
     loc2 (sample_comp (Some ["hot_days"; "snow_days"]) None) /\
   notScoredList (sample_comp (Some ["snow_days"]) (Some ["hot_days"])) ≡ₚ
     notScoredList (sample_comp (Some ["hot_days"; "snow_days"]) None)) /\
  compCacheKey (sample_comp (Some ["snow_days"]) (Some ["hot_days"])) =
    compCacheKey (sample_comp (Some ["hot_days"; "snow_days"]) None).
Proof.
  assert (Hp : notScoredList (sample_comp (Some ["snow_days"]) (Some ["hot_days"])) ≡ₚ
               notScoredList (sample_comp (Some ["hot_days"; "snow_days"]) None))
    by (simpl; apply Permutation_swap).
  split; [split; [reflexivity | split; [reflexivity | exact Hp]]|].
  destruct (compCacheKey_shape (sample_comp (Some ["snow_days"]) (Some ["hot_days"]))
              (sample_comp (Some ["hot_days"; "snow_days"]) None)) as [_ [_ H]].
  exact (H eq_refl eq_refl Hp).
Defined.

(** ** C7 *)

(** C7 refuted: two configurations that split the same metric differently
    between hidden and display-only send the very same request, so the
    request does not carry [hidden_metrics] and [display_metrics] as
    distinct inputs. *)
Lemma comparisonUrl_merges_hidden_display :
  hidden_metrics (sample_comp (Some ["snow_days"]) None) <>
    hidden_metrics (sample_comp None (Some ["snow_days"])) /\
  comparisonUrl (sample_comp (Some ["snow_days"]) None) =
    comparisonUrl (sample_comp None (Some ["snow_days"])).
Proof. split; [discriminate | reflexivity]. Qed.

(** C7 (amended): the rendering layer's comparison request carries the two
    locations' coordinates and one [hidden] parameter holding
    [hidden_metrics] followed by [display_metrics], comma-joined (absent
    when both are empty); requests of configurations with the same
    coordinates and the same concatenation are identical.  The legacy
    app.js request carries the coordinates only. *)
Theorem comparisonUrl_shape (c c' : Comp) :
  comparisonUrl c =
    "/api/comparison?lat1=" +++ num_str (lat (loc1 c)) +++
    "&lon1=" +++ num_str (lon (loc1 c)) +++
    "&lat2=" +++ num_str (lat (loc2 c)) +++
    "&lon2=" +++ num_str (lon (loc2 c)) +++
    (match (or_nil (hidden_metrics c) ++ or_nil (display_metrics c))%list with
     | [] => ""
     | ns => "&hidden=" +++ join "," ns
     end) /\
  legacyComparisonUrl c =
    "/api/comparison?lat1=" +++ num_str (lat (loc1 c)) +++
    "&lon1=" +++ num_str (lon (loc1 c)) +++
    "&lat2=" +++ num_str (lat (loc2 c)) +++
    "&lon2=" +++ num_str (lon (loc2 c)) /\
  (loc1 c = loc1 c' -> loc2 c = loc2 c' -> notScoredList c = notScoredList c' ->
   comparisonUrl c = comparisonUrl c').
Proof.
  split.
  { unfold comparisonUrl, hiddenParam, notScoredList.
    destruct (or_nil (hidden_metrics c) ++ or_nil (display_metrics c)); reflexivity. }
  split; [reflexivity|].
  intros H1 H2 H3. unfold comparisonUrl, hiddenParam. rewrite H1, H2, H3. reflexivity.
Qed.

Lemma comparisonUrl_shape_witness :
  (loc1 (sample_comp (Some ["snow_days"]) None) = loc1 (sample_comp None (Some ["snow_days"])) /\
   loc2 (sample_comp (Some ["snow_days"]) None) = loc2 (sample_comp None (Some ["snow_days"])) /\
   notScoredList (sample_comp (Some ["snow_days"]) None) =
     notScoredList (sample_comp None (Some ["snow_days"]))) /\
  comparisonUrl (sample_comp (Some ["snow_days"]) None) =
    comparisonUrl (sample_comp None (Some ["snow_days"])).
Proof.
  split; [split; [reflexivity | split; reflexivity]|].
  destruct (comparisonUrl_shape (sample_comp (Some ["snow_days"]) None)
              (sample_comp None (Some ["snow_days"]))) as [_ [_ H]].
  exact (H eq_refl eq_refl eq_refl).
Defined.

(** ** C5 *)

(** C5 refuted: a month whose winner is not "tie" and whose losing side
    scored zero is not a sweep when some metrics tied; it is grouped as a
    single month. *)
Lemma sweep_requires_no_ties :
  winner month_3_0_7 <> WTie /\ loc2_score month_3_0_7 = 0 /\
  isSweep month_3_0_7 = false /\
  chrono_groups [month_3_0_7] = [GSingle month_3_0_7].
Proof. split; [discriminate | split; [reflexivity | split; reflexivity]]. Qed.

Lemma winner_eqb_true (a b : Winner) : winner_eqb a b = true <-> a = b.
Proof. destruct a, b; simpl; split; congruence. Qed.

Lemma isSweep_true_iff (m : MonthResult) :
  isSweep m = true <->
  winner m <> WTie /\ metric_ties m = 0 /\ (loc1_score m = 0 \/ loc2_score m = 0).
Proof.
  unfold isSweep. rewrite !andb_true_iff, orb_true_iff, negb_true_iff, !Z.eqb_eq.
  assert (winner_eqb (winner m) WTie = false <-> winner m <> WTie).
  { destruct (winner m); simpl; split; congruence. }
  tauto.
Qed.

Lemma chrono_step_inv st seen m :
  chrono_inv st seen -> chrono_inv (chrono_step st m) (seen ++ [m]).
Proof.
  destruct st as [groups run]. unfold chrono_inv; simpl. intros [Hs [Hg Hr]].
  destruct run as [[sw ms]|]; simpl in *.
  - destruct (isSweep m && winner_eqb sw (winner m)) eqn:E.
    + apply andb_true_iff in E as [E1 E2]. apply winner_eqb_true in E2.
      simpl. destruct Hr as [Hne Hf].
      split; [rewrite <- Hs, app_assoc; reflexivity|].
      split; [exact Hg|]. split; [destruct ms; simpl; congruence|].
      apply Forall_app; split; [exact Hf | constructor; [split; congruence | constructor]].
    + destruct (isSweep m) eqn:Es; simpl.
      * rewrite map_app, concat_app. simpl. rewrite app_nil_r.
        split; [rewrite <- Hs, <- app_assoc; reflexivity|].
        split; [apply Forall_app; split; [exact Hg | constructor; [exact Hr | constructor]]|].
        split; [discriminate | constructor; [split; [exact Es | reflexivity] | constructor]].
      * rewrite !map_app, !concat_app. simpl. rewrite !app_nil_r.
        split; [rewrite <- Hs, <- app_assoc; reflexivity|].
        split; [|exact I].
        apply Forall_app; split; [apply Forall_app; split; [exact Hg | constructor; [exact Hr | constructor]]|].
        constructor; [exact Es | constructor].
  - rewrite app_nil_r in Hs.
    destruct (isSweep m) eqn:Es; simpl.
    + split; [rewrite Hs; reflexivity|].
      split; [exact Hg|].
      split; [discriminate | constructor; [split; [exact Es | reflexivity] | constructor]].
    + rewrite map_app, concat_app. simpl. rewrite !app_nil_r.
      split; [rewrite Hs; reflexivity|].
      split; [apply Forall_app; split; [exact Hg | constructor; [exact Es | constructor]] | exact I].
Qed.

Lemma chrono_fold_inv ms st seen :
  chrono_inv st seen -> chrono_inv (fold_left chrono_step ms st) (seen ++ ms).
Proof.
  revert st seen. induction ms as [|m ms IH]; intros st seen H; simpl.
  - rewrite app_nil_r. exact H.
  - replace (seen ++ m :: ms) with ((seen ++ [m]) ++ ms) by (rewrite <- app_assoc; reflexivity).
    apply IH, chrono_step_inv, H.
Qed.

Lemma chrono_groups_spec (ms : list MonthResult) :
  concat (map group_months (chrono_groups ms)) = ms /\ Forall group_ok (chrono_groups ms).
Proof.
  unfold chrono_groups.
  assert (H0 : chrono_inv ([], None) []) by (split; [reflexivity | split; [constructor | exact I]]).
  pose proof (chrono_fold_inv ms ([], None) [] H0) as H.
  destruct (fold_left chrono_step ms ([], None)) as [groups run].
  destruct H as [Hs [Hg Hr]]; simpl in *.
  destruct run as [[sw xs]|]; simpl in *.
  - rewrite map_app, concat_app; simpl. rewrite app_nil_r.
    split; [exact Hs | apply Forall_app; split; [exact Hg | constructor; [exact Hr | constructor]]].
  - rewrite app_nil_r in Hs. split; [exact Hs | exact Hg].
Qed.

Lemma tally_sweeps entries a b c d :
  (fold_left tally_step entries (a, b, c, d)).2 =
    d + Z.of_nat (length (List.filter isSweep entries)).
Proof.
  revert a b c d. induction entries as [|m es IH]; intros a b c d; simpl.
  - lia.
  - destruct (winner m); rewrite IH; destruct (isSweep m); simpl; lia.
Qed.

(** C5 (amended): a month is a sweep exactly when its winner is not "tie",
    it has no metric ties and one of the two scores is zero, i.e. one side
    won every compared metric; the chronological view splits the months
    into groups that keep every month once and in order, where each sweep
    group holds only sweep months of the same sweeper and each single
    group a non-sweep month, and the calendar-month view counts exactly
    the sweep months of each bucket. *)
Theorem isSweep_grouping :
  (forall m : MonthResult,
     isSweep m = true <->
     winner m <> WTie /\ metric_ties m = 0 /\ (loc1_score m = 0 \/ loc2_score m = 0)) /\
  (forall ms : list MonthResult,
     concat (map group_months (chrono_groups ms)) = ms /\ Forall group_ok (chrono_groups ms)) /\
  (forall (idx : Z) (entries : list MonthResult),
     mg_sweepCount (month_group idx entries) = Z.of_nat (length (List.filter isSweep entries))).
Proof.
  split; [exact isSweep_true_iff|]. split; [exact chrono_groups_spec|].
  intros idx entries. unfold month_group.
  pose proof (tally_sweeps entries 0 0 0 0) as H.
  destruct (fold_left tally_step entries (0, 0, 0, 0)) as [[[l1 l2] t] sw].
  simpl in *. lia.
Qed.

(** The legacy app.js test has no metric-ties condition. *)
Lemma legacyIsSweep_month_3_0_7 : legacyIsSweep month_3_0_7 = true.
Proof. reflexivity. Qed.

(** ** Rows of the per-month table *)

Lemma label_row d1 l d2 hw n1 n2 nm : label (row d1 l d2 hw n1 n2 nm) = l.
Proof.
  unfold row. destruct (negb nm && negb (n1 =? n2)), hw, (n2 <? n1), (n1 <? n2); reflexivity.
Qed.

Lemma existsb_opt_row (f : Row -> bool) b r : existsb f (opt_row b r) = b && f r.
Proof. destruct b; simpl; [apply orb_false_r | reflexivity]. Qed.

Lemma find_app {A} (f : A -> bool) (l1 l2 : list A) :
  find f (l1 ++ l2) = match find f l1 with Some x => Some x | None => find f l2 end.
Proof. induction l1 as [|x l1 IH]; simpl; [reflexivity|]. destruct (f x); [reflexivity | exact IH]. Qed.

Lemma find_opt_row (f : Row -> bool) b r :
  find f (opt_row b r) = if b && f r then Some r else None.
Proof. destruct b; simpl; [destruct (f r); reflexivity | reflexivity]. Qed.

(** Which labels are present, for every label other than the two rows
    that depend on nullable values. *)
Lemma row_present_compRows (lbl : string) m1 m2 h d :
  lbl <> "Daylight" -> lbl <> "Avg sunset" ->
  row_present lbl (compRows m1 m2 h d) =
    (negb (has h "sunshine_hours") && String.eqb "Sunshine" lbl) ||
    (negb (has h "rainy_days") && String.eqb "Rainy days" lbl) ||
    (negb (has h "overcast_days") && String.eqb "Overcast days" lbl) ||
    (negb (has h "cozy_overcast_days") &&
       ((0 <? cnt (cozy_overcast_days m1)) || (0 <? cnt (cozy_overcast_days m2))) &&
       String.eqb "Cozy overcast" lbl) ||
    (negb (has h "snow_days") &&
       ((0 <? cnt (snow_days m1)) || (0 <? cnt (snow_days m2))) && String.eqb "Snow days" lbl) ||
    (negb (has h "freezing_days") &&
       ((0 <? cnt (freezing_days m1)) || (0 <? cnt (freezing_days m2))) &&
       String.eqb "Freezing days" lbl) ||
    (negb (has h "hot_days") &&
       ((0 <? cnt (hot_days m1)) || (0 <? cnt (hot_days m2))) && String.eqb "Hot days (90+)" lbl) ||
    (negb (has h "sticky_days") &&
       ((0 <? cnt (sticky_days m1)) || (0 <? cnt (sticky_days m2))) &&
       String.eqb "Sticky days (100+)" lbl) ||
    String.eqb "Avg H / L" lbl.
Proof.
  intros Hd Hs. unfold row_present, compRows.
  rewrite !existsb_app, !existsb_opt_row. cbv beta. rewrite !label_row.
  assert (Ed : String.eqb "Daylight" lbl = false) by (apply String.eqb_neq; congruence).
  assert (Es : String.eqb "Avg sunset" lbl = false) by (apply String.eqb_neq; congruence).
  destruct (has h "avg_daylight_hours"), (avg_daylight_hours m1), (avg_daylight_hours m2);
  destruct (has h "avg_sunset_min"), (avg_sunset_min m1), (avg_sunset_min m2);
  cbn [existsb]; rewrite ?label_row, ?Ed, ?Es, ?orb_false_r, ?orb_false_l, ?orb_assoc;
  reflexivity.
Qed.

(** Evaluate [String.eqb] on two literals. *)
Ltac eqb_lits :=
  repeat match goal with
  | |- context [String.eqb ?a ?b] =>
      let v := eval vm_compute in (String.eqb a b) in
      match v with
      | true => change (String.eqb a b) with true
      | false => change (String.eqb a b) with false
      end
  end.

Lemma pos_either (a b : N) :
  (0 <? cnt a) || (0 <? cnt b) = negb ((a =? 0)%N && (b =? 0)%N).
Proof. destruct a, b; reflexivity. Qed.

Ltac bool_simpl :=
  repeat (rewrite ?andb_false_r, ?andb_true_r, ?andb_false_l, ?andb_true_l,
                  ?orb_false_l, ?orb_false_r, ?orb_true_l, ?orb_true_r; cbn [negb]).

(** ** C8 *)

(** C8: in the per-month table of comparison.js, each activity metric
    (snow, freezing, hot, sticky, cozy overcast days) that is not hidden
    gets its row exactly when the two locations' values are not both zero,
    while the sunshine, rainy-days and overcast-days rows are rendered,
    when not hidden, whatever their values. *)
Theorem compRows_activity_rows (m1 m2 : MonthlyMetrics) (h d : list string) :
  (has h "snow_days" = false ->
   row_present "Snow days" (compRows m1 m2 h d) =
     negb ((snow_days m1 =? 0)%N && (snow_days m2 =? 0)%N)) /\
  (has h "freezing_days" = false ->
   row_present "Freezing days" (compRows m1 m2 h d) =
     negb ((freezing_days m1 =? 0)%N && (freezing_days m2 =? 0)%N)) /\
  (has h "hot_days" = false ->
   row_present "Hot days (90+)" (compRows m1 m2 h d) =
     negb ((hot_days m1 =? 0)%N && (hot_days m2 =? 0)%N)) /\
  (has h "sticky_days" = false ->
   row_present "Sticky days (100+)" (compRows m1 m2 h d) =
     negb ((sticky_days m1 =? 0)%N && (sticky_days m2 =? 0)%N)) /\
  (has h "cozy_overcast_days" = false ->
   row_present "Cozy overcast" (compRows m1 m2 h d) =
     negb ((cozy_overcast_days m1 =? 0)%N && (cozy_overcast_days m2 =? 0)%N)) /\
  (has h "sunshine_hours" = false -> row_present "Sunshine" (compRows m1 m2 h d) = true) /\
  (has h "rainy_days" = false -> row_present "Rainy days" (compRows m1 m2 h d) = true) /\
  (has h "overcast_days" = false -> row_present "Overcast days" (compRows m1 m2 h d) = true).
Proof.
  repeat split; intros Hh;
    rewrite row_present_compRows by discriminate; eqb_lits; rewrite Hh; bool_simpl;
    rewrite ?pos_either; reflexivity.
Qed.

Lemma compRows_activity_rows_witness :
  has [] "snow_days" = false /\
  row_present "Snow days" (compRows snowy zero_metrics [] []) = true.
Proof.
  split; [reflexivity|].
  destruct (compRows_activity_rows snowy zero_metrics [] []) as [Hs _].
  rewrite (Hs eq_refl). reflexivity.
Defined.

(** ** C2 *)

Lemma sunset_marks (s1 s2 : Z) (d1 d2 : string) (nm : bool) :
  let sDiff := Z.abs (s1 - s2) in
  let r := row d1 "Avg sunset" d2 true (if 10 <? sDiff then s1 else 0)
                (if 10 <? sDiff then s2 else 0) nm in
  if nm then mark1 r = "" /\ mark2 r = ""
  else mark1 r = (if 10 <? s1 - s2 then W +++ " " else "") /\
       mark2 r = (if 10 <? s2 - s1 then " " +++ W else "").
Proof.
  cbv zeta. unfold row.
  destruct nm; simpl; [split; reflexivity|].
  destruct (10 <? Z.abs (s1 - s2)) eqn:E.
  - apply Z.ltb_lt in E.
    destruct (s1 =? s2) eqn:Eq; [apply Z.eqb_eq in Eq; lia|]. simpl.
    destruct (s2 <? s1) eqn:Lt; simpl.
    + apply Z.ltb_lt in Lt.
      replace (10 <? s1 - s2) with true by (symmetry; apply Z.ltb_lt; lia).
      replace (10 <? s2 - s1) with false by (symmetry; apply Z.ltb_ge; lia).
      split; reflexivity.
    + apply Z.ltb_ge in Lt.
      replace (10 <? s1 - s2) with false by (symmetry; apply Z.ltb_ge; lia).
      replace (10 <? s2 - s1) with true by (symmetry; apply Z.ltb_lt; lia).
      split; reflexivity.
  - apply Z.ltb_ge in E. simpl.
    replace (10 <? s1 - s2) with false by (symmetry; apply Z.ltb_ge; lia).
    replace (10 <? s2 - s1) with false by (symmetry; apply Z.ltb_ge; lia).
    split; reflexivity.
Qed.

Lemma find_sunset_row m1 m2 h d s1 s2 :
  avg_sunset_min m1 = Some s1 -> avg_sunset_min m2 = Some s2 ->
  has h "avg_sunset_min" = false ->
  find_row "Avg sunset" (compRows m1 m2 h d) =
    Some (let sDiff := Z.abs (s1 - s2) in
          row (minutesToTime s1) "Avg sunset" (minutesToTime s2) true
              (if 10 <? sDiff then s1 else 0) (if 10 <? sDiff then s2 else 0)
              (has d "avg_sunset_min")).
Proof.
  intros H1 H2 Hh. unfold find_row, compRows. rewrite H1, H2, Hh.
  rewrite !find_app, find_opt_row. cbv beta. rewrite label_row. eqb_lits. bool_simpl.
  destruct (has h "avg_daylight_hours"), (avg_daylight_hours m1), (avg_daylight_hours m2);
    cbn [find]; rewrite ?label_row; eqb_lits; reflexivity.
Qed.

(** C2 refuted: with [avg_sunset_min] configured display-only, a 25-minute
    difference (1120 vs 1095) marks neither side. *)
Lemma sunset_display_only_no_mark :
  exists r, find_row "Avg sunset"
              (compRows (sunset_metrics 1120) (sunset_metrics 1095) [] ["avg_sunset_min"]) = Some r /\
            mark1 r = "" /\ mark2 r = "".
Proof. eexists. split; [reflexivity | split; reflexivity]. Qed.

(** C2 (amended): in comparison.js, when [avg_sunset_min] is neither hidden
    nor display-only and both sides are non-null, loc1 is marked exactly
    when [loc1 - loc2 > 10] and loc2 exactly when [loc2 - loc1 > 10];
    a difference of 10 minutes or less (10 included) marks neither side.
    When the metric is display-only, neither side is ever marked. *)
Theorem sunset_row_threshold (m1 m2 : MonthlyMetrics) (h d : list string) (s1 s2 : Z)
    (H1 : avg_sunset_min m1 = Some s1) (H2 : avg_sunset_min m2 = Some s2)
    (Hh : has h "avg_sunset_min" = false) :
  exists r, find_row "Avg sunset" (compRows m1 m2 h d) = Some r /\
    (if has d "avg_sunset_min" then mark1 r = "" /\ mark2 r = ""
     else mark1 r = (if 10 <? s1 - s2 then W +++ " " else "") /\
          mark2 r = (if 10 <? s2 - s1 then " " +++ W else "")).
Proof.
  rewrite (find_sunset_row m1 m2 h d s1 s2 H1 H2 Hh).
  eexists. split; [reflexivity|].
  apply (sunset_marks s1 s2 (minutesToTime s1) (minutesToTime s2) (has d "avg_sunset_min")).
Qed.

Lemma sunset_row_threshold_witness :
  (avg_sunset_min (sunset_metrics 1120) = Some 1120 /\
   avg_sunset_min (sunset_metrics 1095) = Some 1095 /\
   has [] "avg_sunset_min" = false) /\
  exists r, find_row "Avg sunset" (compRows (sunset_metrics 1120) (sunset_metrics 1095) [] []) = Some r /\
    (if has [] "avg_sunset_min" then mark1 r = "" /\ mark2 r = ""
     else mark1 r = (if 10 <? 1120 - 1095 then W +++ " " else "") /\
          mark2 r = (if 10 <? 1095 - 1120 then " " +++ W else "")).
Proof.
  split; [split; [reflexivity | split; reflexivity]|].
  exact (sunset_row_threshold (sunset_metrics 1120) (sunset_metrics 1095) [] [] 1120 1095
           eq_refl eq_refl eq_refl).
Defined.

(** The legacy app.js table marks a difference of exactly 10 minutes
    ([sDiff >= 10]): 1105 against 1095 marks loc1. *)
Lemma legacy_sunset_marks_at_10 :
  exists r, find_row "Avg sunset" (legacyCompRows (sunset_metrics 1105) (sunset_metrics 1095)) = Some r /\
            mark1 r = W +++ " ".
Proof. eexists. split; reflexivity. Qed.

Lemma module_sunset_no_mark_at_10 :
  exists r, find_row "Avg sunset" (compRows (sunset_metrics 1105) (sunset_metrics 1095) [] []) = Some r /\
            mark1 r = "" /\ mark2 r = "".
Proof. eexists. split; [reflexivity | split; reflexivity]. Qed.

(** ** C1 *)

Lemma tally_vote_fold (vs : list (option Vote)) (a b c : Z) :
  let '(x, y, z) := fold_left tally_vote vs (a, b, c) in
  x + y + z = a + b + c + Z.of_nat (length (List.filter (fun v => match v with Some _ => true | None => false end) vs)).
Proof.
  revert a b c. induction vs as [|v vs IH]; intros a b c; simpl.
  - lia.
  - destruct v as [[| |]|]; simpl;
      match goal with |- context [fold_left tally_vote vs ?st] =>
        destruct st as [[a' b'] c'] eqn:Est end;
      specialize (IH a' b' c');
      destruct (fold_left tally_vote vs (a', b', c')) as [[x y] z];
      injection Est as <- <- <-; simpl; lia.
Qed.

Lemma metric_vote_some (k : string) (m1 m2 : MonthlyMetrics) :
  match metric_vote k m1 m2 with Some _ => true | None => false end = compared m1 m2 k.
Proof.
  unfold metric_vote, compared.
  destruct (metric_value m1 k), (metric_value m2 k); [|reflexivity..].
  destruct (String.eqb k "avg_sunset_min"); [reflexivity|].
  destruct (z =? z0); [reflexivity|]. destruct (higher_is_better k); reflexivity.
Qed.

Lemma count_votes (ks : list string) (m1 m2 : MonthlyMetrics) :
  length (List.filter (fun v => match v with Some _ => true | None => false end)
            (map (fun k => metric_vote k m1 m2) ks)) =
  length (List.filter (compared m1 m2) ks).
Proof.
  induction ks as [|k ks IH]; simpl; [reflexivity|].
  rewrite metric_vote_some. destruct (compared m1 m2 k); simpl; congruence.
Qed.

(** C1 (the Month Scorer is modelled from the spec): for every MonthResult
    the scorer produces, [loc1_score + loc2_score + metric_ties] is the
    number of scored metrics (not hidden, not display-only) whose values
    are non-null on both sides; a metric null on either side casts no vote
    and so adds to none of the three counters. *)
Theorem score_month_tally (mo : string) (m1 m2 : MonthlyMetrics) (hidden display : list string) :
  let r := score_month mo m1 m2 hidden display in
  loc1_score r + loc2_score r + metric_ties r =
    Z.of_nat (length (List.filter (compared m1 m2) (scored_set hidden display))) /\
  (forall k, compared m1 m2 k = false -> metric_vote k m1 m2 = None).
Proof.
  split.
  - unfold score_month.
    pose proof (tally_vote_fold (map (fun k => metric_vote k m1 m2) (scored_set hidden display)) 0 0 0) as H.
    destruct (fold_left tally_vote _ (0, 0, 0)) as [[s1 s2] t]. simpl.
    rewrite count_votes in H. lia.
  - intros k Hk. pose proof (metric_vote_some k m1 m2) as H. rewrite Hk in H.
    destruct (metric_vote k m1 m2); [discriminate | reflexivity].
Qed.

(** The spec's example scenario: loc1 wins rainy days and sunshine. *)
Example score_month_example :
  let a := mkMetrics 200 5 0 0 0 0 0 0 None None None None in
  let b := mkMetrics 150 10 0 0 0 0 0 0 None None None None in
  let r := score_month "2024-03" a b [] ["overcast_days"; "cozy_overcast_days"; "snow_days";
                                          "freezing_days"; "hot_days"; "sticky_days"] in
  (loc1_score r, loc2_score r, metric_ties r, winner r) = (2, 0, 0, WLoc1).
Proof. reflexivity. Qed.

(** ** C9: the two display groupings do not touch [data.months] *)

Lemma frame_ret {A} n (a : A) (P : A -> Prop) : P a -> frame n (hret a) P.
Proof. intros Ha h Hn. unfold hret; simpl. repeat split; auto. intros a' [= <-]. exact Ha. Qed.

Lemma frame_fail {A} n (P : A -> Prop) : frame n hfail P.
Proof. intros h Hn. unfold hfail; simpl. repeat split; auto. discriminate. Qed.

Lemma frame_bind {A B} n (c : HM A) (k : A -> HM B) P Q :
  frame n c P -> (forall a, P a -> frame n (k a) Q) -> frame n (hbind c k) Q.
Proof.
  intros Hc Hk h Hn. unfold hbind.
  destruct (Hc h Hn) as [Hn1 [Hf1 Hp1]].
  destruct (c h) as [[a|] h1] eqn:E; simpl in *.
  - destruct (Hk a (Hp1 a eq_refl) h1 Hn1) as [Hn2 [Hf2 Hp2]].
    repeat split; auto. intros l Hl. rewrite Hf2 by exact Hl. apply Hf1, Hl.
  - repeat split; auto. discriminate.
Qed.

Lemma frame_weaken {A} n (c : HM A) (P Q : A -> Prop) :
  frame n c P -> (forall a, P a -> Q a) -> frame n c Q.
Proof. intros Hc HPQ h Hn. destruct (Hc h Hn) as [? [? ?]]. repeat split; auto. Qed.

Lemma frame_alloc n xs : frame n (alloc xs) (fun a => (n <= a)%nat).
Proof.
  intros h Hn. unfold alloc; simpl. rewrite length_app; simpl.
  repeat split; [lia | | ].
  - intros l Hl. apply lookup_app_l. lia.
  - intros a [= <-]. exact Hn.
Qed.

Lemma frame_load n a : frame n (load a) (fun _ => True).
Proof. intros h Hn. unfold load; simpl. repeat split; auto. Qed.

Lemma frame_store n a xs : (n <= a)%nat -> frame n (store a xs) (fun _ => True).
Proof.
  intros Ha h Hn. unfold store; simpl. rewrite length_insert.
  repeat split; auto. intros l Hl. apply list_lookup_insert_ne. lia.
Qed.

Lemma frame_push n a x : (n <= a)%nat -> frame n (push a x) (fun _ => True).
Proof.
  intros Ha. unfold push. eapply frame_bind; [apply frame_load|].
  intros xs _. apply frame_store, Ha.
Qed.

Lemma frame_reverse n a : (n <= a)%nat -> frame n (reverse_in_place a) (fun _ => True).
Proof.
  intros Ha. unfold reverse_in_place. eapply frame_bind; [apply frame_load|].
  intros xs _. apply frame_store, Ha.
Qed.

Lemma frame_sort n a : (n <= a)%nat -> frame n (sort_in_place_desc a) (fun _ => True).
Proof.
  intros Ha. unfold sort_in_place_desc. eapply frame_bind; [apply frame_load|].
  intros xs _. apply frame_store, Ha.
Qed.

Lemma frame_forM {A} n (xs : list A) (f : A -> HM unit) :
  (forall x, frame n (f x) (fun _ => True)) -> frame n (hforM xs f) (fun _ => True).
Proof.
  intros Hf. induction xs as [|x xs IH]; simpl.
  - apply frame_ret. exact I.
  - eapply frame_bind; [apply Hf|]. intros _ _. exact IH.
Qed.

Lemma frame_alloc_buckets n k :
  frame n (alloc_buckets k) (fun bs => Forall (fun a => (n <= a)%nat) bs).
Proof.
  induction k as [|k IH]; simpl.
  - apply frame_ret. constructor.
  - eapply frame_bind; [apply frame_alloc|]. intros a Ha.
    eapply frame_bind; [exact IH|]. intros rest Hr.
    apply frame_ret. constructor; assumption.
Qed.

Lemma bucket_at_fresh n bs i a :
  Forall (fun a => (n <= a)%nat) bs -> bucket_at bs i = Some a -> (n <= a)%nat.
Proof.
  unfold bucket_at. intros Hf Hb.
  destruct ((0 <=? i) && (i <? Z.of_nat (length bs))); [|discriminate].
  apply nth_error_In in Hb. rewrite List.Forall_forall in Hf. exact (Hf a Hb).
Qed.

Lemma frame_month_groups_loop n curMonth bs is :
  Forall (fun a => (n <= a)%nat) bs ->
  frame n (month_groups_loop curMonth bs is) (fun _ => True).
Proof.
  intros Hbs. induction is as [|i is IH]; simpl.
  - apply frame_ret. exact I.
  - destruct (bucket_at bs (Z.rem (curMonth + i) 12)) as [a|] eqn:Eb; [|apply frame_fail].
    pose proof (bucket_at_fresh n bs _ a Hbs Eb) as Ha.
    eapply frame_bind; [apply frame_load|]. intros entries _.
    destruct entries as [|e es]; [exact IH|].
    eapply frame_bind; [apply frame_sort, Ha|]. intros _ _.
    eapply frame_bind; [apply frame_load|]. intros entries' _.
    eapply frame_bind; [exact IH|]. intros rest _.
    apply frame_ret. exact I.
Qed.

Lemma renderChronoMonths_frame n data : frame n (renderChronoMonths data) (fun _ => True).
Proof.
  unfold renderChronoMonths.
  eapply frame_bind.
  - eapply frame_bind; [apply frame_load|]. intros xs _. apply frame_alloc.
  - intros copy Hc.
    eapply frame_bind; [apply frame_reverse, Hc|]. intros _ _.
    eapply frame_bind; [apply frame_load|]. intros ms _.
    apply frame_ret. exact I.
Qed.

Lemma renderMonthlyGroups_frame n curMonth data :
  frame n (renderMonthlyGroups curMonth data) (fun _ => True).
Proof.
  unfold renderMonthlyGroups.
  eapply frame_bind; [apply frame_alloc_buckets|]. intros bs Hbs.
  eapply frame_bind; [apply frame_load|]. intros ms _.
  eapply frame_bind.
  - apply frame_forM. intros m.
    destruct (month_index m) as [i|]; [|apply frame_fail].
    destruct (bucket_at bs i) as [a|] eqn:Eb; [|apply frame_fail].
    apply frame_push. exact (bucket_at_fresh n bs i a Hbs Eb).
  - intros _ _. apply frame_month_groups_loop, Hbs.
Qed.

(** C9: rendering the chronological view or the calendar-month view leaves
    the array [data.months] as it was, on success and on failure alike:
    the reversal works on the copy [[...data.months]] and the sort on
    freshly allocated buckets. *)
Theorem display_groupings_read_only (data : CompData) (curMonth : Z) (h : heap)
    (Hdata : (data_months data < length h)%nat) :
  (renderChronoMonths data h).2 !! data_months data = h !! data_months data /\
  (renderMonthlyGroups curMonth data h).2 !! data_months data = h !! data_months data.
Proof.
  split.
  - destruct (renderChronoMonths_frame (length h) data h (le_n _)) as [_ [Hf _]].
    apply Hf, Hdata.
  - destruct (renderMonthlyGroups_frame (length h) curMonth data h (le_n _)) as [_ [Hf _]].
    apply Hf, Hdata.
Qed.

Lemma display_groupings_read_only_witness :
  (data_months sample_data < length [sample_months])%nat /\
  ((renderChronoMonths sample_data [sample_months]).2 !! data_months sample_data =
     [sample_months] !! data_months sample_data /\
   (renderMonthlyGroups 9 sample_data [sample_months]).2 !! data_months sample_data =
     [sample_months] !! data_months sample_data).
Proof.
  split; [simpl; lia|].
  apply (display_groupings_read_only sample_data 9 [sample_months]). simpl. lia.
Defined.

(** Both views do mutate the heap: the copy is reversed in place. *)
Example renderChronoMonths_reverses_copy :
  (renderChronoMonths sample_data [sample_months]).2 = [sample_months; rev sample_months].
Proof. reflexivity. Qed.

(** ** C4 *)

Lemma renderComparisonView_miss (server : string -> option CompData) idx s c :
  comparisons s !! idx = Some c ->
  comparisonDataMap s !! compCacheKey c = None ->
  exists rest, trace (renderComparisonView server idx s) =
               trace s ++ [EGet (compCacheKey c); EFetch (comparisonUrl c)] ++ rest.
Proof.
  intros Hc Hm. unfold renderComparisonView, emit. rewrite Hc.
  cbn [comparisonDataMap trace showingComparisonIdx]. rewrite Hm.
  destruct (server (comparisonUrl c)) as [data|];
    cbn [comparisonDataMap trace showingComparisonIdx];
    [destruct (Z.eqb _ _); cbn [trace]|].
  - exists [ESet (compCacheKey c); ERender idx]. rewrite <- ?app_assoc. reflexivity.
  - exists [ESet (compCacheKey c)]. rewrite <- ?app_assoc. reflexivity.
  - exists []. rewrite <- ?app_assoc. reflexivity.
Qed.

(** C4: a click on a metric row of the comparison settings deletes the
    cache entry stored under the old configuration's key, then assigns the
    new [hidden_metrics] and [display_metrics] arrays, then saves the
    comparisons (in this order, with nothing in between); the handler then
    re-renders the comparison when it is on screen.  At the save the old
    key is no longer cached, and the view that follows misses the cache
    and fetches whenever the new key is not cached, in particular whenever
    the new key equals the old one. *)
Theorem toggle_invalidates_before_save (server : string -> option CompData)
    (ci i : nat) (s : AppState) (c : Comp) (metric : string) (cur : Mode)
    (Hc : comparisons s !! ci = Some c)
    (Hr : overlay_rows s !! i = Some (metric, cur)) :
  let s1 := toggle_update ci i s in
  (exists nh nd,
     trace s1 = trace s ++ [EDelete (compCacheKey c); EAssignHidden nh;
                            EAssignDisplay nd; ESave (comparisons s1)] /\
     comparisons s1 = <[ci := mkComp (loc1 c) (loc2 c) (Some nh) (Some nd)]> (comparisons s)) /\
  comparisonDataMap s1 = delete (compCacheKey c) (comparisonDataMap s) /\
  onMetricRowClick server ci i s =
    (if Z.eqb (showingComparisonIdx s1) (Z.of_nat ci) then renderComparisonView server ci s1 else s1) /\
  (forall c', comparisons s1 !! ci = Some c' ->
     (compCacheKey c' = compCacheKey c -> comparisonDataMap s1 !! compCacheKey c' = None) /\
     (comparisonDataMap s1 !! compCacheKey c' = None ->
      exists rest, trace (renderComparisonView server ci s1) =
                   trace s1 ++ [EGet (compCacheKey c'); EFetch (comparisonUrl c')] ++ rest)).
Proof.
  cbv zeta.
  assert (Hdel : comparisonDataMap (toggle_update ci i s) =
                 delete (compCacheKey c) (comparisonDataMap s)).
  { unfold toggle_update. rewrite Hc, Hr. reflexivity. }
  split; [|split; [exact Hdel | split]].
  - unfold toggle_update, emit. rewrite Hc, Hr. cbn [trace comparisons].
    eexists; eexists. split; [|reflexivity].
    rewrite <- !app_assoc. reflexivity.
  - unfold onMetricRowClick. rewrite Hc, Hr. reflexivity.
  - intros c' Hc'. split.
    + intros Hk. rewrite Hdel, Hk. apply lookup_delete_eq.
    + intros Hm. exact (renderComparisonView_miss server ci _ c' Hc' Hm).
Qed.

Lemma toggle_invalidates_before_save_witness :
  (comparisons sample_state !! 0%nat = Some (sample_comp None None) /\
   overlay_rows sample_state !! 4%nat = Some ("snow_days", Scored)) /\
  comparisonDataMap (toggle_update 0 4 sample_state) =
    delete (compCacheKey (sample_comp None None)) (comparisonDataMap sample_state).
Proof.
  split; [split; reflexivity|].
  destruct (toggle_invalidates_before_save (fun _ => Some sample_data) 0 4 sample_state
              (sample_comp None None) "snow_days" Scored eq_refl eq_refl) as [_ [H _]].
  exact H.
Defined.

(** After the toggle, the comparison is re-rendered from a fresh fetch. *)
Example toggle_then_fetch :
  trace (onMetricRowClick (fun _ => Some sample_data) 0 4 sample_state) =
  [EDelete "34,-118|40,-74";
   EAssignHidden []; EAssignDisplay ["snow_days"];
   ESave [mkComp (mkLoc 40 (-74)) (mkLoc 34 (-118)) (Some []) (Some ["snow_days"])];
   EGet "34,-118|40,-74#snow_days";
   EFetch "/api/comparison?lat1=40&lon1=-74&lat2=34&lon2=-118&hidden=snow_days";
   ESet "34,-118|40,-74#snow_days"; ERender 0].
Proof. vm_compute. reflexivity. Qed.

(* ================================================================== *)
(** * Further properties of the client code *)

(* ------------------------------------------------------------------ *)
(** ** Cache keys: what an equal key implies *)

Lemma str_all_app p a b : str_all p (a +++ b) = str_all p a && str_all p b.
Proof. induction a as [|c a IH]; simpl; [reflexivity|]. rewrite IH, andb_assoc. reflexivity. Qed.

Lemma num_str_chars z : str_all num_char (num_str z) = true.
Proof.
  unfold num_str.
  assert (Hu : forall u, str_all num_char (NilEmpty.string_of_uint u) = true).
  { induction u; simpl; try rewrite IHu; reflexivity. }
  destruct (Z.to_int z) as [u|u]; simpl; unfold NilZero.string_of_uint;
    destruct u; try reflexivity; simpl; rewrite Hu; reflexivity.
Qed.

Lemma num_str_dec z : option_map Z.of_int (NilZero.int_of_string (num_str z)) = Some z.
Proof.
  unfold num_str. rewrite NilZero.isi.
  - simpl. rewrite DecimalZ.of_to. reflexivity.
  - destruct z; simpl; [discriminate| |discriminate].
    unfold Pos.to_int. intros [=]. 
    pose proof (DecimalPos.Unsigned.to_uint_nonnil p) ; congruence.
  - destruct z; simpl; [discriminate|discriminate|].
    intros [=]. pose proof (DecimalPos.Unsigned.to_uint_nonnil p); congruence.
Qed.

Lemma num_str_inj a b : num_str a = num_str b -> a = b.
Proof. intros H. pose proof (num_str_dec a) as Ha. rewrite H, num_str_dec in Ha. congruence. Qed.

Lemma split_on_lacks c a : lacks c a = true -> split_on c a = (a, None).
Proof.
  induction a as [|x a IH]; simpl; [reflexivity|]. intros H.
  apply andb_true_iff in H as [Hx Ha]. apply negb_true_iff in Hx. rewrite Hx, IH by exact Ha. reflexivity.
Qed.

Lemma split_on_app c a b : lacks c a = true -> split_on c (a +++ String c b) = (a, Some b).
Proof.
  induction a as [|x a IH]; simpl; intros H.
  - rewrite Ascii.eqb_refl. reflexivity.
  - apply andb_true_iff in H as [Hx Ha]. apply negb_true_iff in Hx. rewrite Hx, IH by exact Ha. reflexivity.
Qed.

Lemma lacks_app c a b : lacks c (a +++ b) = lacks c a && lacks c b.
Proof. apply str_all_app. Qed.

Lemma num_str_lacks c z : num_char c = false -> lacks c (num_str z) = true.
Proof.
  intros Hc. pose proof (num_str_chars z) as H. unfold lacks.
  induction (num_str z) as [|x s IH]; simpl in *; [reflexivity|].
  apply andb_true_iff in H as [Hx Hs]. rewrite IH by exact Hs.
  destruct (Ascii.eqb x c) eqn:E; [|reflexivity].
  apply Ascii.eqb_eq in E. subst. congruence.
Qed.

(** The key of one location, ["lat,lon"]. *)

Lemma loc_str_inj a b : loc_str a = loc_str b -> a = b.
Proof.
  unfold loc_str. intros H.
  assert (Ha := split_on_app "," (num_str (lat a)) (num_str (lon a)) (num_str_lacks "," _ eq_refl)).
  assert (Hb := split_on_app "," (num_str (lat b)) (num_str (lon b)) (num_str_lacks "," _ eq_refl)).
  change ("," +++ num_str (lon a)) with (String "," (num_str (lon a))) in H.
  change ("," +++ num_str (lon b)) with (String "," (num_str (lon b))) in H.
  rewrite H in Ha. rewrite Ha in Hb. injection Hb as H1 H2.
  destruct a, b; simpl in *. f_equal; apply num_str_inj; congruence.
Qed.

Lemma loc_str_lacks c l : num_char c = false -> Ascii.eqb c "," = false -> lacks c (loc_str l) = true.
Proof.
  intros Hc Hcomma. unfold loc_str. rewrite !lacks_app, !num_str_lacks by exact Hc.
  unfold lacks; cbn [str_all]. rewrite (Ascii.eqb_sym ","), Hcomma. reflexivity.
Qed.

Lemma js_sort_two a b : js_sort [a; b] = [a; b] \/ js_sort [a; b] = [b; a].
Proof.
  apply Permutation_length_2_inv. unfold js_sort. symmetry. apply merge_sort_Permutation.
Qed.

Lemma comparisonKey_cases c :
  comparisonKey c = loc_str (loc1 c) +++ "|" +++ loc_str (loc2 c) \/
  comparisonKey c = loc_str (loc2 c) +++ "|" +++ loc_str (loc1 c).
Proof.
  unfold comparisonKey. fold (loc_str (loc1 c)). fold (loc_str (loc2 c)).
  destruct (js_sort_two (loc_str (loc1 c)) (loc_str (loc2 c))) as [E|E]; rewrite E; [left|right]; reflexivity.
Qed.

Lemma split_key x y : lacks "|" x = true -> split_on "|" (x +++ "|" +++ y) = (x, Some y).
Proof. intros H. apply split_on_app, H. Qed.

Lemma comparisonKey_inj c c' :
  comparisonKey c = comparisonKey c' <->
  (loc1 c = loc1 c' /\ loc2 c = loc2 c') \/ (loc1 c = loc2 c' /\ loc2 c = loc1 c').
Proof.
  split.
  - intros H.
    assert (L : forall l, lacks "|" (loc_str l) = true) by (intros; apply loc_str_lacks; reflexivity).
    destruct (comparisonKey_cases c) as [E|E], (comparisonKey_cases c') as [E'|E'];
      rewrite E, E' in H;
      match type of H with ?x +++ "|" +++ ?y = ?u +++ "|" +++ ?v =>
        pose proof (split_key x y (L _)) as S1; pose proof (split_key u v (L _)) as S2;
        rewrite H in S1; rewrite S1 in S2; injection S2 as S3 S4 end;
      apply loc_str_inj in S3; apply loc_str_inj in S4; subst; auto.
  - intros [[H1 H2]|[H1 H2]].
    + unfold comparisonKey. rewrite H1, H2. reflexivity.
    + unfold comparisonKey. rewrite H1, H2. f_equal. apply js_sort_perm, Permutation_swap.
Qed.

Lemma split_join_cons x rest :
  lacks "," x = true ->
  split_on "," (join "," (x :: rest)) = (x, match rest with [] => None | _ => Some (join "," rest) end).
Proof.
  intros Hx. destruct rest as [|y r].
  - simpl. apply split_on_lacks, Hx.
  - change (join "," (x :: y :: r)) with (x +++ String "," (join "," (y :: r))).
    apply split_on_app, Hx.
Qed.

Lemma join_nonempty x rest : x <> "" -> join "," (x :: rest) <> "".
Proof.
  intros Hx. destruct rest as [|y r]; simpl; [exact Hx|].
  destruct x; [congruence | discriminate].
Qed.

Lemma join_inj l1 l2 :
  Forall metric_name_ok l1 -> Forall metric_name_ok l2 ->
  join "," l1 = join "," l2 -> l1 = l2.
Proof.
  revert l2. induction l1 as [|x r1 IH]; intros l2 H1 H2 E.
  - destruct l2 as [|y r2]; [reflexivity|].
    inversion H2 as [|? ? [Hy _] _]; subst. exfalso. apply (join_nonempty y r2 Hy). rewrite <- E. reflexivity.
  - destruct l2 as [|y r2].
    + inversion H1 as [|? ? [Hx _] _]; subst. exfalso. apply (join_nonempty x r1 Hx). exact E.
    + inversion H1 as [|? ? [Hx Hxc] Hr1]; inversion H2 as [|? ? [Hy Hyc] Hr2]; subst.
      pose proof (split_join_cons x r1 Hxc) as S1. pose proof (split_join_cons y r2 Hyc) as S2.
      rewrite E in S1. rewrite S1 in S2. injection S2 as -> S3. f_equal.
      destruct r1 as [|a r1], r2 as [|b r2]; try discriminate S3; [reflexivity|].
      injection S3 as S3. apply IH; assumption.
Qed.

Lemma comparisonKey_lacks_hash c : lacks "#" (comparisonKey c) = true.
Proof.
  destruct (comparisonKey_cases c) as [E|E]; rewrite E; rewrite !lacks_app;
    rewrite !loc_str_lacks by reflexivity; reflexivity.
Qed.

Lemma split_compCacheKey c :
  split_on "#" (compCacheKey c) =
    (comparisonKey c,
     let s := join "," (js_sort (notScoredList c)) in if truthy_str s then Some s else None).
Proof.
  unfold compCacheKey. cbv zeta.
  destruct (truthy_str (join "," (js_sort (notScoredList c)))).
  - apply split_on_app, comparisonKey_lacks_hash.
  - apply split_on_lacks, comparisonKey_lacks_hash.
Qed.

Lemma js_sort_Forall (P : string -> Prop) l : Forall P l -> Forall P (js_sort l).
Proof.
  intros H. unfold js_sort. apply List.Forall_forall. intros x Hx.
  rewrite List.Forall_forall in H. apply H.
  eapply Permutation_in; [apply (merge_sort_Permutation String.le) | exact Hx].
Qed.

Lemma join_empty l : Forall metric_name_ok l -> join "," l = "" -> l = [].
Proof. intros H E. destruct l as [|x r]; [reflexivity|]. inversion H as [|? ? [Hx _] _]; subst. exfalso. exact (join_nonempty x r Hx E). Qed.

Lemma truthy_str_false s : truthy_str s = false -> s = "".
Proof. destruct s; [reflexivity | discriminate]. Qed.

(** X1: If two comparisons whose metric names are non-empty and comma-free get the same cache key, they are over the same two locations, in the same or swapped order, and their hidden-plus-display metric lists are permutations of each other. *)
Theorem compCacheKey_sound c c' :
  Forall metric_name_ok (notScoredList c) -> Forall metric_name_ok (notScoredList c') ->
  compCacheKey c = compCacheKey c' ->
  ((loc1 c = loc1 c' /\ loc2 c = loc2 c') \/ (loc1 c = loc2 c' /\ loc2 c = loc1 c')) /\
  notScoredList c ≡ₚ notScoredList c'.
Proof.
  intros H1 H2 E.
  pose proof (split_compCacheKey c) as S1. pose proof (split_compCacheKey c') as S2.
  rewrite E in S1. rewrite S1 in S2. injection S2 as Hb Hn.
  split; [apply comparisonKey_inj, Hb|].
  assert (Hs : js_sort (notScoredList c) = js_sort (notScoredList c')).
  { apply js_sort_Forall in H1, H2.
    destruct (truthy_str (join "," (js_sort (notScoredList c)))) eqn:T1,
             (truthy_str (join "," (js_sort (notScoredList c')))) eqn:T2; try discriminate Hn.
    - injection Hn as Hn. apply join_inj; assumption.
    - apply truthy_str_false in T1, T2. rewrite (join_empty _ H1 T1), (join_empty _ H2 T2). reflexivity. }
  unfold js_sort in Hs.
  rewrite <- (merge_sort_Permutation String.le (notScoredList c)), Hs.
  apply merge_sort_Permutation.
Qed.

(* ------------------------------------------------------------------ *)
(** ** Settings: [loadSettings] and [rebuildCardOrderIfNeeded] (api.js) *)

Lemma has_In l k : has l k = true <-> In k l.
Proof.
  unfold has. rewrite existsb_exists. split.
  - intros [x [Hx E]]. apply String.eqb_eq in E. subst. exact Hx.
  - intros H. exists k. split; [exact H | apply String.eqb_refl].
Qed.

Lemma has_app l1 l2 k : has (l1 ++ l2) k = has l1 k || has l2 k.
Proof. apply existsb_app. Qed.

Lemma add_missing_spec ty keys ex ord ch :
  let '(ex', ord', ch') := add_missing ty keys ex ord ch in
  exists added, ord' = ord ++ added /\ ex' = ex ++ map ckey added /\
    Forall (fun c => ctype c = ty /\ In (ckey c) keys) added /\
    (forall k, In k keys -> In k ex \/ In (mkCard ty k) added) /\
    (ch' = false -> ch = false /\ added = []) /\
    Forall (fun c => ~ In (ckey c) ex) added.
Proof.
  revert ex ord ch. induction keys as [|k ks IH]; intros ex ord ch; simpl.
  - exists []. rewrite !app_nil_r. repeat split; auto.
  - destruct (has ex k) eqn:Hk.
    + specialize (IH ex ord ch). destruct (add_missing ty ks ex ord ch) as [[ex' ord'] ch'].
      destruct IH as [added [H1 [H2 [H3 [H4 [H5 H6]]]]]].
      exists added. split; [exact H1|]. split; [exact H2|]. split.
      * eapply List.Forall_impl; [|exact H3]. intros c [? ?]; split; auto.
      * split; [|split; [exact H5 | exact H6]].
        intros k' [<-|Hk']; [left; apply has_In, Hk | apply H4, Hk'].
    + specialize (IH (ex ++ [k]) (ord ++ [mkCard ty k]) true).
      destruct (add_missing ty ks _ _ true) as [[ex' ord'] ch'].
      destruct IH as [added [H1 [H2 [H3 [H4 [H5 H6]]]]]].
      exists (mkCard ty k :: added). split; [|split; [|split; [|split; [|split]]]].
      * rewrite H1, <- app_assoc. reflexivity.
      * rewrite H2, <- app_assoc. reflexivity.
      * constructor; [split; [reflexivity | left; reflexivity]|].
        eapply List.Forall_impl; [|exact H3]. intros c [? ?]; split; auto.
      * intros k' [<-|Hk']; [right; left; reflexivity|].
        destruct (H4 k' Hk') as [Hin|Hin].
        -- apply in_app_or in Hin as [Hin|[<-|[]]]; [left; exact Hin | right; left; reflexivity].
        -- right; right; exact Hin.
      * intros Hc. destruct (H5 Hc) as [? _]. discriminate.
      * constructor.
        -- simpl. intros Hin. apply has_In in Hin. congruence.
        -- eapply List.Forall_impl; [|exact H6]. intros c Hc Hin. apply Hc, in_or_app. left. exact Hin.
Qed.

Lemma add_missing_all_present ty keys ex ord ch :
  (forall k, In k keys -> In k ex) -> add_missing ty keys ex ord ch = (ex, ord, ch).
Proof.
  revert ex ord ch. induction keys as [|k ks IH]; intros ex ord ch H; simpl; [reflexivity|].
  replace (has ex k) with true by (symmetry; apply has_In, H; left; reflexivity).
  apply IH. intros k' Hk'. apply H. right. exact Hk'.
Qed.

Lemma filter_length_eq {A} (f : A -> bool) l : length (List.filter f l) = length l -> List.filter f l = l.
Proof.
  induction l as [|x l IH]; simpl; [reflexivity|]. destruct (f x).
  - simpl. intros [= H]. rewrite IH by exact H. reflexivity.
  - intros H. pose proof (List.filter_length_le f l). simpl in H. lia.
Qed.

Lemma lacks_bar_loc_key l : lacks "|" (loc_key l) = true.
Proof. apply (loc_str_lacks "|" (place_loc l)); reflexivity. Qed.

Lemma comp_key_has_bar c : lacks "|" (comp_key c) = false.
Proof.
  unfold comp_key. destruct (comparisonKey_cases (to_comp c)) as [E|E]; rewrite E, !lacks_app;
    simpl; rewrite andb_false_r; reflexivity.
Qed.

Lemma loc_key_ne_comp_key l c : loc_key l <> comp_key c.
Proof. intros E. pose proof (lacks_bar_loc_key l) as H. rewrite E, comp_key_has_bar in H. discriminate. Qed.

Lemma card_eta c : c = mkCard (ctype c) (ckey c).
Proof. destruct c; reflexivity. Qed.

Lemma card_valid_iff locs comps c :
  card_valid (map loc_key locs) (map comp_key comps) c = true <-> valid_card locs comps c.
Proof.
  unfold card_valid, valid_card. rewrite orb_true_iff, !andb_true_iff, !String.eqb_eq, !has_In.
  reflexivity.
Qed.

(** No card of the order carries [k] under another type than [ty]. *)

Lemma filter_all {A} (f : A -> bool) l : Forall (fun x => f x = true) l -> List.filter f l = l.
Proof. induction 1 as [|x l Hx _ IH]; simpl; [reflexivity|]. rewrite Hx, IH. reflexivity. Qed.

Lemma rebuild_order_spec locs comps order :
  let '(order', changed) := rebuild_order locs comps order in
  (forall c, In c order' -> valid_card locs comps c) /\
  (forall l, In l locs -> no_wrong_type order "loc" (loc_key l) ->
     In (mkCard "loc" (loc_key l)) order') /\
  (forall c, In c comps -> no_wrong_type order "comp" (comp_key c) ->
     In (mkCard "comp" (comp_key c)) order') /\
  (exists added, order' = List.filter (card_valid (map loc_key locs) (map comp_key comps)) order ++ added
     /\ Forall (valid_card locs comps) added) /\
  (changed = false -> order' = order).
Proof.
  unfold rebuild_order.
  pose proof (add_missing_spec "loc" (map loc_key locs) (map ckey order) order false) as S1.
  destruct (add_missing "loc" _ _ _ false) as [[ex1 ord1] ch1].
  destruct S1 as [A1 [E1 [Y1 [X1 [K1 [C1 _]]]]]].
  pose proof (add_missing_spec "comp" (map comp_key comps) ex1 ord1 ch1) as S2.
  destruct (add_missing "comp" _ _ _ _) as [[ex2 ord2] ch2].
  destruct S2 as [A2 [E2 [Y2 [X2 [K2 [C2 _]]]]]].
  set (f := card_valid (map loc_key locs) (map comp_key comps)).
  assert (V1 : Forall (valid_card locs comps) A1).
  { eapply List.Forall_impl; [|exact X1]. intros c [Ht Hk]. left. split; assumption. }
  assert (V2 : Forall (valid_card locs comps) A2).
  { eapply List.Forall_impl; [|exact X2]. intros c [Ht Hk]. right. split; assumption. }
  assert (VF : forall A, Forall (valid_card locs comps) A -> List.filter f A = A).
  { intros A HA. apply filter_all. eapply List.Forall_impl; [|exact HA].
    intros c Hc. apply card_valid_iff, Hc. }
  assert (Eo : List.filter f ord2 = List.filter f order ++ A1 ++ A2).
  { rewrite E2, E1, !List.filter_app, (VF A1 V1), (VF A2 V2), app_assoc. reflexivity. }
  rewrite Eo.
  split; [|split; [|split; [|split]]].
  - intros c Hc. apply in_app_or in Hc as [Hc|Hc].
    + apply List.filter_In in Hc as [_ Hc]. apply card_valid_iff, Hc.
    + rewrite List.Forall_forall in V1, V2. apply in_app_or in Hc as [Hc|Hc]; auto.
  - intros l Hl Hw. assert (Hk : In (loc_key l) (map loc_key locs)) by (apply in_map, Hl).
    destruct (K1 _ Hk) as [Hin|Hin].
    + apply in_map_iff in Hin as [c [Hck Hc]].
      apply in_or_app. left. apply List.filter_In. split.
      * pose proof (Hw c Hc Hck) as Ht. rewrite (card_eta c), Ht, Hck in Hc. exact Hc.
      * apply card_valid_iff. left. split; [reflexivity | exact Hk].
    + apply in_or_app. right. apply in_or_app. left. exact Hin.
  - intros c0 Hc0 Hw. assert (Hk : In (comp_key c0) (map comp_key comps)) by (apply in_map, Hc0).
    destruct (K2 _ Hk) as [Hin|Hin].
    + rewrite Y1 in Hin. apply in_app_or in Hin as [Hin|Hin].
      * apply in_map_iff in Hin as [c [Hck Hc]].
        apply in_or_app. left. apply List.filter_In. split.
        -- pose proof (Hw c Hc Hck) as Ht. rewrite (card_eta c), Ht, Hck in Hc. exact Hc.
        -- apply card_valid_iff. right. split; [reflexivity | exact Hk].
      * exfalso. apply in_map_iff in Hin as [c [Hck Hc]].
        rewrite List.Forall_forall in X1. destruct (X1 c Hc) as [_ Hl].
        rewrite Hck in Hl. apply in_map_iff in Hl as [l [El _]].
        exact (loc_key_ne_comp_key l c0 El).
    + apply in_or_app. right. apply in_or_app. right. exact Hin.
  - exists (A1 ++ A2). split; [reflexivity | apply Forall_app; split; assumption].
  - intros Hch. apply orb_false_iff in Hch as [Hch Hlen].
    destruct (C2 Hch) as [Hch1 ->]. destruct (C1 Hch1) as [_ ->].
    apply negb_false_iff, Nat.eqb_eq in Hlen.
    rewrite E2, E1, !app_nil_r in Hlen. rewrite !app_nil_r.
    apply filter_length_eq, Hlen.
Qed.

(** X2: Running rebuildCardOrderIfNeeded's card-order rebuild a second time changes nothing and reports no change, provided no card of the input order carries a location's or a comparison's key under the other type. *)
Theorem rebuild_order_idempotent locs comps order
    (Hl : forall l, In l locs -> no_wrong_type order "loc" (loc_key l))
    (Hc : forall c, In c comps -> no_wrong_type order "comp" (comp_key c)) :
  rebuild_order locs comps (rebuild_order locs comps order).1 =
    ((rebuild_order locs comps order).1, false).
Proof.
  pose proof (rebuild_order_spec locs comps order) as S.
  destruct (rebuild_order locs comps order) as [o ch]. simpl.
  destruct S as [V [Il [Ic _]]].
  unfold rebuild_order.
  rewrite add_missing_all_present.
  2:{ intros k Hk. apply in_map_iff in Hk as [l [<- Hl']]. apply in_map_iff.
      exists (mkCard "loc" (loc_key l)). split; [reflexivity | apply Il; auto]. }
  rewrite add_missing_all_present.
  2:{ intros k Hk. apply in_map_iff in Hk as [c [<- Hc']]. apply in_map_iff.
      exists (mkCard "comp" (comp_key c)). split; [reflexivity | apply Ic; auto]. }
  rewrite filter_all.
  - rewrite Nat.eqb_refl. reflexivity.
  - apply List.Forall_forall. intros c Hin. apply card_valid_iff, V, Hin.
Qed.

Lemma valid_card_loc_key locs comps c l :
  valid_card locs comps c -> ckey c = loc_key l -> ctype c = "loc".
Proof.
  intros [[Ht _]|[_ Hk]] E; [exact Ht|].
  rewrite E in Hk. apply in_map_iff in Hk as [c' [Ec _]]. exfalso. exact (loc_key_ne_comp_key l c' (eq_sym Ec)).
Qed.

(** X3: If a saved location's key is carried only by cards of another type, the rebuild adds no card for that location yet reports a change (the wrong-typed card is filtered out); only a second rebuild adds the location's card. *)
Theorem rebuild_order_blocked_location locs comps order l
    (Hl : In l locs)
    (Hany : exists c, In c order /\ ckey c = loc_key l)
    (Hwrong : forall c, In c order -> ckey c = loc_key l -> ctype c <> "loc") :
  ~ In (mkCard "loc" (loc_key l)) (rebuild_order locs comps order).1 /\
  (rebuild_order locs comps order).2 = true /\
  In (mkCard "loc" (loc_key l)) (rebuild_order locs comps (rebuild_order locs comps order).1).1.
Proof.
  destruct Hany as [c0 [Hc0 Hk0]].
  pose proof (rebuild_order_spec locs comps order) as S.
  assert (Hnot : ~ In (mkCard "loc" (loc_key l)) (rebuild_order locs comps order).1).
  { unfold rebuild_order.
    pose proof (add_missing_spec "loc" (map loc_key locs) (map ckey order) order false) as S1.
    destruct (add_missing "loc" _ _ _ false) as [[ex1 ord1] ch1].
    destruct S1 as [A1 [E1 [Y1 [X1 [K1 [C1 N1]]]]]].
    pose proof (add_missing_spec "comp" (map comp_key comps) ex1 ord1 ch1) as S2.
    destruct (add_missing "comp" _ _ _ _) as [[ex2 ord2] ch2].
    destruct S2 as [A2 [E2 [Y2 [X2 [K2 [C2 N2]]]]]].
    simpl. rewrite E2, E1. intros Hin.
    apply List.filter_In in Hin as [Hin _].
    apply in_app_or in Hin as [Hin|Hin]; [apply in_app_or in Hin as [Hin|Hin]|].
    - exact (Hwrong _ Hin eq_refl eq_refl).
    - rewrite List.Forall_forall in N1. apply (N1 _ Hin). simpl. rewrite <- Hk0. apply in_map, Hc0.
    - rewrite List.Forall_forall in X2. destruct (X2 _ Hin) as [Ht _]. discriminate. }
  destruct (rebuild_order locs comps order) as [o1 ch] eqn:Er. simpl in *.
  destruct S as [V [_ [_ [_ Hch]]]].
  split; [exact Hnot|]. split.
  - destruct ch; [reflexivity|]. exfalso. rewrite (Hch eq_refl) in V.
    exact (Hwrong c0 Hc0 Hk0 (valid_card_loc_key locs comps c0 l (V c0 Hc0) Hk0)).
  - pose proof (rebuild_order_spec locs comps o1) as S'.
    destruct (rebuild_order locs comps o1) as [o2 ch2]. simpl.
    destruct S' as [_ [Il _]]. apply Il; [exact Hl|].
    intros c Hc Hk. exact (valid_card_loc_key locs comps c l (V c Hc) Hk).
Qed.

(** X4: When the loaded settings have at least two locations and no comparisons, loadSettings keeps the locations, creates a single comparison of the first two and saves the comparisons, then at most the card order; every resulting card names a loaded location or that comparison, and the comparison has its card unless its key is carried by a card of another type. *)
Theorem loadSettings_default_comparison data s l0 l1 rest
    (Hl : or_nil' (d_locations data) = l0 :: l1 :: rest)
    (Hc : or_nil' (d_comparisons data) = []) :
  let s' := loadSettings (Some data) s in
  locations s' = l0 :: l1 :: rest /\
  s_comparisons s' = [mkSaved l0 l1 None None] /\
  (saves s' = saves s ++ [SaveComparisons [mkSaved l0 l1 None None]] \/
   saves s' = saves s ++ [SaveComparisons [mkSaved l0 l1 None None]; SaveCardOrder (cardOrder s')]) /\
  (forall c, In c (cardOrder s') -> valid_card (l0 :: l1 :: rest) [mkSaved l0 l1 None None] c) /\
  (no_wrong_type (or_nil' (d_card_order data)) "comp" (comp_key (mkSaved l0 l1 None None)) ->
   In (mkCard "comp" (comp_key (mkSaved l0 l1 None None))) (cardOrder s')).
Proof.
  cbn zeta. unfold loadSettings. cbn [set_locations set_comparisons s_comparisons locations].
  rewrite Hc, Hl. cbn. unfold rebuildCardOrderIfNeeded. cbn [locations s_comparisons cardOrder].
  pose proof (rebuild_order_spec (l0 :: l1 :: rest) [mkSaved l0 l1 None None] (or_nil' (d_card_order data))) as S.
  destruct (rebuild_order _ _ _) as [o ch]. destruct S as [V [_ [Ic _]]].
  destruct ch; cbn.
  - split; [reflexivity|]. split; [reflexivity|]. split; [right; rewrite <- app_assoc; reflexivity|].
    split; [exact V|]. intros Hw. exact (Ic (mkSaved l0 l1 None None) (or_introl eq_refl) Hw).
  - split; [reflexivity|]. split; [reflexivity|]. split; [left; reflexivity|].
    split; [exact V|]. intros Hw. exact (Ic (mkSaved l0 l1 None None) (or_introl eq_refl) Hw).
Qed.

(* ------------------------------------------------------------------ *)
(** ** Card navigation and swiping (app.js, api.js) *)

Lemma find_index_range {A} (p : A -> bool) l : -1 <= find_index p l.
Proof.
  induction l as [|x xs IH]; simpl; [lia|].
  destruct (p x); [lia|]. destruct (find_index p xs <? 0) eqn:E; [lia|]. apply Z.ltb_ge in E. lia.
Qed.

Lemma find_index_at {A} (p : A -> bool) l i x :
  nth_error l i = Some x -> p x = true ->
  (forall j y, (j < i)%nat -> nth_error l j = Some y -> p y = false) ->
  find_index p l = Z.of_nat i.
Proof.
  revert i. induction l as [|y ys IH]; intros i Hn Hp Hb; [destruct i; discriminate|].
  destruct i as [|i]; simpl in Hn.
  - injection Hn as ->. simpl. rewrite Hp. reflexivity.
  - simpl. rewrite (Hb 0%nat y ltac:(lia) eq_refl).
    rewrite (IH i Hn Hp). 2:{ intros j z Hj Hz. apply (Hb (S j) z); [lia | exact Hz]. }
    destruct (Z.of_nat i <? 0) eqn:E; [apply Z.ltb_lt in E; lia | lia].
Qed.

Lemma find_index_found {A} (p : A -> bool) l :
  0 <= find_index p l ->
  exists x, nth_error l (Z.to_nat (find_index p l)) = Some x /\ p x = true.
Proof.
  induction l as [|y ys IH]; simpl; intros H; [lia|].
  destruct (p y) eqn:Ep; [exists y; split; [reflexivity | exact Ep]|].
  destruct (find_index p ys <? 0) eqn:E; [lia|]. apply Z.ltb_ge in E.
  destruct (IH E) as [x [Hx Px]]. exists x. split; [|exact Px].
  rewrite Z2Nat.inj_add by lia. rewrite Nat.add_comm. simpl. exact Hx.
Qed.

Lemma find_index_exists {A} (p : A -> bool) l x :
  In x l -> p x = true -> 0 <= find_index p l.
Proof.
  induction l as [|y ys IH]; simpl; [tauto|]. intros [<-|Hin] Hp.
  - rewrite Hp. lia.
  - destruct (p y); [lia|]. specialize (IH Hin Hp).
    destruct (find_index p ys <? 0) eqn:E; [apply Z.ltb_lt in E; lia | lia].
Qed.

Lemma nth_z_nat {A} (l : list A) (i : nat) : nth_z l (Z.of_nat i) = nth_error l i.
Proof. unfold nth_z. destruct (Z.of_nat i <? 0) eqn:E; [apply Z.ltb_lt in E; lia|]. rewrite Nat2Z.id. reflexivity. Qed.

Lemma card_pred_unique (ty k : string) (cards : list Card) i :
  List.NoDup cards -> nth_error cards i = Some (mkCard ty k) ->
  forall j y, (j < i)%nat -> nth_error cards j = Some y ->
  (String.eqb (ctype y) ty && String.eqb (ckey y) k) = false.
Proof.
  intros Hnd Hi j y Hj Hy.
  destruct (String.eqb (ctype y) ty) eqn:E1; [|reflexivity].
  destruct (String.eqb (ckey y) k) eqn:E2; [|reflexivity]. exfalso.
  apply String.eqb_eq in E1, E2. rewrite (card_eta y), E1, E2 in Hy.
  assert (j = i) by (eapply NoDup_nth_error; [exact Hnd | apply nth_error_Some; rewrite Hy; discriminate | congruence]).
  lia.
Qed.

Lemma navigate_current_at_aux (st : Nav) (i : nat) c
    (Hnd : List.NoDup (n_cardOrder st))
    (Hv : forall c, In c (n_cardOrder st) -> valid_card (n_locations st) (n_comparisons st) c)
    (Hi : nth_error (n_cardOrder st) i = Some c) :
  currentCardIdx (navigateToCard (Z.of_nat i) st) = Z.of_nat i.
Proof.
  unfold navigateToCard. rewrite nth_z_nat, Hi.
  assert (Hin : In c (n_cardOrder st)) by (eapply nth_error_In; exact Hi).
  destruct (Hv c Hin) as [[Ht Hk]|[Ht Hk]].
  - rewrite Ht. cbn [String.eqb Ascii.eqb Bool.eqb andb].
    apply in_map_iff in Hk as [l [El Hl]].
    destruct (List.find (fun l0 => String.eqb (loc_key l0) (ckey c)) (n_locations st)) as [loc|] eqn:F.
    2:{ exfalso. eapply List.find_none in F; [|exact Hl]. rewrite El, String.eqb_refl in F. discriminate. }
    apply List.find_some in F as [_ F]. apply String.eqb_eq in F.
    unfold currentCardIdx, navigateToDetail, set_view. cbn.
    rewrite (card_eta c), Ht in Hi.
    apply (find_index_at _ _ _ _ Hi).
    + unfold is_loc_card. rewrite F. cbn. apply String.eqb_refl.
    + intros j y Hj Hy. unfold is_loc_card. rewrite F. exact (card_pred_unique "loc" (ckey c) _ i Hnd Hi j y Hj Hy).
  - rewrite Ht. cbn [String.eqb Ascii.eqb Bool.eqb andb].
    apply in_map_iff in Hk as [cp [Ec Hcp]].
    pose proof (find_index_exists (fun c0 => String.eqb (comp_key c0) (ckey c)) _ cp Hcp
                  ltac:(cbv beta; rewrite Ec; apply String.eqb_refl)) as Hge.
    destruct (find_index_found _ _ Hge) as [comp [Hc Pc]]. apply String.eqb_eq in Pc.
    apply Z.leb_le in Hge as Hge'. rewrite Hge'.
    unfold currentCardIdx, navigateToComparison, set_view. cbn [n_showingComparisonIdx n_comparisons n_cardOrder].
    apply Z.leb_le in Hge as Hge2. rewrite Hge2.
    unfold nth_z. destruct (_ <? 0) eqn:Eneg; [apply Z.ltb_lt in Eneg; lia|]. rewrite Hc.
    rewrite (card_eta c), Ht in Hi.
    apply (find_index_at _ _ _ _ Hi).
    + unfold is_comp_card. rewrite Pc. cbn. apply String.eqb_refl.
    + intros j y Hj Hy. unfold is_comp_card. rewrite Pc. exact (card_pred_unique "comp" (ckey c) _ i Hnd Hi j y Hj Hy).
Qed.

Lemma same_data_view a i st : same_data st (set_view a i st).
Proof. repeat split. Qed.

Lemma same_data_refl st : same_data st st.
Proof. repeat split. Qed.

Lemma navigateToCard_data i st : same_data st (navigateToCard i st).
Proof.
  unfold navigateToCard.
  destruct (nth_z _ _) as [card|]; [|apply same_data_refl].
  destruct (String.eqb (ctype card) "loc").
  - destruct (List.find _ _); [apply same_data_view | apply same_data_refl].
  - destruct (String.eqb (ctype card) "comp"); [|apply same_data_refl].
    destruct (0 <=? _); [apply same_data_view | apply same_data_refl].
Qed.

Lemma swipe_end_data b dx dy st : same_data st (swipe_end b dx dy st).
Proof.
  unfold swipe_end.
  repeat match goal with |- context[if ?c then _ else _] => destruct c end;
  first [apply navigateToCard_data | apply same_data_view | apply same_data_refl].
Qed.

Lemma dashboard_idx st : on_dashboard st -> currentCardIdx st = -1.
Proof.
  intros [Ha Hs]. unfold currentCardIdx. rewrite Ha.
  destruct (0 <=? _) eqn:E; [apply Z.leb_le in E; lia | reflexivity].
Qed.

Lemma iter_data n f (st : Nav) :
  (forall s, same_data s (f s)) -> same_data st (iter n f st).
Proof.
  intros Hf. induction n as [|n IH]; simpl; [apply same_data_refl|].
  destruct IH as [A1 [A2 A3]]. destruct (Hf (iter n f st)) as [B1 [B2 B3]].
  repeat split; congruence.
Qed.

Lemma valid_transfer st st' :
  same_data st st' ->
  (forall c, In c (n_cardOrder st) -> valid_card (n_locations st) (n_comparisons st) c) ->
  List.NoDup (n_cardOrder st) ->
  (forall c, In c (n_cardOrder st') -> valid_card (n_locations st') (n_comparisons st') c) /\
  List.NoDup (n_cardOrder st').
Proof. intros [E1 [E2 E3]] Hv Hnd. rewrite E1, E2, E3. split; assumption. Qed.

Lemma swipe_left_step st dx dy
    (Hdx : dx < -50) (Hdy : Z.abs dy < Z.abs dx)
    (Hnd : List.NoDup (n_cardOrder st))
    (Hv : forall c, In c (n_cardOrder st) -> valid_card (n_locations st) (n_comparisons st) c)
    (i : nat) (Hi : currentCardIdx st = Z.of_nat i) (Hlt : (S i < length (n_cardOrder st))%nat) :
  currentCardIdx (swipe_end true dx dy st) = Z.of_nat (S i).
Proof.
  unfold swipe_end. rewrite Hi.
  replace (true && (50 <? Z.abs dx) && (Z.abs dy <? Z.abs dx)) with true
    by (symmetry; apply andb_true_iff; split; [apply andb_true_iff; split; [reflexivity|] |]; apply Z.ltb_lt; lia).
  replace (Z.of_nat i =? -1) with false by (symmetry; apply Z.eqb_neq; lia). cbn [andb].
  replace (0 <=? Z.of_nat i) with true by (symmetry; apply Z.leb_le; lia).
  replace (dx <? 0) with true by (symmetry; apply Z.ltb_lt; lia).
  replace (Z.of_nat i <? Z.of_nat (length (n_cardOrder st)) - 1) with true by (symmetry; apply Z.ltb_lt; lia).
  replace (Z.of_nat i + 1) with (Z.of_nat (S i)) by lia.
  destruct (nth_error (n_cardOrder st) (S i)) as [c|] eqn:E.
  - exact (navigate_current_at_aux st (S i) c Hnd Hv E).
  - apply nth_error_None in E. lia.
Qed.

(** X6: From the dashboard, with a duplicate-free card order of valid cards, repeated left swipes (dx < -50 and |dy| < |dx|) show the cards at indices 0, 1, ..., n-1 in turn, and the next left swipe returns to the dashboard. *)
Theorem swipe_left_cycle st dx dy
    (Hdx : dx < -50) (Hdy : Z.abs dy < Z.abs dx)
    (Hnd : List.NoDup (n_cardOrder st))
    (Hv : forall c, In c (n_cardOrder st) -> valid_card (n_locations st) (n_comparisons st) c)
    (Hd : on_dashboard st) :
  (forall k, (k < length (n_cardOrder st))%nat ->
     currentCardIdx (iter (S k) (swipe_end true dx dy) st) = Z.of_nat k) /\
  on_dashboard (iter (S (length (n_cardOrder st))) (swipe_end true dx dy) st).
Proof.
  assert (Hb : (true && (50 <? Z.abs dx) && (Z.abs dy <? Z.abs dx)) = true).
  { apply andb_true_iff; split; [apply andb_true_iff; split; [reflexivity|] |]; apply Z.ltb_lt; lia. }
  assert (Hdx0 : (dx <? 0) = true) by (apply Z.ltb_lt; lia).
  assert (First : forall c, nth_error (n_cardOrder st) 0 = Some c ->
            currentCardIdx (swipe_end true dx dy st) = 0).
  { intros c Hc. unfold swipe_end. rewrite Hb, (dashboard_idx st Hd).
    destruct Hd as [Ha Hs]. rewrite Ha. apply Z.ltb_lt in Hs. rewrite Hs, Hdx0. cbn [Z.eqb andb negb].
    assert (Hn0 : negb (Z.of_nat (length (n_cardOrder st)) =? 0) = true).
    { apply negb_true_iff, Z.eqb_neq. destruct (n_cardOrder st); [discriminate | simpl; lia]. }
    rewrite Hn0. exact (navigate_current_at_aux st 0 c Hnd Hv Hc). }
  assert (Steps : forall k, (k < length (n_cardOrder st))%nat ->
     currentCardIdx (iter (S k) (swipe_end true dx dy) st) = Z.of_nat k).
  { induction k as [|k IH]; intros Hk.
    - destruct (nth_error (n_cardOrder st) 0) as [c|] eqn:E; [exact (First c eq_refl)|].
      apply nth_error_None in E. lia.
    - pose proof (iter_data (S k) (swipe_end true dx dy) st (swipe_end_data true dx dy)) as Dk.
      destruct (valid_transfer _ _ Dk Hv Hnd) as [Hv' Hnd'].
      destruct Dk as [_ [_ E3]].
      change (iter (S (S k)) (swipe_end true dx dy) st) with (swipe_end true dx dy (iter (S k) (swipe_end true dx dy) st)).
      apply (swipe_left_step _ dx dy Hdx Hdy Hnd' Hv' k (IH ltac:(lia))). rewrite E3. exact Hk. }
  split; [exact Steps|].
  destruct (length (n_cardOrder st)) as [|n] eqn:En.
  - simpl. unfold swipe_end. rewrite Hb, (dashboard_idx st Hd).
    destruct Hd as [Ha Hs]. rewrite Ha. apply Z.ltb_lt in Hs as Hs'. rewrite Hs', Hdx0, En. cbn.
    destruct (0 <? dx) eqn:E; cbn; [apply Z.ltb_lt in E; lia|]. split; [exact Ha | apply Z.ltb_lt, Hs'].
  - pose proof (Steps n ltac:(lia)) as Hn.
    pose proof (iter_data (S n) (swipe_end true dx dy) st (swipe_end_data true dx dy)) as [_ [_ E3]].
    change (iter (S (S n)) (swipe_end true dx dy) st) with (swipe_end true dx dy (iter (S n) (swipe_end true dx dy) st)).
    set (s := iter (S n) (swipe_end true dx dy) st) in *.
    unfold swipe_end. rewrite Hb, Hn. rewrite E3, En.
    replace (Z.of_nat n =? -1) with false by (symmetry; apply Z.eqb_neq; lia). cbn [andb].
    replace (0 <=? Z.of_nat n) with true by (symmetry; apply Z.leb_le; lia). rewrite Hdx0.
    replace (Z.of_nat n <? Z.of_nat (S n) - 1) with false by (symmetry; apply Z.ltb_ge; lia).
    split; reflexivity || (cbn; lia).
Qed.

(** X5: For a duplicate-free card order whose cards all name a saved location or comparison, navigating to the card at index i makes currentCardIdx return i. *)
Theorem navigateToCard_currentCardIdx (st : Nav) (i : nat) c
    (Hnd : List.NoDup (n_cardOrder st))
    (Hv : forall c, In c (n_cardOrder st) -> valid_card (n_locations st) (n_comparisons st) c)
    (Hi : nth_error (n_cardOrder st) i = Some c) :
  currentCardIdx (navigateToCard (Z.of_nat i) st) = Z.of_nat i.
Proof. exact (navigate_current_at_aux st i c Hnd Hv Hi). Qed.

(* ------------------------------------------------------------------ *)
(** ** Adding a location or a comparison (search.js, app.js) *)

Lemma same_coords_true a b : same_coords a b = true <-> place_loc a = place_loc b.
Proof.
  unfold same_coords, place_loc. rewrite andb_true_iff, !Z.eqb_eq. split.
  - intros [-> ->]. reflexivity.
  - intros H. injection H as -> ->. split; reflexivity.
Qed.

Lemma loc_key_inj a b : loc_key a = loc_key b -> place_loc a = place_loc b.
Proof. intros H. apply loc_str_inj. exact H. Qed.

Lemma NoDup_snoc {A} (l : list A) x : List.NoDup l -> ~ In x l -> List.NoDup (l ++ [x]).
Proof.
  induction l as [|y ys IH]; intros Hn Hx; simpl.
  - constructor; [tauto | constructor].
  - inversion Hn as [|? ? Hy Hys]; subst. constructor.
    + intros Hin. apply in_app_or in Hin as [Hin|[<-|[]]]; [exact (Hy Hin) | apply Hx; left; reflexivity].
    + apply IH; [exact Hys | intros Hin; apply Hx; right; exact Hin].
Qed.

Lemma existsb_ext {A} (f g : A -> bool) (l : list A) :
  (forall x, f x = g x) -> existsb f l = existsb g l.
Proof. intros H. induction l as [|x xs IH]; simpl; [reflexivity|]. rewrite H, IH. reflexivity. Qed.

(** X7: addLocation keeps the card order in step with the saved locations and comparisons; it changes nothing when a saved location has the same coordinates, and otherwise appends the location and its card and saves the locations, then the card order. *)
Theorem addLocation_spec loc s (Hs : cards_in_sync s) :
  let s' := addLocation loc s in
  cards_in_sync s' /\
  (if existsb (fun l => same_coords l loc) (locations s) then s' = s
   else locations s' = locations s ++ [loc] /\
        cardOrder s' = cardOrder s ++ [mkCard "loc" (loc_key loc)] /\
        s_comparisons s' = s_comparisons s /\
        saves s' = saves s ++ [SaveLocations (locations s ++ [loc]);
                               SaveCardOrder (cardOrder s ++ [mkCard "loc" (loc_key loc)])]).
Proof.
  cbn zeta. unfold addLocation.
  destruct (existsb _ (locations s)) eqn:E; [split; [exact Hs | reflexivity]|].
  destruct Hs as [L [C [N [V [HL HC]]]]].
  assert (Hnot : forall l, In l (locations s) -> place_loc l <> place_loc loc).
  { intros l Hl Heq. apply (proj2 (same_coords_true l loc)) in Heq.
    assert (existsb (fun l => same_coords l loc) (locations s) = true) by (apply existsb_exists; eauto).
    congruence. }
  split; [|repeat split; cbn; rewrite <- ?app_assoc; reflexivity].
  unfold cards_in_sync, save_cards, save_locations, save_comparisons; cbn [locations s_comparisons cardOrder saves]. repeat split.
  - rewrite map_app. apply NoDup_snoc; [exact L|].
    intros Hin. apply in_map_iff in Hin as [l [El Hl]]. exact (Hnot l Hl El).
  - exact C.
  - apply NoDup_snoc; [exact N|]. intros Hin. destruct (V _ Hin) as [[_ Hk]|[Ht _]]; [|discriminate].
    apply in_map_iff in Hk as [l [El Hl]]. exact (Hnot l Hl (loc_key_inj _ _ El)).
  - intros c Hin. apply in_app_or in Hin as [Hin|[<-|[]]].
    + destruct (V c Hin) as [[Ht Hk]|[Ht Hk]]; [left | right]; split; auto.
      rewrite map_app. apply in_or_app. left. exact Hk.
    + left. split; [reflexivity|]. rewrite map_app. apply in_or_app. right. left. reflexivity.
  - intros l Hin. apply in_or_app. apply in_app_or in Hin as [Hin|[<-|[]]].
    + left. apply HL, Hin.
    + right. left. reflexivity.
  - intros c Hin. apply in_or_app. left. apply HC, Hin.
Qed.

(** X8: _saveNewComparison keeps the card order in step; it changes nothing when a slot is empty, when both slots have the same coordinates or when a saved comparison has the same two locations in either order, and otherwise appends the comparison and its card and saves the comparisons and the card order. *)
Theorem saveNewComparison_spec slot1 slot2 s (Hs : cards_in_sync s) :
  let s' := saveNewComparison slot1 slot2 s in
  cards_in_sync s' /\
  match slot1, slot2 with
  | Some a, Some b =>
      if same_coords a b then s' = s
      else if existsb (fun c => (same_coords (sc_loc1 c) a && same_coords (sc_loc2 c) b) ||
                                (same_coords (sc_loc1 c) b && same_coords (sc_loc2 c) a))
                      (s_comparisons s) then s' = s
      else s_comparisons s' = s_comparisons s ++ [mkSaved a b None None] /\
           cardOrder s' = cardOrder s ++ [mkCard "comp" (comp_key (mkSaved a b None None))] /\
           locations s' = locations s /\
           saves s' = saves s ++ [SaveComparisons (s_comparisons s ++ [mkSaved a b None None]);
                                  SaveCardOrder (cardOrder s ++ [mkCard "comp" (comp_key (mkSaved a b None None))])]
  | _, _ => s' = s
  end.
Proof.
  cbn zeta. unfold saveNewComparison.
  destruct slot1 as [a|]; [|split; [exact Hs | reflexivity]].
  destruct slot2 as [b|]; [|split; [exact Hs | reflexivity]].
  destruct (same_coords a b); [split; [exact Hs | reflexivity]|].
  set (nc := mkSaved a b None None).
  assert (Hiff : forall c, String.eqb (comp_key c) (comp_key nc) =
          (same_coords (sc_loc1 c) a && same_coords (sc_loc2 c) b) ||
          (same_coords (sc_loc1 c) b && same_coords (sc_loc2 c) a)).
  { intros c. apply Bool.eq_iff_eq_true. rewrite String.eqb_eq, orb_true_iff, !andb_true_iff, !same_coords_true.
    unfold comp_key. rewrite comparisonKey_inj. cbn. tauto. }
  rewrite (existsb_ext _ _ _ Hiff).
  destruct (existsb _ (s_comparisons s)) eqn:E; [split; [exact Hs | reflexivity]|].
  rewrite <- (existsb_ext _ _ _ Hiff) in E.
  assert (Hnot : forall c, In c (s_comparisons s) -> comp_key c <> comp_key nc).
  { intros c Hc Heq. apply String.eqb_eq in Heq.
    assert (existsb (fun c => String.eqb (comp_key c) (comp_key nc)) (s_comparisons s) = true)
      by (apply existsb_exists; eauto). congruence. }
  destruct Hs as [L [C [N [V [HL HC]]]]].
  split; [|repeat split; cbn; rewrite <- ?app_assoc; reflexivity].
  unfold cards_in_sync, save_cards, save_locations, save_comparisons; cbn [locations s_comparisons cardOrder saves]. repeat split.
  - exact L.
  - rewrite map_app. apply NoDup_snoc; [exact C|].
    intros Hin. apply in_map_iff in Hin as [c [Ec Hc]]. exact (Hnot c Hc Ec).
  - apply NoDup_snoc; [exact N|]. intros Hin. destruct (V _ Hin) as [[Ht _]|[_ Hk]]; [discriminate|].
    apply in_map_iff in Hk as [c [Ec Hc]]. exact (Hnot c Hc Ec).
  - intros c Hin. apply in_app_or in Hin as [Hin|[<-|[]]].
    + destruct (V c Hin) as [[Ht Hk]|[Ht Hk]]; [left | right]; split; auto.
      rewrite map_app. apply in_or_app. left. exact Hk.
    + right. split; [reflexivity|]. rewrite map_app. apply in_or_app. right. left. reflexivity.
  - intros l Hin. apply in_or_app. left. apply HL, Hin.
  - intros c Hin. apply in_or_app. apply in_app_or in Hin as [Hin|[<-|[]]].
    + left. apply HC, Hin.
    + right. left. reflexivity.
Qed.

(* ------------------------------------------------------------------ *)
(** ** The comparison settings overlay (settings.js [openCompConfig]) *)

Lemma METRIC_LIST_keys : map fst METRIC_LIST = METRIC_KEYS.
Proof. reflexivity. Qed.

Lemma METRIC_KEYS_NoDup : List.NoDup METRIC_KEYS.
Proof. unfold METRIC_KEYS. repeat constructor; cbn; intuition discriminate. Qed.

Lemma fst_unique {A B} (l : list (A * B)) k a b :
  List.NoDup (map fst l) -> In (k, a) l -> In (k, b) l -> a = b.
Proof.
  induction l as [|[k' c] l IH]; simpl; [tauto|]. intros Hn Ha Hb.
  inversion Hn as [|? ? Hk Hl]; subst.
  destruct Ha as [Ea|Ha], Hb as [Eb|Hb].
  - congruence.
  - injection Ea as -> ->. exfalso. apply Hk. apply in_map_iff. exists (k, b). auto.
  - injection Eb as -> ->. exfalso. apply Hk. apply in_map_iff. exists (k, a). auto.
  - exact (IH Hl Ha Hb).
Qed.

Lemma has_rows (P : string * Mode -> bool) (rows : list (string * Mode)) mo k
    (HP : forall r, P r = true <-> r.2 = mo) :
  has (map fst (List.filter P rows)) k = true <-> In (k, mo) rows.
Proof.
  rewrite has_In, in_map_iff. split.
  - intros [[k' m] [Ek Hin]]. apply List.filter_In in Hin as [Hin Hp].
    apply HP in Hp. simpl in *. subst. exact Hin.
  - intros Hin. exists (k, mo). split; [reflexivity|]. apply List.filter_In. split; [exact Hin|]. apply HP. reflexivity.
Qed.

Lemma rows_mode rows k m :
  List.NoDup (map fst rows) -> In (k, m) rows ->
  mode_of (mkComp (mkLoc 0 0) (mkLoc 0 0)
             (Some (map fst (List.filter is_hidden_row rows)))
             (Some (map fst (List.filter is_display_row rows)))) k = m.
Proof.
  intros Hn Hin. unfold mode_of. cbn [hidden_metrics display_metrics or_nil].
  assert (Hh := has_rows is_hidden_row rows HiddenM k ltac:(intros [? []]; cbn; split; congruence)).
  assert (Hd := has_rows is_display_row rows Display k ltac:(intros [? []]; cbn; split; congruence)).
  destruct (has (map fst (List.filter is_hidden_row rows)) k) eqn:E1.
  { apply (fst_unique rows k); [exact Hn | apply Hh; reflexivity | exact Hin]. }
  destruct (has (map fst (List.filter is_display_row rows)) k) eqn:E2.
  { apply (fst_unique rows k); [exact Hn | apply Hd; reflexivity | exact Hin]. }
  destruct m; [reflexivity | |].
  - exfalso. assert (false = true) by (apply Hd, Hin). discriminate.
  - exfalso. assert (false = true) by (apply Hh, Hin). discriminate.
Qed.

Lemma mode_of_locs l1 l2 l1' l2' h d k :
  mode_of (mkComp l1 l2 h d) k = mode_of (mkComp l1' l2' h d) k.
Proof. reflexivity. Qed.

Lemma rows_rebuild rows :
  List.NoDup (map fst rows) -> forall l1 l2,
  map (fun k => (k, mode_of (mkComp l1 l2 (Some (map fst (List.filter is_hidden_row rows)))
                                          (Some (map fst (List.filter is_display_row rows)))) k))
      (map fst rows) = rows.
Proof.
  intros Hn l1 l2. rewrite map_map. rewrite <- (map_id rows) at 2. apply map_ext_in.
  intros [k m] Hin. cbn. f_equal. rewrite (mode_of_locs _ _ (mkLoc 0 0) (mkLoc 0 0)).
  apply rows_mode; assumption.
Qed.

Lemma NoDup_filter_fst {A B} (P : A * B -> bool) l :
  List.NoDup (map fst l) -> List.NoDup (map fst (List.filter P l)).
Proof.
  induction l as [|x l IH]; simpl; [constructor|]. intros Hn. inversion Hn as [|? ? Hx Hl]; subst.
  destruct (P x); simpl; [|exact (IH Hl)]. constructor; [|exact (IH Hl)].
  intros Hin. apply Hx. apply in_map_iff in Hin as [y [Ey Hy]]. apply List.filter_In in Hy as [Hy _].
  apply in_map_iff. eauto.
Qed.

Lemma map_fst_insert {A B} (l : list (A * B)) i (a : A) (b : B) :
  l !! i = Some (a, b) -> forall b', map fst (<[i := (a, b')]> l) = map fst l.
Proof.
  revert i. induction l as [|x l IH]; intros [|i] H b'; try discriminate; simpl in *.
  - injection H as ->. reflexivity.
  - f_equal. apply IH. exact H.
Qed.

(** X9: Clicking metric row i of an open comparison config advances that metric's mode and keeps the others; the rebuilt rows are again what openCompConfig renders for the updated comparison, whose hidden and display lists are duplicate-free and disjoint. *)
Theorem metric_toggle_rows_in_sync (ci i : nat) (s : AppState) (comp : Comp)
    (Hc : comparisons s !! ci = Some comp)
    (Hr : overlay_rows s = openCompConfig_rows comp)
    (Hi : (i < length METRIC_LIST)%nat) :
  let s' := toggle_update ci i s in
  exists comp',
    comparisons s' !! ci = Some comp' /\
    loc1 comp' = loc1 comp /\ loc2 comp' = loc2 comp /\
    overlay_rows s' = openCompConfig_rows comp' /\
    (forall j k, METRIC_KEYS !! j = Some k ->
       mode_of comp' k = if Nat.eqb j i then next_mode (mode_of comp k) else mode_of comp k) /\
    List.NoDup (or_nil (hidden_metrics comp')) /\ List.NoDup (or_nil (display_metrics comp')) /\
    (forall k, In k (or_nil (hidden_metrics comp')) -> ~ In k (or_nil (display_metrics comp'))).
Proof.
  cbn zeta.
  destruct (METRIC_KEYS !! i) as [k|] eqn:Ek.
  2:{ exfalso. apply lookup_ge_None in Ek. cbn in Ek, Hi. lia. }
  assert (Hri : overlay_rows s !! i = Some (k, mode_of comp k)).
  { rewrite Hr. unfold openCompConfig_rows. rewrite list_lookup_fmap.
    rewrite <- METRIC_LIST_keys, list_lookup_fmap in Ek.
    destruct (METRIC_LIST !! i) as [[k' lab]|]; [|discriminate]. cbn in Ek. injection Ek as ->. reflexivity. }
  set (rows := <[i := (k, next_mode (mode_of comp k))]> (overlay_rows s)).
  assert (Hfst : map fst rows = METRIC_KEYS).
  { unfold rows. rewrite (map_fst_insert _ _ _ _ Hri). rewrite Hr. unfold openCompConfig_rows.
    rewrite map_map. exact METRIC_LIST_keys. }
  assert (Hnd : List.NoDup (map fst rows)) by (rewrite Hfst; exact METRIC_KEYS_NoDup).
  unfold toggle_update. rewrite Hc, Hri. cbn [emit comparisons overlay_rows].
  fold rows.
  set (comp' := mkComp (loc1 comp) (loc2 comp) (Some (map fst (List.filter is_hidden_row rows)))
                                        (Some (map fst (List.filter is_display_row rows)))).
  assert (Hlen : (ci < length (comparisons s))%nat) by (apply lookup_lt_is_Some; eauto).
  exists comp'. split; [apply list_lookup_insert_eq; exact Hlen|].
  split; [reflexivity|]. split; [reflexivity|].
  assert (Hrows : openCompConfig_rows comp' = rows).
  { unfold openCompConfig_rows. rewrite <- (map_map fst (fun k => (k, mode_of comp' k))).
    rewrite METRIC_LIST_keys, <- Hfst. apply rows_rebuild, Hnd. }
  split; [symmetry; exact Hrows|]. split.
  - intros j k' Hj.
    assert (Hrow : rows !! j = Some (k', if Nat.eqb j i then next_mode (mode_of comp k') else mode_of comp k')).
    { unfold rows. destruct (Nat.eqb j i) eqn:Eji.
      - apply Nat.eqb_eq in Eji. subst j. rewrite Ek in Hj. injection Hj as <-.
        apply list_lookup_insert_eq. apply lookup_lt_is_Some. rewrite Hri. eauto.
      - apply Nat.eqb_neq in Eji. rewrite list_lookup_insert_ne by congruence.
        rewrite Hr. unfold openCompConfig_rows. rewrite list_lookup_fmap.
        rewrite <- METRIC_LIST_keys, list_lookup_fmap in Hj.
        destruct (METRIC_LIST !! j) as [[k'' lab]|]; [|discriminate]. cbn in Hj. injection Hj as ->. reflexivity. }
    unfold comp'. rewrite (mode_of_locs _ _ (mkLoc 0 0) (mkLoc 0 0)).
    apply rows_mode; [exact Hnd|]. apply list_elem_of_lookup_2 in Hrow. apply list_elem_of_In, Hrow.
  - cbn [comp' hidden_metrics display_metrics or_nil].
    split; [apply NoDup_filter_fst, Hnd|]. split; [apply NoDup_filter_fst, Hnd|].
    intros k' H1 H2. apply (proj2 (has_In _ _)) in H1, H2.
    apply (proj1 (has_rows is_hidden_row rows HiddenM k' ltac:(intros [? []]; cbn; split; congruence))) in H1.
    apply (proj1 (has_rows is_display_row rows Display k' ltac:(intros [? []]; cbn; split; congruence))) in H2.
    pose proof (fst_unique rows k' _ _ Hnd H1 H2). discriminate.
Qed.

(* ------------------------------------------------------------------ *)
(** ** Moving and deleting cards (settings.js [openSettings]) *)

Lemma sync_perm s o :
  cards_in_sync s -> o ≡ₚ cardOrder s ->
  cards_in_sync (mkSettings (locations s) (s_comparisons s) o (saves s ++ [SaveCardOrder o])).
Proof.
  intros [L [C [N [V [HL HC]]]]] P. unfold cards_in_sync. cbn. repeat split.
  - exact L.
  - exact C.
  - apply (Permutation_NoDup (Permutation_sym P)), N.
  - intros c Hc. apply V. apply (Permutation_in _ P Hc).
  - intros l Hl. apply (Permutation_in _ (Permutation_sym P)), HL, Hl.
  - intros c Hc. apply (Permutation_in _ (Permutation_sym P)), HC, Hc.
Qed.

(** X10: A reorder click on an index within the card order keeps the card order in step, only permutes the cards, leaves the locations and comparisons unchanged, and either changes nothing or saves the new card order once. *)
Theorem moveCard_keeps_sync idx dir s s'
    (Hs : cards_in_sync s) (Hm : moveCard idx dir s = Some s') :
  cards_in_sync s' /\ cardOrder s' ≡ₚ cardOrder s /\
  locations s' = locations s /\ s_comparisons s' = s_comparisons s /\
  (s' = s \/ saves s' = saves s ++ [SaveCardOrder (cardOrder s')]).
Proof.
  unfold moveCard in Hm.
  destruct (cardOrder s !! idx) as [x|] eqn:Ex; [|discriminate].
  cbv zeta in Hm.
  set (sw := if String.eqb dir "up" then Z.of_nat idx - 1 else Z.of_nat idx + 1) in Hm.
  destruct ((sw <? 0) || _);
    [injection Hm as <-; split; [exact Hs | repeat split; [reflexivity | left; reflexivity]]|].
  destruct (cardOrder s !! Z.to_nat sw) as [y|] eqn:Ey; injection Hm as <-;
    [|split; [exact Hs | repeat split; [reflexivity | left; reflexivity]]].
  pose proof (Permutation_insert_swap _ _ _ _ _ Ex Ey) as P.
  split; [apply (sync_perm s); assumption|]. repeat split; [exact P | right; reflexivity].
Qed.

(** X11: The up button of the first card and the down button of the last card leave the settings unchanged and save nothing. *)
Theorem moveCard_ends s (Hne : cardOrder s <> []) dir (Hdir : dir <> "up") :
  moveCard 0 "up" s = Some s /\ moveCard (pred (length (cardOrder s))) dir s = Some s.
Proof.
  unfold moveCard. cbn [String.eqb Ascii.eqb Bool.eqb andb].
  destruct (cardOrder s) as [|x xs] eqn:E; [contradiction|]. split; [reflexivity|].
  destruct (String.eqb dir "up") eqn:Ed; [apply String.eqb_eq in Ed; contradiction|].
  destruct ((x :: xs) !! pred (length (x :: xs))) eqn:Ex.
  - replace ((Z.of_nat (pred (length (x :: xs))) + 1 <? 0) || (Z.of_nat (length (x :: xs)) <=? Z.of_nat (pred (length (x :: xs))) + 1)) with true; [reflexivity|].
    symmetry. apply orb_true_iff. right. apply Z.leb_le. simpl. lia.
  - exfalso. apply lookup_ge_None in Ex. simpl in Ex. lia.
Qed.

(** X12: Moving card i+1 up swaps it with card i; moving card i down afterwards restores the original card order, and each move saves the card order. *)
Theorem moveCard_up_then_down s i (Hi : (S i < length (cardOrder s))%nat) :
  exists s1 s2,
    moveCard (S i) "up" s = Some s1 /\ moveCard i "down" s1 = Some s2 /\
    cardOrder s1 !! i = cardOrder s !! S i /\ cardOrder s1 !! S i = cardOrder s !! i /\
    cardOrder s2 = cardOrder s /\
    saves s2 = saves s ++ [SaveCardOrder (cardOrder s1); SaveCardOrder (cardOrder s)].
Proof.
  destruct (cardOrder s !! S i) as [x|] eqn:Ex.
  2:{ apply lookup_ge_None in Ex. lia. }
  destruct (cardOrder s !! i) as [y|] eqn:Ey.
  2:{ apply lookup_ge_None in Ey. lia. }
  set (o1 := <[i := x]> (<[S i := y]> (cardOrder s))).
  assert (Hm1 : moveCard (S i) "up" s = Some (save_cards (set_cards o1 s))).
  { unfold moveCard. rewrite Ex. cbn [String.eqb Ascii.eqb Bool.eqb andb].
    replace (Z.of_nat (S i) - 1) with (Z.of_nat i) by lia.
    replace ((Z.of_nat i <? 0) || (Z.of_nat (length (cardOrder s)) <=? Z.of_nat i)) with false
      by (symmetry; apply orb_false_iff; split; [apply Z.ltb_ge | apply Z.leb_gt]; lia).
    rewrite Nat2Z.id, Ey. reflexivity. }
  assert (L1 : length o1 = length (cardOrder s)) by (unfold o1; rewrite !length_insert; reflexivity).
  assert (O1i : o1 !! i = Some x) by (apply list_lookup_insert_eq; rewrite length_insert; lia).
  assert (O1s : o1 !! S i = Some y).
  { unfold o1. rewrite list_lookup_insert_ne by lia. apply list_lookup_insert_eq. lia. }
  exists (save_cards (set_cards o1 s)).
  eexists. split; [exact Hm1|]. split.
  - unfold moveCard. cbn [save_cards set_cards cardOrder]. rewrite O1i.
    cbn [String.eqb Ascii.eqb Bool.eqb andb].
    replace ((Z.of_nat i + 1 <? 0) || (Z.of_nat (length o1) <=? Z.of_nat i + 1)) with false
      by (symmetry; apply orb_false_iff; split; [apply Z.ltb_ge | apply Z.leb_gt]; lia).
    replace (Z.to_nat (Z.of_nat i + 1)) with (S i) by lia. rewrite O1s. reflexivity.
  - cbn [save_cards set_cards cardOrder saves]. split; [exact O1i|]. split; [exact O1s|].
    assert (Back : <[S i := x]> (<[i := y]> o1) = cardOrder s).
    { unfold o1. rewrite (list_insert_insert_eq _ i y x).
      rewrite (list_insert_insert_ne _ i (S i)) by lia. rewrite (list_insert_insert_eq _ (S i) x y).
      rewrite (list_insert_id (cardOrder s) i y Ey). apply list_insert_id, Ex. }
    rewrite Back. split; [reflexivity|]. rewrite <- app_assoc. reflexivity.
Qed.

Lemma lookup_nth_error {A} (l : list A) i : l !! i = nth_error l i.
Proof. revert i. induction l as [|x l IH]; intros [|i]; simpl; auto. Qed.

Lemma splice1_in {A} (l : list A) i y x :
  List.NoDup l -> nth_error l i = Some y -> (In x (splice1 l i) <-> In x l /\ x <> y).
Proof.
  unfold splice1. revert i. induction l as [|z l IH]; intros [|i] Hn Hy; try discriminate; simpl in *.
  - injection Hy as ->. inversion Hn as [|? ? Hz _]; subst. split.
    + intros H. split; [right; exact H|]. intros ->. exact (Hz H).
    + intros [[<-|H] Hne]; [contradiction | exact H].
  - inversion Hn as [|? ? Hz Hl]; subst. rewrite (IH i Hl Hy). split.
    + intros [<-|[H Hne]]; split; auto. intros ->. apply Hz. eapply nth_error_In; exact Hy.
    + intros [[<-|H] Hne]; [left; reflexivity | right; auto].
Qed.

Lemma splice1_map {A B} (f : A -> B) l i : map f (splice1 l i) = splice1 (map f l) i.
Proof. unfold splice1. rewrite map_app, firstn_map, skipn_map. reflexivity. Qed.

Lemma NoDup_splice1 {A} (l : list A) i : List.NoDup l -> List.NoDup (splice1 l i).
Proof.
  unfold splice1. revert i. induction l as [|z l IH]; intros [|i] Hn; simpl; [constructor|constructor|..].
  - inversion Hn; assumption.
  - inversion Hn as [|? ? Hz Hl]; subst. constructor; [|apply IH, Hl].
    intros H. apply Hz. apply in_app_or in H as [H|H].
    + rewrite <- (firstn_skipn i l). apply in_or_app. left. exact H.
    + rewrite <- (firstn_skipn (S i) l). apply in_or_app. right. exact H.
Qed.

Lemma map_inj_in {A B} (f : A -> B) l a b :
  List.NoDup (map f l) -> In a l -> In b l -> f a = f b -> a = b.
Proof.
  induction l as [|z l IH]; simpl; [tauto|]. intros Hn Ha Hb E.
  inversion Hn as [|? ? Hz Hl]; subst.
  destruct Ha as [<-|Ha], Hb as [<-|Hb]; auto.
  - exfalso. apply Hz. rewrite E. apply in_map, Hb.
  - exfalso. apply Hz. rewrite <- E. apply in_map, Ha.
Qed.

Lemma splice_found {A B} (f : A -> string) (g : A -> B) (l : list A) a k
    (Hn : List.NoDup (map g l)) (Hinj : forall x y, In x l -> In y l -> f x = f y -> g x = g y)
    (Ha : In a l) (Hk : f a = k) :
  let li := find_index (fun x => String.eqb (f x) k) l in
  0 <= li /\ (forall x, In x (splice1 l (Z.to_nat li)) <-> In x l /\ f x <> k) /\
  List.NoDup (map g (splice1 l (Z.to_nat li))).
Proof.
  cbn zeta.
  assert (H0 := find_index_exists (fun x => String.eqb (f x) k) l a Ha ltac:(cbv beta; rewrite Hk; apply String.eqb_refl)).
  destruct (find_index_found _ _ H0) as [y [Hy Py]]. apply String.eqb_eq in Py.
  assert (Hnd : List.NoDup l) by (eapply NoDup_map_inv; exact Hn).
  split; [exact H0|]. split.
  - intros x. rewrite (splice1_in _ _ _ _ Hnd Hy). split.
    + intros [Hx Hne]. split; [exact Hx|]. intros Hfx. apply Hne.
      apply (map_inj_in g l); [exact Hn | exact Hx | eapply nth_error_In; exact Hy |].
      apply Hinj; [exact Hx | eapply nth_error_In; exact Hy | congruence].
    + intros [Hx Hne]. split; [exact Hx|]. intros ->. contradiction.
  - rewrite splice1_map. apply NoDup_splice1, Hn.
Qed.

Lemma card_neq_key c card : ckey c <> ckey card -> c <> card.
Proof. intros H ->. exact (H eq_refl). Qed.

Lemma card_neq_type c card : ctype c <> ctype card -> c <> card.
Proof. intros H ->. exact (H eq_refl). Qed.

(** X13: Deleting the card at index i of an in-step settings state removes exactly that card and keeps the state in step; a location card also removes the locations with its key, saving the card order then the locations, and a comparison card removes the comparisons with its key, saving the card order then the comparisons. *)
Theorem deleteCard_spec s i card (Hs : cards_in_sync s) (Hi : cardOrder s !! i = Some card) :
  let s' := deleteCard i (ctype card) (ckey card) s in
  cards_in_sync s' /\ cardOrder s' = splice1 (cardOrder s) i /\ ~ In card (cardOrder s') /\
  (ctype card = "loc" ->
     s_comparisons s' = s_comparisons s /\
     (forall l, In l (locations s') <-> In l (locations s) /\ loc_key l <> ckey card) /\
     saves s' = saves s ++ [SaveCardOrder (cardOrder s'); SaveLocations (locations s')]) /\
  (ctype card = "comp" ->
     locations s' = locations s /\
     (forall c, In c (s_comparisons s') <-> In c (s_comparisons s) /\ comp_key c <> ckey card) /\
     saves s' = saves s ++ [SaveCardOrder (cardOrder s'); SaveComparisons (s_comparisons s')]).
Proof.
  cbn zeta. destruct Hs as [L [C [N [V [HL HC]]]]].
  rewrite lookup_nth_error in Hi.
  assert (Hin : In card (cardOrder s)) by (eapply nth_error_In; exact Hi).
  assert (Hcards : forall c, In c (splice1 (cardOrder s) i) <-> In c (cardOrder s) /\ c <> card)
    by (intros c; apply splice1_in; assumption).
  assert (Hcard' : ~ In card (splice1 (cardOrder s) i)) by (rewrite Hcards; tauto).
  destruct (V card Hin) as [[Ht Hk]|[Ht Hk]].
  - apply in_map_iff in Hk as [l0 [El0 Hl0]].
    destruct (splice_found loc_key place_loc (locations s) l0 (ckey card) L
                (fun x y _ _ E => loc_key_inj x y E) Hl0 El0) as [H0 [Hlocs Hnd]].
    unfold deleteCard. rewrite Ht. cbn [String.eqb Ascii.eqb Bool.eqb andb].
    cbn [save_cards set_cards locations s_comparisons cardOrder saves].
    rewrite <- Ht. apply Z.leb_le in H0. rewrite H0.
    cbn [save_locations set_locations locations s_comparisons cardOrder saves].
    split; [|split; [reflexivity|split; [exact Hcard'|split]]].
    + unfold cards_in_sync. cbn [locations s_comparisons cardOrder]. repeat split.
      * exact Hnd.
      * exact C.
      * apply NoDup_splice1, N.
      * intros c Hc. apply Hcards in Hc as [Hc Hne].
        destruct (V c Hc) as [[Htc Hkc]|[Htc Hkc]]; [left | right; split; assumption].
        split; [exact Htc|]. apply in_map_iff in Hkc as [l [El Hl]]. apply in_map_iff.
        exists l. split; [exact El|]. apply Hlocs. split; [exact Hl|]. rewrite El.
        intros Ek. apply Hne. rewrite (card_eta c), (card_eta card), Htc, Ht, Ek. reflexivity.
      * intros l Hl. apply Hlocs in Hl as [Hl Hne]. apply Hcards. split; [apply HL, Hl|].
        apply card_neq_key. exact Hne.
      * intros c Hc. apply Hcards. split; [apply HC, Hc|]. apply card_neq_type. cbn. rewrite Ht. discriminate.
    + intros _. split; [reflexivity|]. split; [exact Hlocs|]. cbn [save_cards set_cards saves cardOrder]. rewrite <- app_assoc. reflexivity.
    + intros Hc. rewrite Ht in Hc. discriminate.
  - apply in_map_iff in Hk as [c0 [Ec0 Hc0]].
    destruct (splice_found comp_key comp_key (s_comparisons s) c0 (ckey card) C
                (fun x y _ _ E => E) Hc0 Ec0) as [H0 [Hcomps Hnd]].
    unfold deleteCard. rewrite Ht. cbn [String.eqb Ascii.eqb Bool.eqb andb].
    cbn [save_cards set_cards locations s_comparisons cardOrder saves].
    rewrite <- Ht. apply Z.leb_le in H0. rewrite H0.
    cbn [save_comparisons set_comparisons locations s_comparisons cardOrder saves].
    split; [|split; [reflexivity|split; [exact Hcard'|split]]].
    + unfold cards_in_sync. cbn [locations s_comparisons cardOrder]. repeat split.
      * exact L.
      * exact Hnd.
      * apply NoDup_splice1, N.
      * intros c Hc. apply Hcards in Hc as [Hc Hne].
        destruct (V c Hc) as [[Htc Hkc]|[Htc Hkc]]; [left; split; assumption | right].
        split; [exact Htc|]. apply in_map_iff in Hkc as [cc [Ec Hcc]]. apply in_map_iff.
        exists cc. split; [exact Ec|]. apply Hcomps. split; [exact Hcc|]. rewrite Ec.
        intros Ek. apply Hne. rewrite (card_eta c), (card_eta card), Htc, Ht, Ek. reflexivity.
      * intros l Hl. apply Hcards. split; [apply HL, Hl|]. apply card_neq_type. cbn. rewrite Ht. discriminate.
      * intros c Hc. apply Hcomps in Hc as [Hc Hne]. apply Hcards. split; [apply HC, Hc|].
        apply card_neq_key. exact Hne.
    + intros Hc. rewrite Ht in Hc. discriminate.
    + intros _. split; [reflexivity|]. split; [exact Hcomps|]. cbn [save_cards set_cards saves cardOrder]. rewrite <- app_assoc. reflexivity.
Qed.

(* ------------------------------------------------------------------ *)
(** ** Chronological runs and the dashboard subtitle (comparison.js) *)

Lemma last_snoc {A} (l : list A) x : last (l ++ [x]) = Some x.
Proof. induction l as [|y [|z l] IH]; simpl; auto. Qed.

Lemma runs_maximal_snoc gs g :
  runs_maximal gs ->
  (match g with GSweep w _ => last_sweeper gs <> Some w | _ => True end) ->
  runs_maximal (gs ++ [g]).
Proof.
  unfold last_sweeper. induction gs as [|g1 [|g2 gs] IH]; simpl; intros Hm Hg; auto.
  - split; [|exact I]. destruct g1, g; auto. intros ->. apply Hg. reflexivity.
  - destruct Hm as [H12 Hm]. split; [exact H12|]. apply IH; [exact Hm|].
    destruct gs; exact Hg.
Qed.

Lemma chrono_step_max st m : chrono_max_inv st -> chrono_max_inv (chrono_step st m).
Proof.
  destruct st as [groups [[sw ms]|]]; unfold chrono_max_inv; cbn [fst snd]; intros [Hm Hl]; simpl.
  - destruct (isSweep m && winner_eqb sw (winner m)) eqn:E; [split; assumption|].
    assert (M1 : runs_maximal (groups ++ [GSweep sw ms])) by (apply runs_maximal_snoc; assumption).
    assert (L1 : last_sweeper (groups ++ [GSweep sw ms]) = Some sw) by (unfold last_sweeper; rewrite last_snoc; reflexivity).
    destruct (isSweep m) eqn:Es; cbn [fst snd].
    + split; [exact M1|]. rewrite L1. intros Heq. injection Heq as Heq.
      rewrite Heq, andb_true_l in E. destruct (winner m); discriminate.
    + split; [apply runs_maximal_snoc; [exact M1 | exact I]|].
      unfold last_sweeper. rewrite last_snoc. reflexivity.
  - destruct (isSweep m); cbn [fst snd].
    + split; [exact Hm|]. rewrite Hl. discriminate.
    + split; [apply runs_maximal_snoc; [exact Hm | exact I]|].
      unfold last_sweeper. rewrite last_snoc. reflexivity.
Qed.

Lemma chrono_fold_max ms st : chrono_max_inv st -> chrono_max_inv (fold_left chrono_step ms st).
Proof. revert st. induction ms as [|m ms IH]; intros st H; simpl; [exact H|]. apply IH, chrono_step_max, H. Qed.

Lemma chrono_groups_maximal ms : runs_maximal (chrono_groups ms).
Proof.
  unfold chrono_groups.
  pose proof (chrono_fold_max ms ([], None) (conj I eq_refl)) as H.
  destruct (fold_left chrono_step ms ([], None)) as [groups [[sw xs]|]];
    destruct H as [Hm Hl]; cbn [fst snd] in *.
  - apply runs_maximal_snoc; assumption.
  - exact Hm.
Qed.

(** X14: When the months array is on the heap, renderChronoMonths returns groups that list the months newest first, where each sweep group is a non-empty run of sweeps by one winner, each single is a non-sweep, and no two adjacent sweep groups have the same winner. *)
Theorem renderChronoMonths_groups (data : CompData) (h : heap) ms
    (Hd : h !! data_months data = Some ms) :
  exists gs, (renderChronoMonths data h).1 = Some gs /\
    concat (map group_months gs) = rev ms /\ Forall group_ok gs /\ runs_maximal gs.
Proof.
  unfold renderChronoMonths, hbind, load, alloc, reverse_in_place, store, hret. cbn.
  rewrite Hd.
  assert (Hl : (length h <? length (h ++ [ms]))%nat = true) by (apply Nat.ltb_lt; rewrite length_app; simpl; lia).
  rewrite (list_lookup_middle h [] ms (length h) eq_refl). cbn.
  rewrite list_lookup_insert_eq by (rewrite length_app; simpl; lia).
  eexists. split; [reflexivity|].
  destruct (chrono_groups_spec (rev ms)) as [H1 H2].
  split; [exact H1|]. split; [exact H2|]. apply chrono_groups_maximal.
Qed.

(** The streak loop of [loadComparisonSummaryForIdx] over [monthsDesc]:
    [(streakWinner, streakCount)], [null] as [None]. *)

Lemma streak_loop_some w c ms :
  streak_loop (Some w) c ms = (Some w, c + Z.of_nat (lead_run w ms)).
Proof.
  revert c. induction ms as [|m ms IH]; intros c; simpl; [f_equal; lia|].
  destruct (winner_eqb (winner m) w); [rewrite IH; f_equal; lia | f_equal; lia].
Qed.

(** X15: The summary subtitle names the winner of the latest month with the length of its run of consecutive wins ending there (N month streak for N > 1, won last month for 1); it is Tied last month when there are no months, the latest month is a tie, or the winner's name is empty. *)
Theorem streak_subtitle_spec esc name1 name2 months :
  streak_subtitle esc name1 name2 months =
    match rev months with
    | [] => "Tied last month"
    | m :: older =>
        match winner m with
        | WTie => "Tied last month"
        | w =>
            let nm := match w with WLoc1 => name1 | _ => name2 end in
            let n := S (lead_run w older) in
            if truthy_str nm then
              (if (1 <? n)%nat then esc nm +++ " " +++ num_str (Z.of_nat n) +++ " month streak"
               else esc nm +++ " won last month")
            else "Tied last month"
        end
    end.
Proof.
  unfold streak_subtitle. destruct (rev months) as [|m older]; [reflexivity|].
  cbn [streak_loop]. destruct (winner m) eqn:Ew; cbn [negb winner_eqb]; [| |reflexivity];
    rewrite streak_loop_some; cbv zeta;
    destruct (truthy_str _); try reflexivity;
    replace (1 + Z.of_nat (lead_run _ older)) with (Z.of_nat (S (lead_run (winner m) older))) by (rewrite Ew; lia);
    rewrite Ew;
    destruct (1 <? Z.of_nat (S (lead_run _ older))) eqn:E1, (1 <? S (lead_run _ older))%nat eqn:E2;
    try reflexivity; exfalso;
    [apply Z.ltb_lt in E1; apply Nat.ltb_ge in E2 | apply Z.ltb_ge in E1; apply Nat.ltb_lt in E2 |
     apply Z.ltb_lt in E1; apply Nat.ltb_ge in E2 | apply Z.ltb_ge in E1; apply Nat.ltb_lt in E2]; lia.
Qed.

(** X16: loadComparisonSummaryForIdx leaves the comparisons unchanged; if the data was cached or the server returned it, opening the comparison view next is served from the cache, and if the fetch failed the subtitle is Unable to load, nothing is cached and the view fetches again. *)
Theorem summary_then_view server esc ci name1 name2 h s comp s1 sub :
  comparisons s !! ci = Some comp ->
  loadComparisonSummaryForIdx server esc ci name1 name2 h s = (s1, sub) ->
  (comparisons s1 = comparisons s) /\
  ((is_Some (comparisonDataMap s !! compCacheKey comp) \/ is_Some (server (comparisonUrl comp))) ->
     renderComparisonView server ci s1 = emit (ERender ci) (emit (EGet (compCacheKey comp)) s1)) /\
  (comparisonDataMap s !! compCacheKey comp = None -> server (comparisonUrl comp) = None ->
     sub = Some "Unable to load" /\
     s1 = emit (EFetch (comparisonUrl comp)) (emit (EGet (compCacheKey comp)) s) /\
     exists rest, trace (renderComparisonView server ci s1) =
       trace s1 ++ [EGet (compCacheKey comp); EFetch (comparisonUrl comp)] ++ rest).
Proof.
  intros Hc Hl. unfold loadComparisonSummaryForIdx in Hl. rewrite Hc in Hl.
  unfold emit in Hl; cbn [comparisonDataMap comparisons trace showingComparisonIdx overlay_rows] in Hl.
  destruct (comparisonDataMap s !! compCacheKey comp) as [d|] eqn:Ed.
  - assert (Hs1 : s1 = emit (EGet (compCacheKey comp)) s).
    { destruct (h !! data_months d); injection Hl; intros; subst; reflexivity. }
    subst s1. split; [reflexivity|]. split.
    + intros _. unfold renderComparisonView, emit. cbn [comparisons comparisonDataMap trace].
      rewrite Hc. cbn [comparisonDataMap]. rewrite Ed. reflexivity.
    + intros Hn. discriminate Hn.
  - destruct (server (comparisonUrl comp)) as [d|] eqn:Es.
    + assert (Hs1 : s1 = emit (ESet (compCacheKey comp))
                 (mkApp (comparisons s) (<[compCacheKey comp := d]> (comparisonDataMap s))
                    (showingComparisonIdx s) (overlay_rows s)
                    ((trace s ++ [EGet (compCacheKey comp)]) ++ [EFetch (comparisonUrl comp)]))).
      { destruct (h !! data_months d); injection Hl; intros; subst; reflexivity. }
      subst s1. split; [reflexivity|]. split.
      * intros _. unfold renderComparisonView, emit. cbn [comparisons comparisonDataMap trace].
        rewrite Hc. cbn [comparisonDataMap]. rewrite lookup_insert_eq. reflexivity.
      * intros _ Hn. discriminate Hn.
    + injection Hl; intros; subst. split; [reflexivity|]. split.
      * intros [[x Hx]|[x Hx]]; discriminate.
      * intros _ _. split; [reflexivity|]. split; [unfold emit; cbn; rewrite <- app_assoc; reflexivity|].
        apply renderComparisonView_miss; [exact Hc | exact Ed].
Qed.

(* ------------------------------------------------------------------ *)
(** ** The grouped-by-calendar-month view, without the heap *)

Lemma alloc_buckets_spec k h :
  alloc_buckets k h = (Some (map (Nat.add (length h)) (seq 0 k)), h ++ repeat [] k).
Proof.
  revert h. induction k as [|k IH]; intros h; simpl.
  - rewrite app_nil_r. reflexivity.
  - unfold hbind, alloc at 1. rewrite IH. unfold hret. rewrite length_app. simpl.
    rewrite <- app_assoc. simpl. f_equal. f_equal. f_equal; [lia|].
    rewrite <- seq_shift, map_map. apply map_ext. intros; lia.
Qed.

Lemma nth_error_seq_lt s k i : (i < k)%nat -> nth_error (seq s k) i = Some (s + i)%nat.
Proof.
  revert s i. induction k as [|k IH]; intros s i Hi; [lia|].
  destruct i as [|i]; simpl; [f_equal; lia|]. rewrite IH by lia. f_equal. lia.
Qed.

Lemma bucket_at_seq n j :
  0 <= j < 12 -> bucket_at (map (Nat.add n) (seq 0 12)) j = Some (n + Z.to_nat j)%nat.
Proof.
  intros Hj. unfold bucket_at. rewrite length_map, length_seq.
  replace ((0 <=? j) && (j <? Z.of_nat 12)) with true by (symmetry; apply andb_true_iff; split; [apply Z.leb_le | apply Z.ltb_lt]; lia).
  rewrite nth_error_map, nth_error_seq_lt by lia. reflexivity.
Qed.

Lemma bucket_at_seq_out n j :
  ~ (0 <= j < 12) -> bucket_at (map (Nat.add n) (seq 0 12)) j = None.
Proof.
  intros Hj. unfold bucket_at. rewrite length_map, length_seq.
  replace ((0 <=? j) && (j <? Z.of_nat 12)) with false; [reflexivity|].
  symmetry. apply andb_false_iff. destruct (Z.leb_spec 0 j); [right; apply Z.ltb_ge; lia | left; reflexivity].
Qed.

Lemma month_ok_index m : month_ok m = true -> exists i, month_index m = Some i /\ 0 <= i < 12.
Proof.
  unfold month_ok. destruct (month_index m) as [i|]; [|discriminate].
  intros Hok. apply andb_true_iff in Hok as [H0 H1]. apply Z.leb_le in H0. apply Z.ltb_lt in H1.
  exists i. split; [reflexivity | lia].
Qed.

(** The heap while the months are pushed: [h] below, then the buckets. *)

Section Buckets.
Variables (h : heap) (ms : list MonthResult).
Let n := length h.
Let bs := map (Nat.add n) (seq 0 12).

Lemma bucket_snoc pre m i j :
  month_index m = Some i ->
  bucket (pre ++ [m]) j = bucket pre j ++ (if i =? j then [m] else []).
Proof. intros Hm. unfold bucket. rewrite List.filter_app. simpl. rewrite Hm. destruct (i =? j); reflexivity. Qed.

Lemma push_body_ok m i pre hp :
  month_index m = Some i -> 0 <= i < 12 -> bucket_heap h pre hp ->
  push_body h m hp = (Some tt, <[(n + Z.to_nat i)%nat := bucket (pre ++ [m]) i]> hp) /\
  bucket_heap h (pre ++ [m]) (<[(n + Z.to_nat i)%nat := bucket (pre ++ [m]) i]> hp).
Proof.
  intros Ei [H0 H1] [Hl [Hlow Hb]]. unfold push_body. rewrite Ei.
  rewrite bucket_at_seq by lia. split.
  - unfold push, hbind, load, store. rewrite Hb by lia. rewrite (bucket_snoc pre m i i Ei), Z.eqb_refl. reflexivity.
  - split; [rewrite length_insert; exact Hl|]. split.
    + intros l Hl'. rewrite list_lookup_insert_ne by lia. apply Hlow, Hl'.
    + intros j Hj. rewrite (bucket_snoc pre m i j Ei). destruct (Z.eqb_spec i j) as [<-|Hne].
      * rewrite list_lookup_insert_eq by lia. rewrite (bucket_snoc pre m i i Ei), Z.eqb_refl. reflexivity.
      * rewrite list_lookup_insert_ne by lia. rewrite app_nil_r. apply Hb, Hj.
Qed.

Lemma push_body_bad m hp : month_ok m = false -> (push_body h m hp).1 = None.
Proof.
  unfold month_ok, push_body. destruct (month_index m) as [i|]; [|reflexivity].
  intros Hb. rewrite bucket_at_seq_out; [reflexivity|].
  intros [H0 H1]. apply Z.leb_le in H0. apply Z.ltb_lt in H1. rewrite H0, H1 in Hb. discriminate.
Qed.

Lemma forM_push_ok xs pre hp :
  Forall (fun m => month_ok m = true) xs -> bucket_heap h pre hp ->
  exists hp', hforM xs (push_body h) hp = (Some tt, hp') /\ bucket_heap h (pre ++ xs) hp'.
Proof.
  revert pre hp. induction xs as [|x xs IH]; intros pre hp Hok Hp; simpl.
  - exists hp. rewrite app_nil_r. split; [reflexivity | exact Hp].
  - inversion Hok as [|? ? Hx Hxs]; subst.
    destruct (month_ok_index x Hx) as [i [Ei Hi]].
    destruct (push_body_ok x i pre hp Ei Hi Hp) as [E Hp1]. unfold hbind. rewrite E.
    destruct (IH (pre ++ [x]) _ Hxs Hp1) as [hp' [E' Hp']]. exists hp'.
    rewrite <- app_assoc in Hp'. split; [exact E' | exact Hp'].
Qed.

Lemma forM_push_bad xs pre hp :
  Exists (fun m => month_ok m = false) xs -> bucket_heap h pre hp ->
  (hforM xs (push_body h) hp).1 = None.
Proof.
  revert pre hp. induction xs as [|x xs IH]; intros pre hp Hex Hp; [inversion Hex|].
  simpl. unfold hbind. destruct (month_ok x) eqn:Ex.
  - destruct (month_ok_index x Ex) as [i [Ei Hi]].
    destruct (push_body_ok x i pre hp Ei Hi Hp) as [E Hp1]. rewrite E.
    inversion Hex as [? ? Hx|? ? Hxs]; subst; [congruence|]. exact (IH _ _ Hxs Hp1).
  - pose proof (push_body_bad x hp Ex) as E. destruct (push_body h x hp) as [[[]|] h1]; [discriminate|reflexivity].
Qed.

Lemma month_groups_loop_spec curMonth is hp :
  (forall i, In i is -> 0 <= Z.rem (curMonth + i) 12 < 12 /\
     hp !! (n + Z.to_nat (Z.rem (curMonth + i) 12))%nat = Some (bucket ms (Z.rem (curMonth + i) 12))) ->
  List.NoDup (map (fun i => Z.rem (curMonth + i) 12) is) ->
  (month_groups_loop curMonth bs is hp).1 = Some (loop_spec ms curMonth is).
Proof.
  revert hp. induction is as [|i is IH]; intros hp Hin Hnd; [reflexivity|].
  simpl in Hnd. inversion Hnd as [|? ? Hni Hnd']; subst.
  destruct (Hin i (or_introl eq_refl)) as [Hr Hi].
  set (mo := Z.rem (curMonth + i) 12) in *.
  cbn [month_groups_loop loop_spec flat_map]. fold mo.
  unfold bs at 1. rewrite bucket_at_seq by exact Hr.
  unfold hbind at 1, load at 1. rewrite Hi.
  destruct (bucket ms mo) as [|e es] eqn:Eb.
  - apply IH; [intros j Hj; apply Hin; right; exact Hj | exact Hnd'].
  - unfold sort_in_place_desc, hbind, load, store. rewrite Hi.
    pose proof (lookup_lt_Some _ _ _ Hi) as Hlt.
    rewrite list_lookup_insert_eq by exact Hlt.
    assert (Hrest : (month_groups_loop curMonth bs is
              (<[(n + Z.to_nat mo)%nat := merge_sort month_desc (e :: es)]> hp)).1 =
              Some (loop_spec ms curMonth is)).
    { apply IH.
      - intros j Hj. destruct (Hin j (or_intror Hj)) as [Hr' Hj']. split; [exact Hr'|].
        rewrite list_lookup_insert_ne; [exact Hj'|].
        intros Heq. apply Hni. apply in_map_iff. exists j. split; [|exact Hj]. lia.
      - exact Hnd'. }
    destruct (month_groups_loop curMonth bs is _) as [o h']. simpl in Hrest. subst o. reflexivity.
Qed.
End Buckets.

Lemma rem_range curMonth i : 0 <= curMonth -> 0 <= i -> 0 <= Z.rem (curMonth + i) 12 < 12.
Proof. intros. pose proof (Z.rem_bound_pos (curMonth + i) 12). lia. Qed.

Lemma twelve_months_distinct curMonth :
  0 <= curMonth < 12 ->
  List.NoDup (map (fun i => Z.rem (curMonth + i) 12) (map Z.of_nat (seq 0 12))).
Proof.
  intros Hc.
  assert (curMonth = 0 \/ curMonth = 1 \/ curMonth = 2 \/ curMonth = 3 \/ curMonth = 4 \/
          curMonth = 5 \/ curMonth = 6 \/ curMonth = 7 \/ curMonth = 8 \/ curMonth = 9 \/
          curMonth = 10 \/ curMonth = 11) as Hcases by lia.
  repeat destruct Hcases as [-> | Hcases]; subst; vm_compute;
    repeat (constructor; [simpl; intuition discriminate|]); constructor.
Qed.

(** X17: When every month has a month number 0 to 11, renderMonthlyGroups returns one group per calendar month that has entries, starting at the current month and wrapping round the year, each with its entries newest first; a month with any other (or no) month number makes it throw. *)
Theorem renderMonthlyGroups_result curMonth data h ms
    (Hd : h !! data_months data = Some ms) (Hc : 0 <= curMonth < 12) :
  (Forall (fun m => month_ok m = true) ms ->
     (renderMonthlyGroups curMonth data h).1 = Some (monthly_groups_spec curMonth ms)) /\
  (Exists (fun m => month_ok m = false) ms ->
     (renderMonthlyGroups curMonth data h).1 = None).
Proof.
  pose proof (lookup_lt_Some _ _ _ Hd) as Hlt.
  assert (H0 : bucket_heap h [] (h ++ repeat [] 12)).
  { split; [rewrite length_app, repeat_length; reflexivity|]. split.
    - intros l Hl. apply lookup_app_l, Hl.
    - intros j Hj. rewrite lookup_app_r by lia. rewrite Nat.add_comm, Nat.add_sub.
      rewrite lookup_nth_error, nth_error_repeat by lia. reflexivity. }
  assert (Hload : (h ++ repeat [] 12) !! data_months data = Some ms)
    by (rewrite lookup_app_l by exact Hlt; exact Hd).
  assert (Hpre : forall P : option (list MonthGroup) -> Prop,
            P (hbind (hforM ms (push_body h))
                 (fun _ => month_groups_loop curMonth (map (Nat.add (length h)) (seq 0 12))
                             (map Z.of_nat (seq 0 12))) (h ++ repeat [] 12)).1 ->
            P (renderMonthlyGroups curMonth data h).1).
  { intros P HP. unfold renderMonthlyGroups. unfold hbind at 1. rewrite alloc_buckets_spec.
    unfold hbind at 1, load at 1. rewrite Hload. exact HP. }
  split.
  - intros Hok. apply (Hpre (fun o => o = Some (monthly_groups_spec curMonth ms))).
    destruct (forM_push_ok h ms [] _ Hok H0) as [hp [E Hp]].
    unfold hbind. rewrite E. simpl in Hp.
    rewrite (month_groups_loop_spec h ms curMonth).
    + reflexivity.
    + intros i Hi. apply in_map_iff in Hi as [k [<- Hk]].
      pose proof (rem_range curMonth (Z.of_nat k) ltac:(lia) ltac:(lia)) as Hr.
      split; [exact Hr|]. destruct Hp as [_ [_ Hb]]. apply Hb, Hr.
    + apply twelve_months_distinct, Hc.
  - intros Hbad. apply (Hpre (fun o => o = None)). unfold hbind at 1.
    pose proof (forM_push_bad h ms [] _ Hbad H0) as E.
    destruct (hforM ms (push_body h) (h ++ repeat [] 12)) as [[[]|] h1]; [discriminate|reflexivity].
Qed.

(* ------------------------------------------------------------------ *)
(** ** Month tallies and table rows *)

Lemma tally_fold es l1 l2 t sw :
  fold_left tally_step es (l1, l2, t, sw) =
    (l1 + count_winner WLoc1 es, l2 + count_winner WLoc2 es, t + count_winner WTie es,
     sw + Z.of_nat (length (List.filter isSweep es))).
Proof.
  revert l1 l2 t sw. induction es as [|m es IH]; intros l1 l2 t sw; cbn [fold_left].
  - unfold count_winner; simpl. rewrite !pair_equal_spec; repeat split; lia.
  - unfold tally_step at 2. destruct (winner m) eqn:Ew; rewrite IH; unfold count_winner; cbn [List.filter];
      rewrite Ew; cbn [winner_eqb];
      destruct (isSweep m); cbn [length]; rewrite !pair_equal_spec; repeat split; lia.
Qed.

Lemma isSweep_not_tie m : isSweep m = true -> winner m <> WTie.
Proof. unfold isSweep. intros Hs Ht. rewrite Ht in Hs. discriminate. Qed.

Lemma count_split es :
  count_winner WLoc1 es + count_winner WLoc2 es + count_winner WTie es = Z.of_nat (length es) /\
  Z.of_nat (length (List.filter isSweep es)) <= count_winner WLoc1 es + count_winner WLoc2 es.
Proof.
  unfold count_winner. induction es as [|m es [IH1 IH2]]; [simpl; lia|].
  cbn [List.filter]. destruct (winner m) eqn:Ew; cbn [winner_eqb];
    destruct (isSweep m) eqn:Es; cbn [length]; try lia.
  exfalso. exact (isSweep_not_tie m Es Ew).
Qed.

(** X18: A calendar-month group's loc1, loc2 and tie counts count its entries by winner and add up to the number of entries; its sweep count counts the sweeps and never exceeds the loc1 plus loc2 wins. *)
Theorem month_group_tally mo es :
  mg_entries (month_group mo es) = es /\
  mg_loc1w (month_group mo es) = count_winner WLoc1 es /\
  mg_loc2w (month_group mo es) = count_winner WLoc2 es /\
  mg_tieCount (month_group mo es) = count_winner WTie es /\
  mg_loc1w (month_group mo es) + mg_loc2w (month_group mo es) + mg_tieCount (month_group mo es)
    = Z.of_nat (length es) /\
  mg_sweepCount (month_group mo es) = Z.of_nat (length (List.filter isSweep es)) /\
  mg_sweepCount (month_group mo es) <= mg_loc1w (month_group mo es) + mg_loc2w (month_group mo es).
Proof.
  unfold month_group. rewrite tally_fold. cbn [mg_entries mg_loc1w mg_loc2w mg_tieCount mg_sweepCount].
  destruct (count_split es). repeat split; lia.
Qed.

(** The metric key behind each row label of [renderCompRows]. *)

Lemma row_marks d1 l d2 hw n1 n2 nm :
  (mark1 (row d1 l d2 hw n1 n2 nm) = "" \/ mark2 (row d1 l d2 hw n1 n2 nm) = "") /\
  (nm = true -> mark1 (row d1 l d2 hw n1 n2 nm) = "" /\ mark2 (row d1 l d2 hw n1 n2 nm) = "").
Proof.
  unfold row. destruct nm; cbn [negb andb].
  - split; [left; reflexivity | intros _; split; reflexivity].
  - split; [|discriminate].
    destruct (n1 =? n2); [left; reflexivity|]. destruct hw, (n2 <? n1), (n1 <? n2); cbn; auto.
Qed.

Lemma row_ok_row h d k d1 l d2 hw n1 n2 :
  (forall k', In (k', l) compRows_keys -> k' = k) -> has h k = false ->
  row_ok h d (row d1 l d2 hw n1 n2 (has d k)).
Proof.
  intros Hk Hh. destruct (row_marks d1 l d2 hw n1 n2 (has d k)) as [H1 H2].
  split; [exact H1|]. intros k' Hin. rewrite label_row in Hin. apply Hk in Hin. subst k'.
  split; [exact Hh | exact H2].
Qed.

Lemma Forall_opt_row (P : Row -> Prop) b r : (b = true -> P r) -> Forall P (opt_row b r).
Proof. destruct b; simpl; intros H; [constructor; [apply H; reflexivity | constructor] | constructor]. Qed.

Ltac key_of := cbn [compRows_keys In]; intros ? Hin;
  repeat destruct Hin as [Hin|Hin]; first [discriminate Hin | inversion Hin; reflexivity | destruct Hin].

Lemma compRows_row_ok m1 m2 h d : Forall (row_ok h d) (compRows m1 m2 h d).
Proof.
  unfold compRows. repeat apply Forall_app_2.
  - apply Forall_opt_row. intros Hb. apply negb_true_iff in Hb.
    apply (row_ok_row h d "sunshine_hours"); [key_of | exact Hb].
  - destruct (has h "avg_daylight_hours") eqn:Hb; [constructor|].
    destruct (avg_daylight_hours m1), (avg_daylight_hours m2); try constructor.
    + apply (row_ok_row h d "avg_daylight_hours"); [key_of | exact Hb].
    + constructor.
  - destruct (has h "avg_sunset_min") eqn:Hb; [constructor|].
    destruct (avg_sunset_min m1), (avg_sunset_min m2); try constructor.
    + apply (row_ok_row h d "avg_sunset_min"); [key_of | exact Hb].
    + constructor.
  - apply Forall_opt_row. intros Hb. apply negb_true_iff in Hb.
    apply (row_ok_row h d "rainy_days"); [key_of | exact Hb].
  - apply Forall_opt_row. intros Hb. apply negb_true_iff in Hb.
    apply (row_ok_row h d "overcast_days"); [key_of | exact Hb].
  - apply Forall_opt_row. intros Hb. apply andb_true_iff in Hb as [Hb _]. apply negb_true_iff in Hb.
    apply (row_ok_row h d "cozy_overcast_days"); [key_of | exact Hb].
  - apply Forall_opt_row. intros Hb. apply andb_true_iff in Hb as [Hb _]. apply negb_true_iff in Hb.
    apply (row_ok_row h d "snow_days"); [key_of | exact Hb].
  - apply Forall_opt_row. intros Hb. apply andb_true_iff in Hb as [Hb _]. apply negb_true_iff in Hb.
    apply (row_ok_row h d "freezing_days"); [key_of | exact Hb].
  - apply Forall_opt_row. intros Hb. apply andb_true_iff in Hb as [Hb _]. apply negb_true_iff in Hb.
    apply (row_ok_row h d "hot_days"); [key_of | exact Hb].
  - apply Forall_opt_row. intros Hb. apply andb_true_iff in Hb as [Hb _]. apply negb_true_iff in Hb.
    apply (row_ok_row h d "sticky_days"); [key_of | exact Hb].
  - constructor; [|constructor]. split; [left; reflexivity|].
    cbn [label]. key_of.
Qed.

(** X19: In the comparison table no row marks both sides as the winner, a hidden metric gets no row, and the row of a display-only metric has no winner mark. *)
Theorem compRows_hidden_display m1 m2 h d :
  (forall r, In r (compRows m1 m2 h d) -> mark1 r = "" \/ mark2 r = "") /\
  (forall k lbl, In (k, lbl) compRows_keys -> has h k = true ->
     row_present lbl (compRows m1 m2 h d) = false) /\
  (forall k lbl r, In (k, lbl) compRows_keys -> has d k = true ->
     In r (compRows m1 m2 h d) -> label r = lbl -> mark1 r = "" /\ mark2 r = "").
Proof.
  pose proof (compRows_row_ok m1 m2 h d) as Hall. rewrite List.Forall_forall in Hall.
  split; [|split].
  - intros r Hr. apply (Hall r Hr).
  - intros k lbl Hk Hh. unfold row_present.
    destruct (existsb _ _) eqn:Ex; [|reflexivity].
    apply existsb_exists in Ex as [r [Hr Hl]]. apply String.eqb_eq in Hl.
    destruct (Hall r Hr) as [_ Hk']. rewrite <- Hl in Hk.
    destruct (Hk' k Hk) as [Hf _]. congruence.
  - intros k lbl r Hk Hd Hr Hl. subst lbl. destruct (Hall r Hr) as [_ Hk'].
    apply (proj2 (Hk' k Hk)), Hd.
Qed.

(* ------------------------------------------------------------------ *)
(** ** The net-score chart (comparison.js [renderCompChart]) *)

Lemma assoc_get_set k k' v l :
  assoc_get k (assoc_set k' v l) = if String.eqb k k' then Some v else assoc_get k l.
Proof.
  induction l as [|[k1 v1] l IH]; simpl.
  - destruct (String.eqb k k'); reflexivity.
  - destruct (String.eqb_spec k' k1) as [<-|Hne]; simpl.
    + destruct (String.eqb k k'); reflexivity.
    + destruct (String.eqb_spec k k1) as [->|Hne1].
      * destruct (String.eqb_spec k1 k') as [->|]; [congruence | reflexivity].
      * rewrite IH. reflexivity.
Qed.

Lemma keys_set k v l :
  map fst (assoc_set k v l) = if existsb (String.eqb k) (map fst l) then map fst l else map fst l ++ [k].
Proof.
  induction l as [|[k1 v1] l IH]; simpl; [reflexivity|].
  destruct (String.eqb_spec k k1) as [->|Hne]; simpl; [reflexivity|].
  rewrite IH. destruct (existsb _ _); reflexivity.
Qed.

Lemma assoc_get_in k l : In k (map fst l) <-> assoc_get k l <> None.
Proof.
  induction l as [|[k1 v1] l IH]; simpl; [split; [intros []|congruence]|].
  destruct (String.eqb_spec k k1) as [->|Hne].
  - split; [congruence | intros _; left; reflexivity].
  - rewrite <- IH. split; [intros [->|H]; [congruence|exact H] | intros H; right; exact H].
Qed.

Lemma existsb_eqb_in k l : existsb (String.eqb k) l = true <-> In k l.
Proof.
  rewrite existsb_exists. split.
  - intros [x [Hx E]]. apply String.eqb_eq in E. subst. exact Hx.
  - intros Hk. exists k. split; [exact Hk | apply String.eqb_refl].
Qed.

Lemma keys_set_NoDup k v l : List.NoDup (map fst l) -> List.NoDup (map fst (assoc_set k v l)).
Proof.
  intros Hnd. rewrite keys_set. destruct (existsb _ _) eqn:E; [exact Hnd|].
  apply NoDup_snoc; [exact Hnd|]. intros Hin. apply existsb_eqb_in in Hin. congruence.
Qed.

(** Facts on [chart_yearData], by induction over the months read so far. *)

Lemma chart_fold_app pre m :
  chart_yearData (pre ++ [m]) = chart_step (chart_yearData pre) m.
Proof. unfold chart_yearData. rewrite fold_left_app. reflexivity. Qed.

Lemma last_net_app yr i pre m :
  last_net yr i (pre ++ [m]) =
    if String.eqb (upto_dash (month m)) yr &&
       match month_index m with Some j => j =? i | None => false end
    then Some (loc1_score m - loc2_score m) else last_net yr i pre.
Proof. unfold last_net. rewrite fold_left_app. reflexivity. Qed.

Lemma set_index_keep arr i v k :
  (k < length arr)%nat -> (match i with Some j => Z.of_nat k <> j | None => True end) ->
  set_index arr i v !! k = arr !! k.
Proof.
  intros Hk Hi. unfold set_index. destruct i as [j|]; [|reflexivity].
  destruct ((0 <=? j) && (j <? 4294967295)) eqn:Ej; [|reflexivity].
  apply andb_true_iff in Ej as [E0 _]. apply Z.leb_le in E0.
  destruct (Z.to_nat j <? length arr)%nat eqn:El.
  - apply list_lookup_insert_ne. lia.
  - apply lookup_app_l. exact Hk.
Qed.

Lemma set_index_hit arr j v :
  (12 <= length arr)%nat -> 0 <= j < 12 -> set_index arr (Some j) v !! Z.to_nat j = Some (JNum v).
Proof.
  intros Hl Hj. unfold set_index.
  replace ((0 <=? j) && (j <? 4294967295)) with true by (symmetry; apply andb_true_iff; split; [apply Z.leb_le|apply Z.ltb_lt]; lia).
  replace (Z.to_nat j <? length arr)%nat with true by (symmetry; apply Nat.ltb_lt; lia).
  apply list_lookup_insert_eq. lia.
Qed.

Lemma set_index_length arr i v : (length arr <= length (set_index arr i v))%nat.
Proof.
  unfold set_index. destruct i as [j|]; [|lia].
  destruct ((0 <=? j) && (j <? 4294967295)); [|lia].
  destruct (Z.to_nat j <? length arr)%nat; [rewrite length_insert; lia | rewrite !length_app; lia].
Qed.

Lemma last_net_absent yr i pre :
  ~ In yr (map (fun m => upto_dash (month m)) pre) -> last_net yr i pre = None.
Proof.
  unfold last_net. intros Hnot. generalize (@None Z) as acc0. intros acc0.
  revert acc0 Hnot. induction pre as [|x pre IHp]; intros acc0 Hnot; simpl; [reflexivity|].
  destruct (String.eqb_spec (upto_dash (month x)) yr) as [Ex|].
  - exfalso. apply Hnot. left. exact Ex.
  - cbn [andb]. apply IHp. intros Hi; apply Hnot; right; exact Hi.
Qed.

Lemma chart_yearData_spec ms :
  List.NoDup (map fst (chart_yearData ms)) /\
  (forall yr, In yr (map fst (chart_yearData ms)) <->
              In yr (map (fun m => upto_dash (month m)) ms) /\ proto_member yr = false) /\
  (forall yr arr, assoc_get yr (chart_yearData ms) = Some arr ->
     (12 <= length arr)%nat /\
     forall k, (k < 12)%nat -> arr !! k = Some (jsv_of (last_net yr (Z.of_nat k) ms))).
Proof.
  induction ms as [|m pre IH] using rev_ind.
  - split; [constructor|]. split; [intros yr; simpl; tauto | intros yr arr H; discriminate].
  - destruct IH as [Hnd [Hkeys Hget]]. rewrite chart_fold_app. unfold chart_step.
    rewrite map_app. cbn [map].
    destruct (proto_member (upto_dash (month m))) eqn:Ep.
    + split; [exact Hnd|]. split.
      * intros yr. rewrite Hkeys, in_app_iff. cbn [In].
        split; [tauto|]. intros [[H|[<-|[]]] Hp]; [tauto | congruence].
      * intros yr arr Ha. destruct (Hget yr arr Ha) as [Hl Hk]. split; [exact Hl|].
        intros k Hk12. rewrite last_net_app.
        destruct (String.eqb_spec (upto_dash (month m)) yr) as [<-|]; [|apply Hk, Hk12].
        exfalso. assert (Hin : In (upto_dash (month m)) (map fst (chart_yearData pre)))
          by (apply assoc_get_in; congruence).
        apply Hkeys in Hin as [_ Hp]. congruence.
    + set (yr0 := upto_dash (month m)) in *.
      set (arr0 := match assoc_get yr0 (chart_yearData pre) with Some a => a | None => repeat JNull 12 end).
      assert (Harr0 : (12 <= length arr0)%nat /\
                forall k, (k < 12)%nat -> arr0 !! k = Some (jsv_of (last_net yr0 (Z.of_nat k) pre))).
      { unfold arr0. destruct (assoc_get yr0 (chart_yearData pre)) as [a|] eqn:Ea; [exact (Hget _ _ Ea)|].
        split; [rewrite repeat_length; lia|]. intros k Hk.
        assert (Hn : last_net yr0 (Z.of_nat k) pre = None).
        { apply last_net_absent. intros Hin.
          assert (Hk' : In yr0 (map fst (chart_yearData pre))) by (apply Hkeys; split; assumption).
          apply assoc_get_in in Hk'. congruence. }
        rewrite Hn. rewrite lookup_nth_error, nth_error_repeat by lia. reflexivity. }
      split; [apply keys_set_NoDup, Hnd|]. split.
      * intros yr. rewrite keys_set. destruct (existsb _ _) eqn:Ex.
        -- rewrite Hkeys, in_app_iff. cbn [In]. fold yr0.
           apply existsb_eqb_in, Hkeys in Ex as [Ex _].
           split; [tauto|]. intros [[H|[<-|[]]] Hp]; tauto.
        -- rewrite in_app_iff, Hkeys, in_app_iff. cbn [In]. fold yr0.
           split; [intros [[H Hp]|[<-|[]]]; tauto | intros [[H|[<-|[]]] Hp]; tauto].
      * intros yr arr Ha. rewrite assoc_get_set in Ha.
        destruct (String.eqb_spec yr yr0) as [->|Hne].
        -- injection Ha as <-. destruct Harr0 as [Hl Hk].
           split; [pose proof (set_index_length arr0 (month_index m) (loc1_score m - loc2_score m)); lia|].
           intros k Hk12. rewrite last_net_app, String.eqb_refl. cbn [andb].
           destruct (month_index m) as [j|] eqn:Ej.
           ++ destruct (Z.eqb_spec j (Z.of_nat k)) as [->|Hjk].
              ** rewrite <- (Nat2Z.id k) at 1. rewrite set_index_hit by lia. reflexivity.
              ** rewrite set_index_keep by (lia || congruence). apply Hk, Hk12.
           ++ rewrite set_index_keep by (lia || exact I). apply Hk, Hk12.
        -- destruct (Hget yr arr Ha) as [Hl Hk]. split; [exact Hl|].
           intros k Hk12. rewrite last_net_app.
           destruct (String.eqb_spec (upto_dash (month m)) yr) as [E|]; [fold yr0 in E; congruence | apply Hk, Hk12].
Qed.

(** X20: The chart's years are sorted and distinct and are exactly the year prefixes of the months other than names of Object.prototype members; slot k of a year's series holds the net score (loc1 minus loc2) of the last month of that year with month index k, or null. *)
Theorem renderCompChart_series ms :
  Sorted String.le (chart_years ms) /\ List.NoDup (chart_years ms) /\
  (forall yr, In yr (chart_years ms) <->
              In yr (map (fun m => upto_dash (month m)) ms) /\ proto_member yr = false) /\
  (forall yr, In yr (chart_years ms) ->
     exists arr, assoc_get yr (chart_yearData ms) = Some arr /\
       forall k, (k < 12)%nat -> arr !! k = Some (jsv_of (last_net yr (Z.of_nat k) ms))).
Proof.
  destruct (chart_yearData_spec ms) as [Hnd [Hkeys Hget]].
  assert (Hp : Permutation (chart_years ms) (map fst (chart_yearData ms)))
    by (unfold chart_years, js_sort; apply merge_sort_Permutation).
  split; [apply (Sorted_merge_sort String.le)|].
  split; [exact (Permutation_NoDup (Permutation_sym Hp) Hnd)|].
  split.
  - intros yr. rewrite <- Hkeys. split; apply Permutation_in; [exact Hp | exact (Permutation_sym Hp)].
  - intros yr Hyr. apply (Permutation_in _ Hp) in Hyr. apply assoc_get_in in Hyr.
    destruct (assoc_get yr (chart_yearData ms)) as [arr|] eqn:Ea; [|congruence].
    exists arr. split; [reflexivity|]. apply (Hget _ _ Ea).
Qed.

Lemma set_index_ok arr j v :
  0 <= j < 12 -> length arr = 12%nat -> Forall (fun v => v <> JHole) arr ->
  length (set_index arr (Some j) v) = 12%nat /\ Forall (fun v => v <> JHole) (set_index arr (Some j) v).
Proof.
  intros Hj Hl Hf. unfold set_index.
  replace ((0 <=? j) && (j <? 4294967295)) with true by (symmetry; apply andb_true_iff; split; [apply Z.leb_le|apply Z.ltb_lt]; lia).
  replace (Z.to_nat j <? length arr)%nat with true by (symmetry; apply Nat.ltb_lt; lia).
  split; [rewrite length_insert; exact Hl|]. apply Forall_insert; [exact Hf | discriminate].
Qed.

Lemma chart_yearData_ok ms :
  Forall (fun m => month_ok m = true) ms ->
  forall yr arr, assoc_get yr (chart_yearData ms) = Some arr ->
    length arr = 12%nat /\ Forall (fun v => v <> JHole) arr.
Proof.
  induction ms as [|m pre IH] using rev_ind; intros Hok yr arr Ha; [discriminate|].
  apply Forall_app in Hok as [Hpre Hm]. inversion Hm as [|? ? Hm1 _]; subst.
  rewrite chart_fold_app in Ha. unfold chart_step in Ha.
  destruct (proto_member (upto_dash (month m))); [exact (IH Hpre yr arr Ha)|].
  rewrite assoc_get_set in Ha. destruct (String.eqb yr (upto_dash (month m))); [|exact (IH Hpre yr arr Ha)].
  injection Ha as <-.
  set (arr0 := match assoc_get (upto_dash (month m)) (chart_yearData pre) with Some a => a | None => repeat JNull 12 end).
  assert (H0 : length arr0 = 12%nat /\ Forall (fun v => v <> JHole) arr0).
  { unfold arr0. destruct (assoc_get _ _) eqn:E; [exact (IH Hpre _ _ E)|].
    split; [apply repeat_length|]. apply List.Forall_forall. intros x Hx. apply repeat_spec in Hx. subst. discriminate. }
  destruct H0 as [Hl Hf]. destruct (month_ok_index m Hm1) as [j [Ej Hj]]. rewrite Ej.
  exact (set_index_ok arr0 j _ Hj Hl Hf).
Qed.

Lemma yabs_fold arr a :
  Forall (fun v => v <> JHole) arr ->
  exists b, fold_left yabs_step arr (Some a) = Some b /\ a <= b /\
    (forall v, In (JNum v) arr -> Z.abs v <= b) /\
    (b = a \/ exists v, In (JNum v) arr /\ Z.abs v = b).
Proof.
  revert a. induction arr as [|x arr IH]; intros a Hf.
  - exists a. simpl. split; [reflexivity|]. split; [lia|]. split; [intros v []|left; reflexivity].
  - inversion Hf as [|? ? Hx Hr]; subst. destruct x as [|v|]; [| |congruence]; cbn [fold_left yabs_step option_map].
    + destruct (IH a Hr) as [b [E [Hab [Hb Hw]]]]. exists b. split; [exact E|]. split; [exact Hab|].
      split; [intros v [Hv|Hv]; [discriminate | apply Hb, Hv]|].
      destruct Hw as [->|[v [Hv Hvb]]]; [left; reflexivity | right; exists v; split; [right; exact Hv | exact Hvb]].
    + destruct (IH (Z.max a (Z.abs v)) Hr) as [b [E [Hab [Hb Hw]]]]. exists b. split; [exact E|].
      split; [lia|]. split.
      * intros w [Hw'|Hw']; [injection Hw' as ->; lia | apply Hb, Hw'].
      * destruct Hw as [Eb|[w [Hw' Hwb]]].
        -- destruct (Z.max_spec a (Z.abs v)) as [[_ Em]|[_ Em]].
           ++ right. exists v. split; [left; reflexivity | lia].
           ++ left. lia.
        -- right. exists w. split; [right; exact Hw' | exact Hwb].
Qed.

Lemma yabs_years_fold yd (ys : list string) a :
  (forall yr, In yr ys -> exists arr, assoc_get yr yd = Some arr /\ Forall (fun v => v <> JHole) arr) ->
  exists b, fold_left (fun y yr => fold_left yabs_step (default [] (assoc_get yr yd)) y) ys (Some a) = Some b /\
    a <= b /\
    (forall yr arr v, In yr ys -> assoc_get yr yd = Some arr -> In (JNum v) arr -> Z.abs v <= b) /\
    (b = a \/ exists yr arr v, In yr ys /\ assoc_get yr yd = Some arr /\ In (JNum v) arr /\ Z.abs v = b).
Proof.
  revert a. induction ys as [|yr ys IH]; intros a Hys.
  - exists a. simpl. split; [reflexivity|]. split; [lia|]. split; [intros ? ? ? []|left; reflexivity].
  - destruct (Hys yr (or_introl eq_refl)) as [arr [Ea Hf]]. cbn [fold_left]. rewrite Ea. cbn [default].
    unfold id.
    destruct (yabs_fold arr a Hf) as [b1 [E1 [Hab1 [Hb1 Hw1]]]]. rewrite E1.
    destruct (IH b1 (fun y Hy => Hys y (or_intror Hy))) as [b [E [Hab [Hb Hw]]]].
    exists b. split; [exact E|]. split; [lia|]. split.
    + intros yr' arr' v [<-|Hy] Ha Hv.
      * rewrite Ea in Ha. injection Ha as <-. pose proof (Hb1 v Hv). lia.
      * exact (Hb yr' arr' v Hy Ha Hv).
    + destruct Hw as [<-|[yr' [arr' [v [Hy [Ha Hv]]]]]].
      * destruct Hw1 as [->|[v [Hv Hvb]]]; [left; reflexivity|].
        right. exists yr, arr, v. split; [left; reflexivity|]. split; [exact Ea|]. split; [exact Hv|exact Hvb].
      * right. exists yr', arr', v. split; [right; exact Hy|]. split; [exact Ha|]. exact Hv.
Qed.

(** X21: When every month has a month number 0 to 11, the chart's yAbs is at least 2, every year's series has 12 slots whose plotted values lie strictly between -yAbs and yAbs, and yAbs is 2 or one more than the largest absolute plotted value. *)
Theorem renderCompChart_scale ms (Hok : Forall (fun m => month_ok m = true) ms) :
  exists y, chart_yAbs ms = Some y /\ 2 <= y /\
    (forall yr arr, assoc_get yr (chart_yearData ms) = Some arr ->
       length arr = 12%nat /\ forall v, In (JNum v) arr -> - y < v < y) /\
    (y = 2 \/ exists yr arr v, assoc_get yr (chart_yearData ms) = Some arr /\
                               In (JNum v) arr /\ Z.abs v = y - 1).
Proof.
  assert (Hp : Permutation (chart_years ms) (map fst (chart_yearData ms)))
    by (unfold chart_years, js_sort; apply merge_sort_Permutation).
  pose proof (chart_yearData_ok ms Hok) as Hwf.
  destruct (yabs_years_fold (chart_yearData ms) (chart_years ms) 1) as [b [E [Hab [Hb Hw]]]].
  { intros yr Hyr. apply (Permutation_in _ Hp) in Hyr. apply assoc_get_in in Hyr.
    destruct (assoc_get yr (chart_yearData ms)) as [arr|] eqn:Ea; [|congruence].
    exists arr. split; [reflexivity | exact (proj2 (Hwf _ _ Ea))]. }
  exists (b + 1). unfold chart_yAbs. cbv zeta. rewrite E. split; [reflexivity|]. split; [lia|]. split.
  - intros yr arr Ha. split; [exact (proj1 (Hwf _ _ Ha))|]. intros v Hv.
    assert (Hyr : In yr (chart_years ms)).
    { apply (Permutation_in _ (Permutation_sym Hp)). apply assoc_get_in. congruence. }
    pose proof (Hb yr arr v Hyr Ha Hv). lia.
  - destruct Hw as [->|[yr [arr [v [_ [Ha [Hv Hvb]]]]]]]; [left; reflexivity|].
    right. exists yr, arr, v. split; [exact Ha|]. split; [exact Hv | lia].
Qed.

(* ------------------------------------------------------------------ *)
(** ** Emoji edits and the view header *)

Lemma find_same_coords_set locs p e :
  List.find (fun l => same_coords l (set_emoji p e)) locs = List.find (fun l => same_coords l p) locs.
Proof. reflexivity. Qed.

Lemma emoji_str_trim (t : string) : emoji_str (Some (if truthy_str t then t else "")) = (if truthy_str t then t else "").
Proof. unfold emoji_str. destruct (truthy_str t) eqn:E; [rewrite E; reflexivity | reflexivity]. Qed.

Lemma shown_side locs p t :
  emoji_str (p_emoji (enrich locs (set_emoji p (if truthy_str t then t else "")))) =
  shown_emoji locs p (if truthy_str t then t else "").
Proof.
  unfold enrich, shown_emoji. rewrite find_same_coords_set.
  destruct (List.find _ locs) as [saved|]; cbn [p_emoji set_emoji].
  - destruct (truthy_opt (p_emoji saved)); [reflexivity | apply emoji_str_trim].
  - apply emoji_str_trim.
Qed.

(** X22: saveEmojis stores the trimmed inputs as the comparison's emojis (empty when blank) and saves the comparisons; the header then shows for each side the saved location's emoji when it is non-empty, and the stored emoji otherwise. *)
Theorem saveEmojis_header trim ci v1 v2 s comp :
  s_comparisons s !! ci = Some comp ->
  let t1 := trim v1 in let t2 := trim v2 in
  let e1 := if truthy_str t1 then t1 else "" in
  let e2 := if truthy_str t2 then t2 else "" in
  locations (saveEmojis trim ci v1 v2 s) = locations s /\
  saves (saveEmojis trim ci v1 v2 s) = saves s ++ [SaveComparisons (s_comparisons (saveEmojis trim ci v1 v2 s))] /\
  s_comparisons (saveEmojis trim ci v1 v2 s) !! ci =
    Some (mkSaved (set_emoji (sc_loc1 comp) e1) (set_emoji (sc_loc2 comp) e2) (sc_hidden comp) (sc_display comp)) /\
  header_title (saveEmojis trim ci v1 v2 s) ci =
    Some (shown_emoji (locations s) (sc_loc1 comp) e1 +++ " vs " +++
          shown_emoji (locations s) (sc_loc2 comp) e2) /\
  (forall saved, List.find (fun l => same_coords l (sc_loc1 comp)) (locations s) = Some saved ->
     truthy_opt (p_emoji saved) = true ->
     shown_emoji (locations s) (sc_loc1 comp) e1 = emoji_str (p_emoji saved)) /\
  (match List.find (fun l => same_coords l (sc_loc1 comp)) (locations s) with
   | Some saved => truthy_opt (p_emoji saved) = false
   | None => True end ->
     shown_emoji (locations s) (sc_loc1 comp) e1 = e1).
Proof.
  intros Hc. cbv zeta. unfold saveEmojis. rewrite Hc.
  pose proof (lookup_lt_Some _ _ _ Hc) as Hlt.
  unfold save_comparisons, set_comparisons; cbn [locations saves s_comparisons].
  split; [reflexivity|]. split; [reflexivity|].
  rewrite list_lookup_insert_eq by exact Hlt. split; [reflexivity|]. split.
  - unfold header_title. cbn [s_comparisons locations]. rewrite list_lookup_insert_eq by exact Hlt.
    cbn [sc_loc1 sc_loc2]. rewrite !shown_side. reflexivity.
  - split.
    + intros saved Hf Ht. unfold shown_emoji. rewrite Hf, Ht. reflexivity.
    + unfold shown_emoji. destruct (List.find _ _) as [saved|]; [intros Hf; rewrite Hf; reflexivity | intros _; reflexivity].
Qed.

(* ------------------------------------------------------------------ *)
(** ** [minutesToTime] over a day and beyond *)

Lemma parse_time_all :
  forallb (fun a => match parse_time (minutesToTime a) with Some b => b =? a | None => false end)
          day_minutes = true.
Proof. vm_compute. reflexivity. Qed.

Lemma parse_minutesToTime a : 0 <= a < 1440 -> parse_time (minutesToTime a) = Some a.
Proof.
  intros Ha. pose proof parse_time_all as Hall. rewrite forallb_forall in Hall.
  assert (Hin : In a day_minutes).
  { unfold day_minutes. apply in_map_iff. exists (Z.to_nat a). split; [lia|]. apply in_seq. lia. }
  specialize (Hall a Hin). destruct (parse_time (minutesToTime a)) as [b|]; [|discriminate].
  apply Z.eqb_eq in Hall. subst. reflexivity.
Qed.

(** X23: minutesToTime gives different strings to different minute counts of a day (0 to 1439). *)
Theorem minutesToTime_injective a b :
  0 <= a < 1440 -> 0 <= b < 1440 -> minutesToTime a = minutesToTime b -> a = b.
Proof.
  intros Ha Hb E. pose proof (parse_minutesToTime a Ha) as Pa. pose proof (parse_minutesToTime b Hb) as Pb.
  rewrite E in Pa. congruence.
Qed.

(** X24: For 720 minutes or more, including past midnight, minutesToTime gives the same string as for 720 plus the count modulo 720: the hour wraps every 12 hours and the suffix stays PM. *)
Theorem minutesToTime_past_noon_wraps mins :
  720 <= mins -> minutesToTime mins = minutesToTime (720 + mins mod 720).
Proof.
  intros Hm. unfold minutesToTime.
  pose proof (Z.mod_pos_bound mins 720 ltac:(lia)) as Hr.
  set (r := mins mod 720) in *.
  assert (Hq : mins = 720 * (mins / 720) + r) by (apply Z.div_mod; lia).
  set (q := mins / 720) in *.
  assert (Hq1 : 1 <= q) by (unfold q; apply Z.div_le_lower_bound; lia).
  assert (Eh : mins / 60 = 12 * q + r / 60).
  { rewrite Hq. replace (720 * q + r) with (r + (12 * q) * 60) by lia. rewrite Z.div_add by lia. lia. }
  assert (Eh' : (720 + r) / 60 = 12 + r / 60).
  { replace (720 + r) with (r + 12 * 60) by lia. rewrite Z.div_add by lia. lia. }
  assert (Er : Z.rem mins 60 = Z.rem (720 + r) 60).
  { rewrite !Z.rem_mod_nonneg by lia. rewrite Hq.
    replace (720 * q + r) with (r + (12 * q) * 60) by lia. replace (720 + r) with (r + 12 * 60) by lia.
    rewrite !Z.mod_add by lia. reflexivity. }
  assert (Hr60 : 0 <= r / 60 < 12) by (split; [apply Z.div_pos; lia | apply Z.div_lt_upper_bound; lia]).
  assert (Eh12 : Z.rem (mins / 60) 12 = Z.rem ((720 + r) / 60) 12).
  { rewrite Eh, Eh'. rewrite !Z.rem_mod_nonneg by lia.
    replace (12 * q + r / 60) with (r / 60 + q * 12) by lia. replace (12 + r / 60) with (r / 60 + 1 * 12) by lia.
    rewrite !Z.mod_add by lia. reflexivity. }
  rewrite Er, Eh12.
  replace (12 <=? mins / 60) with true by (symmetry; apply Z.leb_le; lia).
  replace (12 <=? (720 + r) / 60) with true by (symmetry; apply Z.leb_le; lia).
  reflexivity.
Qed.

(* ------------------------------------------------------------------ *)
(** ** The further properties at concrete inputs *)

Ltac in_cases H := simpl in H; repeat destruct H as [<- | H]; try contradiction.

Lemma sample_cards_NoDup : List.NoDup sample_cards.

Proof. vm_compute. repeat (constructor; [simpl; intuition discriminate|]); constructor. Qed.

Lemma sample_cards_valid c :
  In c sample_cards -> valid_card [pl_nyc; pl_la] [saved_nyc_la] c.

Proof.
  intros Hc. in_cases Hc; [left | right | left]; (split; [reflexivity | simpl; auto]).

Qed.

Lemma sample_settings_sync : cards_in_sync sample_settings.

Proof.
  split; [vm_compute; repeat (constructor; [simpl; intuition discriminate|]); constructor|].
  split; [repeat constructor; simpl; tauto|].
  split; [exact sample_cards_NoDup|].
  split; [exact sample_cards_valid|].
  split; intros x Hx; in_cases Hx; simpl; auto.

Qed.

Lemma compCacheKey_sound_witness :
  Forall metric_name_ok (notScoredList (sample_comp (Some ["rainy_days"]) None)) /\
  Forall metric_name_ok (notScoredList (mkComp (mkLoc 34 (-118)) (mkLoc 40 (-74)) None (Some ["rainy_days"]))) /\
  compCacheKey (sample_comp (Some ["rainy_days"]) None) =
    compCacheKey (mkComp (mkLoc 34 (-118)) (mkLoc 40 (-74)) None (Some ["rainy_days"])) /\
  (((loc1 (sample_comp (Some ["rainy_days"]) None) = mkLoc 34 (-118) /\
     loc2 (sample_comp (Some ["rainy_days"]) None) = mkLoc 40 (-74)) \/
    (loc1 (sample_comp (Some ["rainy_days"]) None) = mkLoc 40 (-74) /\
     loc2 (sample_comp (Some ["rainy_days"]) None) = mkLoc 34 (-118))) /\
   notScoredList (sample_comp (Some ["rainy_days"]) None) ≡ₚ ["rainy_days"]).

Proof.
  assert (H1 : Forall metric_name_ok (notScoredList (sample_comp (Some ["rainy_days"]) None)))
    by (cbn; constructor; [split; [discriminate | reflexivity] | constructor]).
  assert (H2 : Forall metric_name_ok (notScoredList (mkComp (mkLoc 34 (-118)) (mkLoc 40 (-74)) None (Some ["rainy_days"]))))
    by (cbn; constructor; [split; [discriminate | reflexivity] | constructor]).
  assert (H3 : compCacheKey (sample_comp (Some ["rainy_days"]) None) =
               compCacheKey (mkComp (mkLoc 34 (-118)) (mkLoc 40 (-74)) None (Some ["rainy_days"])))
    by (vm_compute; reflexivity).
  split; [exact H1|]. split; [exact H2|]. split; [exact H3|].
  exact (compCacheKey_sound _ _ H1 H2 H3).

Defined.

Lemma rebuild_order_idempotent_witness :
  (forall l, In l [pl_nyc; pl_la] ->
     no_wrong_type [mkCard "loc" (loc_key pl_la); mkCard "comp" "stale"] "loc" (loc_key l)) /\
  (forall c, In c [saved_nyc_la] ->
     no_wrong_type [mkCard "loc" (loc_key pl_la); mkCard "comp" "stale"] "comp" (comp_key c)) /\
  rebuild_order [pl_nyc; pl_la] [saved_nyc_la]
    (rebuild_order [pl_nyc; pl_la] [saved_nyc_la] [mkCard "loc" (loc_key pl_la); mkCard "comp" "stale"]).1 =
  ((rebuild_order [pl_nyc; pl_la] [saved_nyc_la] [mkCard "loc" (loc_key pl_la); mkCard "comp" "stale"]).1, false).

Proof.
  assert (Hl : forall l, In l [pl_nyc; pl_la] ->
     no_wrong_type [mkCard "loc" (loc_key pl_la); mkCard "comp" "stale"] "loc" (loc_key l)).
  { intros l Hl c Hc Hk. in_cases Hl; in_cases Hc; vm_compute in Hk |- *; first [reflexivity | discriminate]. }
  assert (Hc : forall c, In c [saved_nyc_la] ->
     no_wrong_type [mkCard "loc" (loc_key pl_la); mkCard "comp" "stale"] "comp" (comp_key c)).
  { intros c Hc c' Hc' Hk. in_cases Hc; in_cases Hc'; vm_compute in Hk |- *; first [reflexivity | discriminate]. }
  split; [exact Hl|]. split; [exact Hc|].
  exact (rebuild_order_idempotent _ _ _ Hl Hc).

Defined.

Lemma rebuild_order_blocked_location_witness :
  In pl_la [pl_nyc; pl_la] /\
  (exists c, In c [mkCard "comp" (loc_key pl_la)] /\ ckey c = loc_key pl_la) /\
  (forall c, In c [mkCard "comp" (loc_key pl_la)] -> ckey c = loc_key pl_la -> ctype c <> "loc") /\
  ~ In (mkCard "loc" (loc_key pl_la)) (rebuild_order [pl_nyc; pl_la] [] [mkCard "comp" (loc_key pl_la)]).1 /\
  (rebuild_order [pl_nyc; pl_la] [] [mkCard "comp" (loc_key pl_la)]).2 = true /\
  In (mkCard "loc" (loc_key pl_la))
     (rebuild_order [pl_nyc; pl_la] [] (rebuild_order [pl_nyc; pl_la] [] [mkCard "comp" (loc_key pl_la)]).1).1.

Proof.
  assert (Hl : In pl_la [pl_nyc; pl_la]) by (simpl; auto).
  assert (Hany : exists c, In c [mkCard "comp" (loc_key pl_la)] /\ ckey c = loc_key pl_la)
    by (eexists; split; [left; reflexivity | reflexivity]).
  assert (Hw : forall c, In c [mkCard "comp" (loc_key pl_la)] -> ckey c = loc_key pl_la -> ctype c <> "loc")
    by (intros c Hc _; in_cases Hc; discriminate).
  split; [exact Hl|]. split; [exact Hany|]. split; [exact Hw|].
  exact (rebuild_order_blocked_location _ _ _ _ Hl Hany Hw).

Defined.

Lemma loadSettings_default_comparison_witness :
  or_nil' (d_locations first_run_data) = pl_nyc :: pl_la :: [] /\
  or_nil' (d_comparisons first_run_data) = [] /\
  let s' := loadSettings (Some first_run_data) empty_settings in
  locations s' = [pl_nyc; pl_la] /\
  s_comparisons s' = [mkSaved pl_nyc pl_la None None] /\
  (saves s' = saves empty_settings ++ [SaveComparisons [mkSaved pl_nyc pl_la None None]] \/
   saves s' = saves empty_settings ++ [SaveComparisons [mkSaved pl_nyc pl_la None None]; SaveCardOrder (cardOrder s')]) /\
  (forall c, In c (cardOrder s') -> valid_card [pl_nyc; pl_la] [mkSaved pl_nyc pl_la None None] c) /\
  (no_wrong_type (or_nil' (d_card_order first_run_data)) "comp" (comp_key (mkSaved pl_nyc pl_la None None)) ->
   In (mkCard "comp" (comp_key (mkSaved pl_nyc pl_la None None))) (cardOrder s')).

Proof.
  assert (Hl : or_nil' (d_locations first_run_data) = pl_nyc :: pl_la :: []) by reflexivity.
  assert (Hc : or_nil' (d_comparisons first_run_data) = []) by reflexivity.
  split; [exact Hl|]. split; [exact Hc|].
  exact (loadSettings_default_comparison first_run_data empty_settings pl_nyc pl_la [] Hl Hc).

Defined.

Lemma navigateToCard_currentCardIdx_witness :
  List.NoDup (n_cardOrder sample_nav) /\
  (forall c, In c (n_cardOrder sample_nav) -> valid_card (n_locations sample_nav) (n_comparisons sample_nav) c) /\
  nth_error (n_cardOrder sample_nav) 1 = Some (mkCard "comp" (comp_key saved_nyc_la)) /\
  currentCardIdx (navigateToCard (Z.of_nat 1) sample_nav) = Z.of_nat 1.

Proof.
  assert (Hi : nth_error (n_cardOrder sample_nav) 1 = Some (mkCard "comp" (comp_key saved_nyc_la))) by reflexivity.
  split; [exact sample_cards_NoDup|]. split; [exact sample_cards_valid|]. split; [exact Hi|].
  exact (navigateToCard_currentCardIdx sample_nav 1 _ sample_cards_NoDup sample_cards_valid Hi).

Defined.

Lemma swipe_left_cycle_witness :
  -100 < -50 /\ Z.abs 0 < Z.abs (-100) /\ on_dashboard sample_nav /\
  (forall k, (k < length (n_cardOrder sample_nav))%nat ->
     currentCardIdx (iter (S k) (swipe_end true (-100) 0) sample_nav) = Z.of_nat k) /\
  on_dashboard (iter (S (length (n_cardOrder sample_nav))) (swipe_end true (-100) 0) sample_nav).

Proof.
  assert (Hdx : -100 < -50) by lia. assert (Hdy : Z.abs 0 < Z.abs (-100)) by (simpl; lia).
  assert (Hd : on_dashboard sample_nav) by (split; [reflexivity | simpl; lia]).
  split; [exact Hdx|]. split; [exact Hdy|]. split; [exact Hd|].
  exact (swipe_left_cycle sample_nav (-100) 0 Hdx Hdy sample_cards_NoDup sample_cards_valid Hd).

Defined.

Lemma addLocation_spec_witness :
  cards_in_sync sample_settings /\
  let s' := addLocation pl_ldn sample_settings in
  cards_in_sync s' /\
  (if existsb (fun l => same_coords l pl_ldn) (locations sample_settings) then s' = sample_settings
   else locations s' = locations sample_settings ++ [pl_ldn] /\
        cardOrder s' = cardOrder sample_settings ++ [mkCard "loc" (loc_key pl_ldn)] /\
        s_comparisons s' = s_comparisons sample_settings /\
        saves s' = saves sample_settings ++ [SaveLocations (locations sample_settings ++ [pl_ldn]);
                               SaveCardOrder (cardOrder sample_settings ++ [mkCard "loc" (loc_key pl_ldn)])]).

Proof.
  split; [exact sample_settings_sync|].
  exact (addLocation_spec pl_ldn sample_settings sample_settings_sync).

Defined.

Lemma saveNewComparison_spec_witness :
  cards_in_sync sample_settings /\
  let s' := saveNewComparison (Some pl_nyc) (Some pl_ldn) sample_settings in
  cards_in_sync s' /\
  s_comparisons s' = s_comparisons sample_settings ++ [mkSaved pl_nyc pl_ldn None None] /\
  cardOrder s' = cardOrder sample_settings ++ [mkCard "comp" (comp_key (mkSaved pl_nyc pl_ldn None None))] /\
  locations s' = locations sample_settings.

Proof.
  split; [exact sample_settings_sync|].
  pose proof (saveNewComparison_spec (Some pl_nyc) (Some pl_ldn) sample_settings sample_settings_sync) as H.
  cbn zeta in H |- *. destruct H as [Hs H]. vm_compute in H.
  destruct H as [H1 [H2 [H3 _]]]. split; [exact Hs|]. split; [exact H1|]. split; [exact H2|exact H3].

Defined.

Lemma metric_toggle_rows_in_sync_witness :
  comparisons (openCompConfig 0 sample_state) !! 0%nat = Some (sample_comp None None) /\
  overlay_rows (openCompConfig 0 sample_state) = openCompConfig_rows (sample_comp None None) /\
  (1 < length METRIC_LIST)%nat /\
  exists comp',
    comparisons (toggle_update 0 1 (openCompConfig 0 sample_state)) !! 0%nat = Some comp' /\
    overlay_rows (toggle_update 0 1 (openCompConfig 0 sample_state)) = openCompConfig_rows comp' /\
    mode_of comp' "rainy_days" = Display.

Proof.
  assert (Hc : comparisons (openCompConfig 0 sample_state) !! 0%nat = Some (sample_comp None None)) by reflexivity.
  assert (Hr : overlay_rows (openCompConfig 0 sample_state) = openCompConfig_rows (sample_comp None None)) by reflexivity.
  assert (Hi : (1 < length METRIC_LIST)%nat) by (simpl; lia).
  split; [exact Hc|]. split; [exact Hr|]. split; [exact Hi|].
  destruct (metric_toggle_rows_in_sync 0 1 _ _ Hc Hr Hi) as [c' [E [_ [_ [R [M _]]]]]].
  exists c'. split; [exact E|]. split; [exact R|]. rewrite (M 1%nat "rainy_days" eq_refl). reflexivity.

Defined.

Lemma moveCard_keeps_sync_witness :
  cards_in_sync sample_settings /\ moveCard 1 "up" sample_settings = Some moved_settings /\
  cards_in_sync moved_settings /\ cardOrder moved_settings ≡ₚ cardOrder sample_settings /\
  locations moved_settings = locations sample_settings /\
  s_comparisons moved_settings = s_comparisons sample_settings /\
  (moved_settings = sample_settings \/
   saves moved_settings = saves sample_settings ++ [SaveCardOrder (cardOrder moved_settings)]).

Proof.
  assert (Hm : moveCard 1 "up" sample_settings = Some moved_settings) by (vm_compute; reflexivity).
  split; [exact sample_settings_sync|]. split; [exact Hm|].
  exact (moveCard_keeps_sync 1 "up" sample_settings moved_settings sample_settings_sync Hm).

Defined.

Lemma moveCard_ends_witness :
  cardOrder sample_settings <> [] /\ "down" <> "up" /\
  moveCard 0 "up" sample_settings = Some sample_settings /\
  moveCard (pred (length (cardOrder sample_settings))) "down" sample_settings = Some sample_settings.

Proof.
  assert (Hne : cardOrder sample_settings <> []) by discriminate.
  assert (Hdir : "down" <> "up") by discriminate.
  split; [exact Hne|]. split; [exact Hdir|].
  exact (moveCard_ends sample_settings Hne "down" Hdir).

Defined.

Lemma moveCard_up_then_down_witness :
  (S 1 < length (cardOrder sample_settings))%nat /\
  exists s1 s2,
    moveCard 2 "up" sample_settings = Some s1 /\ moveCard 1 "down" s1 = Some s2 /\
    cardOrder s2 = cardOrder sample_settings /\
    saves s2 = saves sample_settings ++ [SaveCardOrder (cardOrder s1); SaveCardOrder (cardOrder sample_settings)].

Proof.
  assert (Hi : (S 1 < length (cardOrder sample_settings))%nat) by (simpl; lia).
  split; [exact Hi|].
  destruct (moveCard_up_then_down sample_settings 1 Hi) as [s1 [s2 [E1 [E2 [_ [_ [E3 E4]]]]]]].
  exists s1, s2. repeat split; assumption.

Defined.

Lemma deleteCard_spec_witness :
  cards_in_sync sample_settings /\
  cardOrder sample_settings !! 1%nat = Some (mkCard "comp" (comp_key saved_nyc_la)) /\
  let s' := deleteCard 1 "comp" (comp_key saved_nyc_la) sample_settings in
  cards_in_sync s' /\ cardOrder s' = splice1 (cardOrder sample_settings) 1 /\
  ~ In (mkCard "comp" (comp_key saved_nyc_la)) (cardOrder s') /\
  locations s' = locations sample_settings /\
  saves s' = saves sample_settings ++ [SaveCardOrder (cardOrder s'); SaveComparisons (s_comparisons s')].

Proof.
  assert (Hi : cardOrder sample_settings !! 1%nat = Some (mkCard "comp" (comp_key saved_nyc_la))) by reflexivity.
  split; [exact sample_settings_sync|]. split; [exact Hi|].
  destruct (deleteCard_spec sample_settings 1 _ sample_settings_sync Hi) as [S1 [S2 [S3 [_ S4]]]].
  destruct (S4 eq_refl) as [L [_ Sv]].
  split; [exact S1|]. split; [exact S2|]. split; [exact S3|]. split; [exact L | exact Sv].

Defined.

Lemma renderChronoMonths_groups_witness :
  sample_heap !! data_months sample_data = Some sample_months /\
  exists gs, (renderChronoMonths sample_data sample_heap).1 = Some gs /\
    concat (map group_months gs) = rev sample_months /\ Forall group_ok gs /\ runs_maximal gs.

Proof.
  assert (Hd : sample_heap !! data_months sample_data = Some sample_months) by reflexivity.
  split; [exact Hd|]. exact (renderChronoMonths_groups sample_data sample_heap sample_months Hd).

Defined.

Lemma summary_then_view_witness :
  comparisons cold_state !! 0%nat = Some (sample_comp None None) /\
  loadComparisonSummaryForIdx no_server (fun t => t) 0 "NYC" "LA" sample_heap cold_state =
    ((loadComparisonSummaryForIdx no_server (fun t => t) 0 "NYC" "LA" sample_heap cold_state).1,
     (loadComparisonSummaryForIdx no_server (fun t => t) 0 "NYC" "LA" sample_heap cold_state).2) /\
  (loadComparisonSummaryForIdx no_server (fun t => t) 0 "NYC" "LA" sample_heap cold_state).2 = Some "Unable to load" /\
  exists rest,
    trace (renderComparisonView no_server 0
             (loadComparisonSummaryForIdx no_server (fun t => t) 0 "NYC" "LA" sample_heap cold_state).1) =
    trace (loadComparisonSummaryForIdx no_server (fun t => t) 0 "NYC" "LA" sample_heap cold_state).1 ++
      [EGet (compCacheKey (sample_comp None None)); EFetch (comparisonUrl (sample_comp None None))] ++ rest.

Proof.
  assert (Hc : comparisons cold_state !! 0%nat = Some (sample_comp None None)) by reflexivity.
  assert (Hl : loadComparisonSummaryForIdx no_server (fun t => t) 0 "NYC" "LA" sample_heap cold_state =
    ((loadComparisonSummaryForIdx no_server (fun t => t) 0 "NYC" "LA" sample_heap cold_state).1,
     (loadComparisonSummaryForIdx no_server (fun t => t) 0 "NYC" "LA" sample_heap cold_state).2)) by reflexivity.
  split; [exact Hc|]. split; [exact Hl|].
  destruct (summary_then_view no_server (fun t => t) 0 "NYC" "LA" sample_heap cold_state _ _ _ Hc Hl)
    as [_ [_ H]].
  destruct (H eq_refl eq_refl) as [Hs [_ Ht]]. split; [exact Hs | exact Ht].

Defined.

Lemma renderMonthlyGroups_result_witness :
  sample_heap !! data_months sample_data = Some sample_months /\ 0 <= 3 < 12 /\
  Forall (fun m => month_ok m = true) sample_months /\
  (renderMonthlyGroups 3 sample_data sample_heap).1 = Some (monthly_groups_spec 3 sample_months).

Proof.
  assert (Hd : sample_heap !! data_months sample_data = Some sample_months) by reflexivity.
  assert (Hc : 0 <= 3 < 12) by lia.
  assert (Hok : Forall (fun m => month_ok m = true) sample_months) by (repeat constructor).
  split; [exact Hd|]. split; [exact Hc|]. split; [exact Hok|].
  exact (proj1 (renderMonthlyGroups_result 3 sample_data sample_heap sample_months Hd Hc) Hok).

Defined.

Lemma renderCompChart_scale_witness :
  Forall (fun m => month_ok m = true) sample_months /\
  exists y, chart_yAbs sample_months = Some y /\ 2 <= y /\
    (y = 2 \/ exists yr arr v, assoc_get yr (chart_yearData sample_months) = Some arr /\
                               In (JNum v) arr /\ Z.abs v = y - 1).

Proof.
  assert (Hok : Forall (fun m => month_ok m = true) sample_months) by (repeat constructor).
  split; [exact Hok|].
  destruct (renderCompChart_scale sample_months Hok) as [y [E [Hy [_ Hw]]]].
  exists y. split; [exact E|]. split; [exact Hy | exact Hw].

Defined.

Lemma saveEmojis_header_witness :
  s_comparisons sample_settings !! 0%nat = Some saved_nyc_la /\
  header_title (saveEmojis (fun t => t) 0 "+" "" sample_settings) 0 =
    Some (shown_emoji (locations sample_settings) pl_nyc "+" +++ " vs " +++
          shown_emoji (locations sample_settings) pl_la "").

Proof.
  assert (Hc : s_comparisons sample_settings !! 0%nat = Some saved_nyc_la) by reflexivity.
  split; [exact Hc|].
  destruct (saveEmojis_header (fun t => t) 0 "+" "" sample_settings saved_nyc_la Hc) as [_ [_ [_ [H _]]]].
  exact H.

Defined.

Lemma minutesToTime_injective_witness :
  0 <= 615 < 1440 /\ 0 <= 615 < 1440 /\ minutesToTime 615 = minutesToTime 615 /\ 615 = 615.

Proof.
  assert (Ha : 0 <= 615 < 1440) by lia.
  split; [exact Ha|]. split; [exact Ha|]. split; [reflexivity|].
  exact (minutesToTime_injective 615 615 Ha Ha eq_refl).

Defined.

Lemma minutesToTime_past_noon_wraps_witness :
  720 <= 1500 /\ minutesToTime 1500 = minutesToTime (720 + 1500 mod 720).

Proof.
  assert (Hm : 720 <= 1500) by lia.
  split; [exact Hm | exact (minutesToTime_past_noon_wraps 1500 Hm)].

Defined.
